(** * Investment tracker: the dollar-cost-averaging core of [app.py]

    The development embeds the computational part of [app.py]:
    the de-duplication of the ticker mapping, [load_data]'s monthly
    resampling, [calculate_portfolio], the loop that builds [combined_df]
    and the metrics section that derives [return_pct].

    Numbers.  Prices and portfolio values are [float64] cells of a pandas
    frame.  A cell is a [float]: a finite value, given by the rational
    it stands for, or one of the special values.  Every arithmetic
    operation rounds its exact result to binary64 ([round64]: to
    nearest, ties to even, 53 significant bits, gradual underflow,
    overflow to an infinity).  The sign of a zero is not kept: it could
    only show in a quotient by a final invested amount of [-0.0], which
    an integer column never holds.  The contribution [monthly_inv] comes
    from a number widget with an integer value and step, and is a Python
    [int]; so is the running [total_invested], and Python adds integers
    exactly.  The model takes any rational for them.

    Exceptions.  Inside [calculate_portfolio] the division
    [monthly_inv / price] is Python's: it raises [OverflowError] when the
    integer is too large to be converted, and [ZeroDivisionError] at a
    price of zero.  A call therefore yields a [result]: the returned
    value or the exception raised.  In the metrics section the operands
    are numpy scalars, whose division does not raise. *)

From Stdlib Require Import ZArith QArith Qcanon Qround Qpower Field Lqa.
From stdpp Require Import base numbers list strings gmap sorting.

Local Open Scope Z_scope.

(** ** [float64] *)

Inductive float : Type :=
  | Fin (q : Qc)
  | PInf
  | NInf
  | NaN.

Global Instance float_eq_dec : EqDecision float.
Proof. solve_decision. Defined.

(** [pd.isna] on a cell. *)
Definition isna (x : float) : bool :=
  match x with NaN => true | _ => false end.

Definition notna (x : float) : bool := negb (isna x).

Definition is_finite (x : float) : bool :=
  match x with Fin _ => true | _ => false end.

(** A Python [int] as a number. *)
Definition of_int (z : Z) : Qc := Q2Qc (inject_Z z).

(** The sign of a rational as a [comparison] with zero:
    [Lt] negative, [Eq] zero, [Gt] positive. *)
Definition Qc_sign (q : Qc) : comparison := (q ?= 0)%Qc.

(** [x == 0.0]. *)
Definition is_zero (x : float) : bool :=
  match x with
  | Fin q => match Qc_sign q with Eq => true | _ => false end
  | _ => false
  end.

(** *** Rounding to binary64 *)

Definition pow2 (e : Z) : Q := (2 ^ e)%Q.

(** The binary exponent of a positive rational [q]:
    [pow2 (ilog2 q) <= q < pow2 (ilog2 q + 1)]. *)
Definition ilog2 (q : Q) : Z :=
  let k := Z.log2 (Qnum q) - Z.log2 (Zpos (Qden q)) in
  if Qle_bool (pow2 k) q then k else k - 1.

(** The nearest integer, a tie going to the even one. *)
Definition rhe (x : Q) : Z :=
  let f := Qfloor x in
  match Qcompare (x - inject_Z f) (1 # 2) with
  | Lt => f
  | Gt => f + 1
  | Eq => if Z.even f then f else f + 1
  end.

(** The exponent of the last place of the binary64 numbers around a
    positive [q] (never below that of the subnormal numbers), the
    significand rounded to it, and the rounded value. *)
Definition expo (q : Q) : Z := Z.max (ilog2 q - 52) (-1074).

Definition mant (q : Q) : Z := rhe (q / pow2 (expo q)).

Definition rval (q : Q) : Q := (inject_Z (mant q) * pow2 (expo q))%Q.

Definition fneg (x : float) : float :=
  match x with
  | Fin q => Fin (- q)%Qc
  | PInf => NInf
  | NInf => PInf
  | NaN => NaN
  end.

(** The binary64 number nearest to a positive rational; a value that
    rounds to [pow2 1024] or more overflows. *)
Definition round_pos (q : Q) : float :=
  if Qle_bool (pow2 1024) (rval q) then PInf else Fin (Q2Qc (rval q)).

(** The binary64 number nearest to the rational [q]. *)
Definition round64 (q : Qc) : float :=
  match Qc_sign q with
  | Eq => Fin 0%Qc
  | Gt => round_pos q
  | Lt => fneg (round_pos (- q))
  end.

(** The conversion of a numeric cell to [float64]: the cell of an
    integer column holds its integer exactly and is rounded here, a
    [float64] cell is left as it is. *)
Definition as_float64 (x : float) : float :=
  match x with
  | Fin q => round64 q
  | _ => x
  end.

(** *** Arithmetic *)

Definition fadd (x y : float) : float :=
  match x, y with
  | NaN, _ | _, NaN => NaN
  | Fin a, Fin b => round64 (a + b)%Qc
  | PInf, NInf | NInf, PInf => NaN
  | PInf, _ | _, PInf => PInf
  | NInf, _ | _, NInf => NInf
  end.

Definition fsub (x y : float) : float := fadd x (fneg y).

(** An infinity scaled by a finite factor. *)
Definition inf_scaled (positive : bool) (q : Qc) : float :=
  match Qc_sign q with
  | Eq => NaN
  | Gt => if positive then PInf else NInf
  | Lt => if positive then NInf else PInf
  end.

Definition fmul (x y : float) : float :=
  match x, y with
  | NaN, _ | _, NaN => NaN
  | Fin a, Fin b => round64 (a * b)%Qc
  | PInf, Fin b => inf_scaled true b
  | NInf, Fin b => inf_scaled false b
  | Fin a, PInf => inf_scaled true a
  | Fin a, NInf => inf_scaled false a
  | PInf, PInf | NInf, NInf => PInf
  | PInf, NInf | NInf, PInf => NInf
  end.

(** Division as the hardware and numpy perform it: a zero divisor does
    not raise, it yields an infinity (or NaN for [0 / 0]). *)
Definition fdiv (x y : float) : float :=
  match x, y with
  | NaN, _ | _, NaN => NaN
  | Fin a, Fin b =>
      match Qc_sign b with
      | Eq => match Qc_sign a with
              | Eq => NaN
              | Gt => PInf
              | Lt => NInf
              end
      | _ => round64 (a / b)%Qc
      end
  | Fin _, (PInf | NInf) => Fin 0%Qc
  | (PInf | NInf), (PInf | NInf) => NaN
  | PInf, Fin b => match Qc_sign b with Lt => NInf | _ => PInf end
  | NInf, Fin b => match Qc_sign b with Lt => PInf | _ => NInf end
  end.

(** The order of [float64]: NaN compares with nothing. *)
Definition fle (x y : float) : Prop :=
  match x, y with
  | NaN, _ | _, NaN => False
  | NInf, _ | _, PInf => True
  | Fin a, Fin b => (a <= b)%Qc
  | _, _ => False
  end.

(** ** Exceptions *)

Inductive exn : Type :=
  | OverflowError        (* "int too large to convert to float" *)
  | ZeroDivisionError.   (* "float division by zero" *)

(** The outcome of a call. *)
Inductive result (A : Type) : Type :=
  | Returned (a : A)
  | Raised (e : exn).

Arguments Returned {A} a.
Arguments Raised {A} e.

Global Instance result_ret : MRet result := fun A a => Returned a.

Global Instance result_bind : MBind result := fun A B f m =>
  match m with
  | Returned a => f a
  | Raised e => Raised e
  end.

Global Instance result_fmap : FMap result := fun A B f m =>
  match m with
  | Returned a => Returned (f a)
  | Raised e => Raised e
  end.

(** Python's [a / y] for an [int] [a] and a [float] [y]: the integer is
    converted first, then the divisor is tested. *)
Definition py_truediv (a : Qc) (y : float) : result float :=
  match round64 a with
  | Fin a' => if is_zero y then Raised ZeroDivisionError
              else Returned (fdiv (Fin a') y)
  | _ => Raised OverflowError
  end.

(** ** Timestamps *)

Record Timestamp : Type := mkTimestamp { year : Z; month : Z; day : Z }.

Global Instance Timestamp_eq_dec : EqDecision Timestamp.
Proof. solve_decision. Defined.

(** Chronological order. *)
Definition ts_lt (a b : Timestamp) : Prop :=
  year a < year b
  \/ (year a = year b /\ (month a < month b
                          \/ (month a = month b /\ day a < day b))).

Global Instance ts_lt_dec a b : Decision (ts_lt a b).
Proof. unfold ts_lt. apply _. Defined.

(** ** Frames and series *)

(** A pandas [Series]: index labels paired with cells, in row order. *)
Abbreviation Series := (list (Timestamp * float)).

(** A pandas [DataFrame] with a date index: the index and the named
    columns, each column holding one cell per index label.
    [pd.DataFrame()] is [empty_frame]. *)
Record DataFrame : Type := mkFrame {
  index : list Timestamp;
  columns : list (string * list float)
}.

Definition empty_frame : DataFrame := mkFrame [] [].

(** [df.empty]: some axis has length zero. *)
Definition frame_empty (df : DataFrame) : bool :=
  match index df, columns df with
  | [], _ | _, [] => true
  | _, _ => false
  end.

(** [name in df.columns] and [df[name]]. *)
Fixpoint get_column (cols : list (string * list float)) (name : string)
  : option (list float) :=
  match cols with
  | [] => None
  | (n, vs) :: rest => if decide (n = name) then Some vs else get_column rest name
  end.

Definition column (df : DataFrame) (name : string) : option Series :=
  match get_column (columns df) name with
  | Some vs => Some (zip (index df) vs)
  | None => None
  end.

(** [Series.dropna()]. *)
Definition dropna (s : Series) : Series :=
  List.filter (fun item => notna (snd item)) s.

(** ** [calculate_portfolio] *)

(** The variables of the loop. *)
Record Acc : Type := mkAcc {
  shares_owned : float;
  total_invested : Qc;
  dates : list Timestamp;
  portfolio_values : list float;
  invested_values : list Qc
}.

Definition acc_init : Acc := mkAcc (Fin 0%Qc) 0%Qc [] [] [].

(** One iteration of [for date, price in prices.items()]; the items of
    a [float64] series are Python floats. *)
Definition buy (monthly_inv : Qc) (st : Acc) (item : Timestamp * float)
  : result Acc :=
  let '(date, price) := item in
  shares_bought ← py_truediv monthly_inv price;
  let shares_owned' := fadd (shares_owned st) shares_bought in
  let total_invested' := (total_invested st + monthly_inv)%Qc in
  let current_value := fmul shares_owned' price in
  Returned (mkAcc shares_owned' total_invested'
                  (dates st ++ [date])
                  (portfolio_values st ++ [current_value])
                  (invested_values st ++ [total_invested'])).

(** The loop: an exception raised by an iteration ends it. *)
Fixpoint run_loop (monthly_inv : Qc) (st : Acc) (prices : Series) : result Acc :=
  match prices with
  | [] => Returned st
  | item :: rest =>
      st' ← buy monthly_inv st item;
      run_loop monthly_inv st' rest
  end.

(** The states reached after each completed iteration, in order. *)
Fixpoint iterations (monthly_inv : Qc) (st : Acc) (prices : Series) : list Acc :=
  match prices with
  | [] => []
  | item :: rest =>
      match buy monthly_inv st item with
      | Returned st' => st' :: iterations monthly_inv st' rest
      | Raised _ => []
      end
  end.

Definition TOTAL_INVESTED : string := "Total Invested".
Definition PORTFOLIO_VALUE : string := "Portfolio Value".

(** The frame built from the three lists, indexed by ["Date"]. *)
Definition result_frame (st : Acc) : DataFrame :=
  mkFrame (dates st)
          [ (TOTAL_INVESTED, Fin <$> invested_values st);
            (PORTFOLIO_VALUE, portfolio_values st) ].

(** The body of [calculate_portfolio] once the column has been found. *)
Definition simulate (series : Series) (monthly_inv : Qc) : result DataFrame :=
  result_frame <$> run_loop monthly_inv acc_init (dropna series).

Definition calculate_portfolio (data : DataFrame) (ticker_symbol : string)
    (monthly_inv : Qc) : result DataFrame :=
  match column data ticker_symbol with
  | None => Returned empty_frame
  | Some series => simulate series monthly_inv
  end.

(** ** De-duplication of the ticker mapping *)

(** A Python [dict] of strings, in insertion order.  [d[k] = v] replaces
    the value of an existing key in place and appends a new key. *)
Abbreviation Dict := (list (string * string)).

Fixpoint dict_set (d : Dict) (k v : string) : Dict :=
  match d with
  | [] => [(k, v)]
  | (k', v') :: rest =>
      if decide (k' = k) then (k, v) :: rest else (k', v') :: dict_set rest k v
  end.

(** The two variables of the loop: [unique_tickers] and [seen_symbols]. *)
Record Dedup : Type := mkDedup {
  unique_tickers : Dict;
  seen_symbols : gset string
}.

Definition dedup_init : Dedup := mkDedup [] ∅.

Definition dedup_step (st : Dedup) (item : string * string) : Dedup :=
  let '(name, symbol) := item in
  if decide (symbol ∈ seen_symbols st) then st
  else mkDedup (dict_set (unique_tickers st) name symbol)
               ({[symbol]} ∪ seen_symbols st).

Definition deduplicate (selected_tickers : Dict) : Dict :=
  unique_tickers (foldl dedup_step dedup_init selected_tickers).

(** ** [load_data]: monthly resampling *)

(** [resample('MS').first()] is pandas' code; it is embedded as pandas
    documents it.  The rows are grouped into calendar months, one bin for
    every month between the earliest and the latest label, each bin is
    labelled with its left edge (the first day of the month), and
    [first] takes, column by column, the first cell of the bin that is
    not NaN.  Rows that are not in chronological order are put in order
    first, by a stable sort on their labels. *)

(** Months counted from year 0, and the [MS] (month start) label of a month. *)
Definition month_index (t : Timestamp) : Z := 12 * year t + (month t - 1).

Definition month_start (i : Z) : Timestamp :=
  mkTimestamp (i / 12) (i mod 12 + 1) 1.

(** The bins of [resample('MS')]: every month from the month of the
    earliest label to the month of the latest one, without gaps. *)
Definition bins (idx : list Timestamp) : list Z :=
  match month_index <$> idx with
  | [] => []
  | m :: ms =>
      let lo := foldr Z.min m ms in
      let hi := foldr Z.max m ms in
      seqZ lo (hi - lo + 1)
  end.

(** The stable sort of the rows of a column on their labels. *)
Fixpoint insert_row (r : Timestamp * float) (s : Series) : Series :=
  match s with
  | [] => [r]
  | r' :: rest =>
      if decide (ts_lt (fst r') (fst r)) then r' :: insert_row r rest
      else r :: s
  end.

Definition sort_index (s : Series) : Series := foldr insert_row [] s.

(** The cells of the rows of month [i], in row order. *)
Definition month_cells (i : Z) (s : Series) : list float :=
  snd <$> List.filter (fun item => month_index (fst item) =? i) s.

(** The cells of a column that fall into month [i], in chronological
    order. *)
Definition in_bin (i : Z) (s : Series) : list float :=
  month_cells i (sort_index s).

(** [.first()] on one group: the first cell that is not NaN, NaN when the
    group has none. *)
Definition first_valid (cells : list float) : float :=
  match List.filter notna cells with
  | v :: _ => v
  | [] => NaN
  end.

Definition resample_column (idx : list Timestamp) (bs : list Z)
    (col : string * list float) : string * list float :=
  (fst col, (fun i => first_valid (in_bin i (zip idx (snd col)))) <$> bs).

(** [data.resample('MS').first()]. *)
Definition resample_first (data : DataFrame) : DataFrame :=
  let bs := bins (index data) in
  mkFrame (month_start <$> bs)
          (resample_column (index data) bs <$> columns data).

(** What [yf.download(...)['Adj Close']] hands back: a frame, or a bare
    series when a single symbol was requested. *)
Inductive Download : Type :=
  | AsSeries (s : Series)
  | AsFrame (df : DataFrame).

Definition to_frame (s : Series) (name : string) : DataFrame :=
  mkFrame (fst <$> s) [(name, snd <$> s)].

Definition load_data (ticker_dict : Dict) (downloaded : Download) : DataFrame :=
  match ticker_dict with
  | [] => empty_frame
  | (_, symbol0) :: _ =>
      let data := match downloaded with
                  | AsSeries s => to_frame s symbol0
                  | AsFrame df => df
                  end in
      let monthly_data := resample_first data in
      monthly_data
  end.

(** ** The loop that builds [combined_df] *)

(** The cell of a series at a label, NaN when the label is absent. *)
Fixpoint at_label (s : Series) (d : Timestamp) : float :=
  match s with
  | [] => NaN
  | (t, v) :: rest => if decide (t = d) then v else at_label rest d
  end.

Definition reindex (s : Series) (idx : list Timestamp) : list float :=
  at_label s <$> idx.

(** Alignment of an assigned series with the frame's index: taken as it
    is when the two indexes agree, re-indexed otherwise. *)
Definition align (idx : list Timestamp) (s : Series) : list float :=
  if decide (fst <$> s = idx) then snd <$> s else reindex s idx.

Fixpoint set_column (cols : list (string * list float)) (name : string)
    (vs : list float) : list (string * list float) :=
  match cols with
  | [] => [(name, vs)]
  | (n, old) :: rest =>
      if decide (n = name) then (name, vs) :: rest
      else (n, old) :: set_column rest name vs
  end.

(** [df[name] = series]. *)
Definition frame_set (df : DataFrame) (name : string) (s : Series) : DataFrame :=
  mkFrame (index df) (set_column (columns df) name (align (index df) s)).

(** [df[name]] for a column the frame is known to carry (the frames read
    here come out of [calculate_portfolio], which builds both columns). *)
Definition getcol (df : DataFrame) (name : string) : Series :=
  default [] (column df name).

Record Agg : Type := mkAgg {
  combined_df : DataFrame;
  warned : list string
}.

Definition agg_init : Agg := mkAgg empty_frame [].

(** The body of the loop once [df] has been computed for [name]. *)
Definition add_result (st : Agg) (name : string) (df : DataFrame) : Agg :=
  if frame_empty df then mkAgg (combined_df st) (warned st ++ [name])
  else
    let base :=
      if frame_empty (combined_df st)
      then frame_set (mkFrame (index df) []) TOTAL_INVESTED (getcol df TOTAL_INVESTED)
      else combined_df st in
    mkAgg (frame_set base name (getcol df PORTFOLIO_VALUE)) (warned st).

(** The aggregation of already computed results, in caller order, from
    a given state of the loop and from its start. *)
Definition aggregate_from (st : Agg) (results : list (string * DataFrame)) : Agg :=
  foldl (fun st item => add_result st (fst item) (snd item)) st results.

Definition aggregate (results : list (string * DataFrame)) : Agg :=
  aggregate_from agg_init results.

(** [for name, symbol in selected_tickers.items(): ...], from a given
    state of the loop and from its start; an exception raised by
    [calculate_portfolio] ends the loop. *)
Fixpoint combine_from (data : DataFrame) (monthly_inv : Qc) (st : Agg)
    (selected_tickers : Dict) : result Agg :=
  match selected_tickers with
  | [] => Returned st
  | (name, symbol) :: rest =>
      df ← calculate_portfolio data symbol monthly_inv;
      combine_from data monthly_inv (add_result st name df) rest
  end.

Definition combine (data : DataFrame) (selected_tickers : Dict)
    (monthly_inv : Qc) : result Agg :=
  combine_from data monthly_inv agg_init selected_tickers.

(** [Series.ffill()]: a NaN cell takes the last cell before it that is
    not NaN; leading NaN cells have nothing to take. *)
Fixpoint ffill_from (last : float) (cells : list float) : list float :=
  match cells with
  | [] => []
  | v :: rest =>
      if isna v then last :: ffill_from last rest
      else v :: ffill_from v rest
  end.

Definition ffill_cells (cells : list float) : list float := ffill_from NaN cells.

Definition ffill (df : DataFrame) : DataFrame :=
  mkFrame (index df) ((fun col => (fst col, ffill_cells (snd col))) <$> columns df).

(** The end of the aggregation: [None] is the error branch
    ("Could not calculate portfolio values."). *)
Definition finish (st : Agg) : option DataFrame :=
  if frame_empty (combined_df st) then None else Some (ffill (combined_df st)).

(** ** The metrics section *)

(** [series.iloc[-1]]. *)
Definition iloc_last (cells : list float) : option float := last cells.

(** [((final_value / final_invested) - 1) * 100] on numpy scalars: the
    integer [final_invested] is converted to [float64], and the division
    does not raise. *)
Definition return_pct (final_value final_invested : float) : float :=
  fmul (fsub (fdiv final_value (as_float64 final_invested)) (Fin 1%Qc))
       (Fin (of_int 100)).

(** [f"${final_invested:,.0f}"] converts an integer to a Python float to
    format it, and raises for one beyond the range of floats. *)
Definition formats (x : float) : bool := is_finite (as_float64 x) || negb (is_finite x).

Record Metric : Type := mkMetric {
  metric_name : string;
  metric_value : float;
  metric_return : float
}.

Definition metric_of (combined : DataFrame) (final_invested : float)
    (name : string) : option Metric :=
  final_value ← get_column (columns combined) name ≫= iloc_last;
  Some (mkMetric name final_value (return_pct final_value final_invested)).

Definition valid_tickers (selected_tickers : Dict) (combined : DataFrame)
  : list string :=
  List.filter (fun name => bool_decide (is_Some (get_column (columns combined) name)))
              (fst <$> selected_tickers).

(** The final invested amount and one metric per valid ticker; [None]
    when a lookup or the formatting of the amount raises. *)
Definition metrics (selected_tickers : Dict) (combined : DataFrame)
  : option (float * list Metric) :=
  final_invested ← get_column (columns combined) TOTAL_INVESTED ≫= iloc_last;
  if formats final_invested then
    ms ← mapM (metric_of combined final_invested)
              (valid_tickers selected_tickers combined);
    Some (final_invested, ms)
  else None.

(** What the main block puts on the page. *)
Inductive Page : Type :=
  | SelectAsset                        (* "Please select at least one asset." *)
  | NoData                             (* "No data found for the selected range/tickers." *)
  | NoValues                           (* "Could not calculate portfolio values." *)
  | Failed                             (* "An error occurred: ..." *)
  | Shown (combined : DataFrame) (final_invested : float) (ms : list Metric).
                                       (* the metrics *)

(** The main block from the loaded [data] up to the end of the metrics
    section; the chart and the table that follow only display
    [combined_df].  Whatever is raised inside the [try] block up to
    there, by [calculate_portfolio] or in the metrics section, ends in
    the [except] clause, which reports it. *)
Definition report (data : DataFrame) (selected_tickers : Dict)
    (monthly_inv : Qc) : Page :=
  match selected_tickers with
  | [] => SelectAsset
  | _ =>
      if frame_empty data then NoData
      else
        match combine data selected_tickers monthly_inv with
        | Raised _ => Failed
        | Returned st =>
            match finish st with
            | None => NoValues
            | Some combined =>
                match metrics selected_tickers combined with
                | Some (final_invested, ms) => Shown combined final_invested ms
                | None => Failed
                end
            end
        end
  end.

(** ** Vocabulary of the statements *)

(** A price one can trade at: finite and strictly positive. *)
Definition positive_price (x : float) : bool :=
  match x with
  | Fin q => match Qc_sign q with Gt => true | _ => false end
  | _ => false
  end.

(** A contribution that Python can convert to a float. *)
Definition in_float_range (monthly_inv : Qc) : bool :=
  is_finite (round64 monthly_inv).

(** No price of the series is zero. *)
Definition no_zero_price (prices : Series) : bool :=
  forallb (fun item => negb (is_zero (snd item))) prices.

(** Whether a call returned, what it returned, and the frame of a call
    that returned; the empty frame stands in for a call that raised. *)
Definition returned {A : Type} (r : result A) : bool :=
  match r with
  | Returned _ => true
  | Raised _ => false
  end.


Definition outcome {A : Type} (r : result A) : option A :=
  match r with
  | Returned a => Some a
  | Raised _ => None
  end.

Definition frame_of (r : result DataFrame) : DataFrame :=
  match r with
  | Returned df => df
  | Raised _ => empty_frame
  end.

(** A rational that binary64 represents, so that rounding leaves it as
    it is. *)
Definition exact64 (q : Qc) : bool :=
  match round64 q with
  | Fin r => Qeq_bool r q
  | _ => false
  end.

(** The shares owned after purchases at positive prices: a binary64
    number or the positive infinity. *)
Definition shares_ok (s : float) : Prop :=
  s = PInf \/ exists x, s = Fin x /\ round64 x = Fin x.

(** The observations of a series that carry a strictly positive price. *)
Definition positive_points (series : Series) : Series :=
  List.filter (fun item => positive_price (snd item)) series.

(** The last cell of a named column. *)
Definition final_cell (df : DataFrame) (name : string) : option float :=
  get_column (columns df) name ≫= iloc_last.

(** Boolean equality of cells, which computes on the fractions alone. *)
Definition float_eqb (x y : float) : bool :=
  match x, y with
  | Fin a, Fin b => Qeq_bool a b
  | PInf, PInf | NInf, NInf | NaN, NaN => true
  | _, _ => false
  end.

Fixpoint cells_eqb (xs ys : list float) : bool :=
  match xs, ys with
  | [], [] => true
  | x :: xs', y :: ys' => float_eqb x y && cells_eqb xs' ys'
  | _, _ => false
  end.
(** The entries that the de-duplication keeps, read off the loop: an
    entry is kept when its symbol has not been seen before it. *)
Fixpoint keep_first (seen : gset string) (l : Dict) : Dict :=
  match l with
  | [] => []
  | (name, symbol) :: rest =>
      if decide (symbol ∈ seen) then keep_first seen rest
      else (name, symbol) :: keep_first ({[symbol]} ∪ seen) rest
  end.

(** The first result, in caller order, that is not empty. *)
Definition first_nonempty (results : list (string * DataFrame))
  : option (string * DataFrame) :=
  List.find (fun r => negb (frame_empty (snd r))) results.

(** A frame whose columns all have one cell per index label. *)
Definition aligned_frame (df : DataFrame) : Prop :=
  Forall (fun col => length (snd col) = length (index df)) (columns df).

(** What a page shows: the final invested amount, and the return
    percentages in display order. *)
Definition shown_invested (page : Page) : option float :=
  match page with
  | Shown _ final_invested _ => Some final_invested
  | _ => None
  end.

Definition shown_returns (page : Page) : option (list float) :=
  match page with
  | Shown _ _ ms => Some (metric_return <$> ms)
  | _ => None
  end.

Definition shown_frame (page : Page) : DataFrame :=
  match page with
  | Shown combined _ _ => combined
  | _ => empty_frame
  end.

Definition shown_metrics (page : Page) : list Metric :=
  match page with
  | Shown _ _ ms => ms
  | _ => []
  end.

(** ** Sample inputs *)

Definition jan1 : Timestamp := mkTimestamp 2020 1 1.
Definition jan15 : Timestamp := mkTimestamp 2020 1 15.
Definition jan20 : Timestamp := mkTimestamp 2020 1 20.
Definition feb1 : Timestamp := mkTimestamp 2020 2 1.
Definition mar1 : Timestamp := mkTimestamp 2020 3 1.
Definition mar2 : Timestamp := mkTimestamp 2020 3 2.

(** Rows out of chronological order. *)
Definition data_unsorted : DataFrame :=
  mkFrame [jan20; jan15] [("A"%string, [Fin (of_int 4); Fin (of_int 3)])].

(** Raw observations: one missing price, a month without observations. *)
Definition daily_prices : list float := [NaN; Fin (of_int 3); Fin (of_int 4)].

Definition data_daily : DataFrame :=
  mkFrame [jan15; jan20; mar2] [("A"%string, daily_prices)].

(** Monthly series: a single negative price; a missing month; a
    positive price followed by a negative one; a constant price. *)
Definition series_negative : Series := [(jan1, Fin (of_int (-5)))].

Definition series_with_gap : Series :=
  [(jan1, Fin (of_int 10)); (feb1, NaN); (mar1, Fin (of_int 20))].

Definition series_mixed : Series :=
  [(jan1, Fin (of_int 10)); (feb1, Fin (of_int (-5)))].

Definition series_flat : Series :=
  [(jan1, Fin (of_int 8)); (feb1, Fin (of_int 8)); (mar1, Fin (of_int 8))].

(** A missing month followed by a negative price; a single price of 11;
    a price of zero in the second month. *)
Definition series_gap_negative : Series :=
  [(jan1, Fin (of_int 10)); (feb1, NaN); (mar1, Fin (of_int (-5)))].


Definition series_zero : Series :=
  [(jan1, Fin (of_int 10)); (feb1, Fin 0%Qc); (mar1, Fin (of_int 20))].

(** The scenario of the specification: 100 a month at prices 10, 20, 10. *)
Definition combined_scenario : DataFrame :=
  mkFrame [jan1; feb1; mar1]
          [(TOTAL_INVESTED, [Fin (of_int 100); Fin (of_int 200); Fin (of_int 300)]);
           ("A"%string, [Fin (of_int 100); Fin (of_int 300); Fin (of_int 250)])].

Definition metric_scenario : Metric :=
  mkMetric "A" (Fin (of_int 250)) (return_pct (Fin (of_int 250)) (Fin (of_int 300))).

Definition data_apple : DataFrame :=
  mkFrame [jan1; feb1] [("AAPL"%string, [Fin (of_int 10); Fin (of_int 20)])].

Definition tickers_apple : Dict := [("Apple (AAPL)", "AAPL")]%string.

(** Instrument A starts a month after instrument B. *)
Definition data_late_start : DataFrame :=
  mkFrame [jan1; feb1]
          [("A"%string, [NaN; Fin (of_int 10)]);
           ("B"%string, [Fin (of_int 5); Fin (of_int 5)])].

Definition tickers_ab : Dict := [("a", "A"); ("b", "B")]%string.

Definition results_late_start : list (string * DataFrame) :=
  [("none"%string, frame_of (calculate_portfolio data_late_start "C" (of_int 100)));
   ("a"%string, frame_of (calculate_portfolio data_late_start "A" (of_int 100)));
   ("b"%string, frame_of (calculate_portfolio data_late_start "B" (of_int 100)))].

(** Instrument B has a single price, in February. *)
Definition data_sparse : DataFrame :=
  mkFrame [jan1; feb1; mar1]
          [("A"%string, [Fin (of_int 10); Fin (of_int 20); Fin (of_int 10)]);
           ("B"%string, [NaN; Fin (of_int 5); NaN])].

Definition results_sparse : list (string * DataFrame) :=
  [("a"%string, frame_of (calculate_portfolio data_sparse "A" (of_int 100)));
   ("b"%string, frame_of (calculate_portfolio data_sparse "B" (of_int 100)))].

(** Instrument Z has a price of zero in February. *)
Definition data_zero : DataFrame :=
  mkFrame [jan1; feb1; mar1]
          [("A"%string, [Fin (of_int 10); Fin (of_int 20); Fin (of_int 10)]);
           ("Z"%string, snd <$> series_zero)].

Definition tickers_az : Dict := [("a", "A"); ("z", "Z")]%string.

(** Two display names for the same symbol. *)
Definition tickers_repeated : Dict :=
  [("S&P 500 (^GSPC)", "^GSPC"); ("SPY (SPY)", "SPY");
   ("S&P 500 index (^GSPC)", "^GSPC")]%string.

(** ** Vocabulary of the further statements *)

(** A finite price other than zero. *)
Definition nonzero_finite (x : float) : bool :=
  match x with
  | Fin q => match Qc_sign q with Eq => false | _ => true end
  | _ => false
  end.

(** ** The selection of tickers *)

Definition PREDEFINED_TICKERS : Dict :=
  [ ("S&P 500 (^GSPC)", "^GSPC");
    ("Nasdaq (^IXIC)", "^IXIC");
    ("SCHD (SCHD)", "SCHD");
    ("Apple (AAPL)", "AAPL");
    ("Google (GOOGL)", "GOOGL");
    ("Microsoft (MSFT)", "MSFT");
    ("Amazon (AMZN)", "AMZN");
    ("Tesla (TSLA)", "TSLA");
    ("Nvidia (NVDA)", "NVDA");
    ("Meta (META)", "META");
    ("Berkshire Hathaway (BRK-B)", "BRK-B");
    ("TSMC (TSM)", "TSM");
    ("Samsung Electronics (005930.KS)", "005930.KS");
    ("SK Hynix (000660.KS)", "000660.KS");
    ("Naver (035420.KS)", "035420.KS");
    ("Kakao (035720.KS)", "035720.KS");
    ("Hyundai Motor (005380.KS)", "005380.KS");
    ("Gold (GC=F)", "GC=F");
    ("Bitcoin (BTC-USD)", "BTC-USD");
    ("Ethereum (ETH-USD)", "ETH-USD");
    ("QQQ (QQQ)", "QQQ");
    ("SPY (SPY)", "SPY");
    ("TQQQ (TQQQ)", "TQQQ");
    ("SOXL (SOXL)", "SOXL") ]%string.

(** [d[k]]: [None] stands for the [KeyError]. *)
Fixpoint dict_get (d : Dict) (k : string) : option string :=
  match d with
  | [] => None
  | (k', v) :: rest => if decide (k' = k) then Some v else dict_get rest k
  end.

(** [{name: PREDEFINED_TICKERS[name] for name in selected_names}]. *)
Definition select_predefined (selected_names : list string) : option Dict :=
  foldl (fun acc name =>
           d ← acc;
           symbol ← dict_get PREDEFINED_TICKERS name;
           Some (dict_set d name symbol))
        (Some []) selected_names.

(** [for name, symbol in list(custom_tickers.items()): ...
    selected_tickers[name] = symbol], in a run of the script where no
    remove button is pressed (a pressed button restarts the script). *)
Definition add_custom (selected_tickers custom_tickers : Dict) : Dict :=
  foldl (fun d item => dict_set d (fst item) (snd item))
        selected_tickers custom_tickers.

(** The mapping the main block works with: the predefined selection,
    the custom tickers added to it, de-duplicated. *)
Definition selected_tickers_of (selected_names : list string)
    (custom_tickers : Dict) : option Dict :=
  d ← select_predefined selected_names;
  Some (deduplicate (add_custom d custom_tickers)).

(** * Properties *)

(** ** Rounding to binary64 *)

Section rounding.
Local Open Scope Q_scope.

Lemma pow2_pos e : 0 < pow2 e.
Proof. apply Qpower_0_lt. reflexivity. Qed.

Lemma pow2_add a b : pow2 (a + b) == pow2 a * pow2 b.
Proof. apply Qpower_plus. discriminate. Qed.

Lemma pow2_succ a : pow2 (a + 1) == 2 * pow2 a.
Proof. rewrite pow2_add. unfold pow2 at 2. simpl. ring. Qed.

Lemma pow2_le a b : (a <= b)%Z -> pow2 a <= pow2 b.
Proof. intros H. apply Qpower_le_compat_l; [exact H|]. discriminate. Qed.

Lemma pow2_Z a : (0 <= a)%Z -> inject_Z (2 ^ a) == pow2 a.
Proof. intros H. unfold pow2. rewrite Zpower_Qpower by exact H. reflexivity. Qed.

Lemma Q_as_div (q : Q) : q * inject_Z (Zpos (Qden q)) == inject_Z (Qnum q).
Proof.
  destruct q as [n d]. unfold Qeq, Qmult, inject_Z. simpl. lia.
Qed.

Lemma log2_bounds (n : Z) :
  (0 < n)%Z ->
  pow2 (Z.log2 n) <= inject_Z n /\ inject_Z n < pow2 (Z.log2 n + 1).
Proof.
  intros Hn. destruct (Z.log2_spec n Hn) as [H1 H2].
  pose proof (Z.log2_nonneg n) as H0.
  split.
  - rewrite <- pow2_Z by exact H0. rewrite <- Zle_Qle. exact H1.
  - rewrite <- pow2_Z by lia. rewrite <- Zlt_Qlt. replace (Z.log2 n + 1)%Z with (Z.succ (Z.log2 n)) by lia. exact H2.
Qed.

Lemma ilog2_spec (q : Q) :
  0 < q -> pow2 (ilog2 q) <= q /\ q < pow2 (ilog2 q + 1).
Proof.
  intros Hq. unfold ilog2.
  set (n := Qnum q). set (d := Zpos (Qden q)).
  set (a := Z.log2 n). set (b := Z.log2 d). set (k := (a - b)%Z).
  assert (Hn : (0 < n)%Z).
  { unfold n. destruct q as [qn qd]. unfold Qlt in Hq. simpl in *. lia. }
  assert (Hd : (0 < d)%Z) by (unfold d; lia).
  destruct (log2_bounds n Hn) as [Hn1 Hn2]. fold a in Hn1, Hn2.
  destruct (log2_bounds d Hd) as [Hd1 Hd2]. fold b in Hd1, Hd2.
  pose proof (Q_as_div q) as Hdiv. fold n d in Hdiv.
  pose proof (pow2_pos b) as Hb. pose proof (pow2_pos (k + 1)) as Hk1.
  pose proof (pow2_pos (k - 1)) as Hk0.
  assert (HD : 0 < inject_Z d) by lra.
  assert (E1 : pow2 (k + 1) * pow2 b == pow2 (a + 1)).
  { rewrite <- pow2_add. unfold k. apply Qeq_refl || idtac.
    replace (a - b + 1 + b)%Z with (a + 1)%Z by lia. reflexivity. }
  assert (E2 : pow2 (k - 1) * pow2 (b + 1) == pow2 a).
  { rewrite <- pow2_add. replace (k - 1 + (b + 1))%Z with a by (unfold k; lia).
    reflexivity. }
  assert (Hup : q < pow2 (k + 1)).
  { apply (Qmult_lt_r _ _ (inject_Z d)); [exact HD|]. rewrite Hdiv.
    apply Qlt_le_trans with (pow2 (k + 1) * pow2 b); [lra|].
    apply Qmult_le_l; [exact Hk1 | exact Hd1]. }
  assert (Hlo : pow2 (k - 1) <= q).
  { apply (Qmult_le_r _ _ (inject_Z d)); [exact HD|]. rewrite Hdiv.
    apply Qle_trans with (pow2 (k - 1) * pow2 (b + 1)); [|lra].
    apply Qmult_le_l; [exact Hk0 | lra]. }
  destruct (Qle_bool (pow2 k) q) eqn:E.
  - apply Qle_bool_iff in E. split; assumption.
  - assert (Hlt : q < pow2 k).
    { apply Qnot_le_lt. intros H. apply Qle_bool_iff in H. congruence. }
    split; [exact Hlo|]. replace (k - 1 + 1)%Z with k by lia. exact Hlt.
Qed.

Lemma ilog2_unique (q : Q) (k : Z) :
  pow2 k <= q -> q < pow2 (k + 1) -> ilog2 q = k.
Proof.
  intros H1 H2.
  assert (Hq : 0 < q) by (pose proof (pow2_pos k); lra).
  destruct (ilog2_spec q Hq) as [H3 H4].
  destruct (Z.lt_trichotomy (ilog2 q) k) as [Hlt|[Heq|Hgt]]; [|exact Heq|].
  - assert (pow2 (ilog2 q + 1) <= pow2 k) by (apply pow2_le; lia). lra.
  - assert (pow2 (k + 1) <= pow2 (ilog2 q)) by (apply pow2_le; lia). lra.
Qed.

Lemma ilog2_mono (x y : Q) : 0 < x -> x <= y -> (ilog2 x <= ilog2 y)%Z.
Proof.
  intros Hx Hxy. assert (Hy : 0 < y) by lra.
  destruct (ilog2_spec x Hx) as [H1 H2]. destruct (ilog2_spec y Hy) as [H3 H4].
  destruct (Z_le_gt_dec (ilog2 x) (ilog2 y)) as [H|H]; [exact H|].
  assert (pow2 (ilog2 y + 1) <= pow2 (ilog2 x)) by (apply pow2_le; lia). lra.
Qed.

Lemma ilog2_eq (x y : Q) : 0 < x -> x == y -> ilog2 x = ilog2 y.
Proof.
  intros Hx Hxy. destruct (ilog2_spec x Hx) as [H1 H2].
  symmetry. apply ilog2_unique; lra.
Qed.

Lemma rhe_cases (x : Q) : rhe x = Qfloor x \/ rhe x = (Qfloor x + 1)%Z.
Proof.
  unfold rhe. destruct (Qcompare _ _); [destruct (Z.even _)|..]; auto.
Qed.

Lemma rhe_Z (n : Z) : rhe (inject_Z n) = n.
Proof.
  unfold rhe. rewrite Qfloor_Z.
  assert (H : Qcompare (inject_Z n - inject_Z n) (1 # 2) = Lt).
  { rewrite <- Qlt_alt. lra. }
  rewrite H. reflexivity.
Qed.

Lemma rhe_comp (x y : Q) : x == y -> rhe x = rhe y.
Proof.
  intros H. unfold rhe. rewrite (Qfloor_comp _ _ H).
  assert (E : Qcompare (x - inject_Z (Qfloor y)) (1 # 2)
            = Qcompare (y - inject_Z (Qfloor y)) (1 # 2)).
  { apply Qcompare_comp; [rewrite H|]; reflexivity. }
  rewrite E. reflexivity.
Qed.

Lemma rhe_mono (x y : Q) : x <= y -> (rhe x <= rhe y)%Z.
Proof.
  intros H. pose proof (Qfloor_resp_le _ _ H) as Hf.
  destruct (Z.eq_dec (Qfloor x) (Qfloor y)) as [E|E].
  - unfold rhe. rewrite E.
    destruct (Qcompare (x - inject_Z (Qfloor y)) (1 # 2)) eqn:Ex;
      destruct (Qcompare (y - inject_Z (Qfloor y)) (1 # 2)) eqn:Ey;
      try (destruct (Z.even (Qfloor y))); try lia;
      try rewrite <- Qeq_alt in *; try rewrite <- Qlt_alt in *;
      try rewrite <- Qgt_alt in *; lra.
  - destruct (rhe_cases x) as [-> | ->], (rhe_cases y) as [-> | ->]; lia.
Qed.

Lemma rhe_nonneg (x : Q) : 0 <= x -> (0 <= rhe x)%Z.
Proof. intros H. rewrite <- (rhe_Z 0). apply rhe_mono. exact H. Qed.

Lemma div_pow2_le x y e : x <= y -> x / pow2 e <= y / pow2 e.
Proof.
  intros H. pose proof (pow2_pos e) as He.
  unfold Qdiv. apply Qmult_le_compat_r; [exact H|].
  apply Qlt_le_weak, Qinv_lt_0_compat, He.
Qed.

Lemma div_pow2 a e : pow2 a / pow2 e == pow2 (a - e).
Proof.
  pose proof (pow2_pos e) as He.
  assert (E : pow2 a == pow2 (a - e) * pow2 e).
  { rewrite <- pow2_add. replace (a - e + e)%Z with a by lia. reflexivity. }
  rewrite E. field. lra.
Qed.

Lemma mant_lower q :
  0 < q -> (ilog2 q - 52 >= -1074)%Z -> (2 ^ 52 <= mant q)%Z.
Proof.
  intros Hq He. unfold mant.
  assert (Ee : expo q = (ilog2 q - 52)%Z) by (unfold expo; lia).
  destruct (ilog2_spec q Hq) as [H1 _].
  rewrite <- (rhe_Z (2 ^ 52)). apply rhe_mono.
  rewrite (pow2_Z 52) by lia.
  assert (E : pow2 52 == pow2 (ilog2 q) / pow2 (expo q)).
  { rewrite div_pow2, Ee. replace (ilog2 q - (ilog2 q - 52))%Z with 52%Z by lia.
    reflexivity. }
  rewrite E. apply div_pow2_le, H1.
Qed.

Lemma mant_upper q :
  0 < q -> (0 <= ilog2 q + 1 - expo q)%Z ->
  (mant q <= 2 ^ (ilog2 q + 1 - expo q))%Z.
Proof.
  intros Hq Hle. unfold mant.
  destruct (ilog2_spec q Hq) as [_ H2].
  rewrite <- (rhe_Z (2 ^ _)). apply rhe_mono.
  rewrite pow2_Z by exact Hle. rewrite <- div_pow2.
  apply div_pow2_le. lra.
Qed.

Lemma mant_tiny q :
  0 < q -> (ilog2 q + 1 - expo q < 0)%Z -> (mant q <= 0)%Z.
Proof.
  intros Hq Hlt. unfold mant.
  destruct (ilog2_spec q Hq) as [_ H2].
  assert (E : rhe (1 # 2) = 0%Z) by reflexivity.
  rewrite <- E. apply rhe_mono.
  apply Qle_trans with (pow2 (ilog2 q + 1) / pow2 (expo q)).
  - apply div_pow2_le. lra.
  - rewrite div_pow2. change (1 # 2) with (pow2 (-1)). apply pow2_le. lia.
Qed.

Lemma mant_nonneg q : 0 <= q -> (0 <= mant q)%Z.
Proof.
  intros Hq. apply rhe_nonneg. pose proof (pow2_pos (expo q)).
  unfold Qdiv. apply Qmult_le_0_compat; [exact Hq|].
  apply Qlt_le_weak, Qinv_lt_0_compat. assumption.
Qed.

Lemma rval_nonneg q : 0 <= q -> 0 <= rval q.
Proof.
  intros Hq. unfold rval. apply Qmult_le_0_compat.
  - change 0 with (inject_Z 0). rewrite <- Zle_Qle. apply mant_nonneg, Hq.
  - apply Qlt_le_weak, pow2_pos.
Qed.

Lemma rval_upper q : 0 < q -> rval q <= pow2 (ilog2 q + 1).
Proof.
  intros Hq. unfold rval.
  destruct (Z_lt_le_dec (ilog2 q + 1 - expo q) 0) as [Hlt|Hle].
  { pose proof (mant_tiny q Hq Hlt) as Hm.
    pose proof (pow2_pos (expo q)) as He. pose proof (pow2_pos (ilog2 q + 1)).
    rewrite Zle_Qle in Hm. change (inject_Z 0) with 0 in Hm.
    assert (inject_Z (mant q) * pow2 (expo q) <= 0 * pow2 (expo q)).
    { apply Qmult_le_compat_r; lra. }
    lra. }
  assert (E : pow2 (ilog2 q + 1) == pow2 (ilog2 q + 1 - expo q) * pow2 (expo q)).
  { rewrite <- pow2_add.
    replace (ilog2 q + 1 - expo q + expo q)%Z with (ilog2 q + 1)%Z by lia.
    reflexivity. }
  rewrite E. apply Qmult_le_compat_r; [|apply Qlt_le_weak, pow2_pos].
  rewrite <- pow2_Z by exact Hle. rewrite <- Zle_Qle. apply mant_upper; assumption.
Qed.

Lemma rval_lower q :
  0 < q -> (ilog2 q - 52 >= -1074)%Z -> pow2 (ilog2 q) <= rval q.
Proof.
  intros Hq He. unfold rval.
  assert (Ee : expo q = (ilog2 q - 52)%Z) by (unfold expo; lia).
  assert (E : pow2 (ilog2 q) == pow2 52 * pow2 (expo q)).
  { rewrite <- pow2_add, Ee. replace (52 + (ilog2 q - 52))%Z with (ilog2 q) by lia.
    reflexivity. }
  rewrite E. apply Qmult_le_compat_r; [|apply Qlt_le_weak, pow2_pos].
  rewrite <- pow2_Z by lia. rewrite <- Zle_Qle. apply mant_lower; assumption.
Qed.

Lemma rval_mono x y : 0 < x -> x <= y -> rval x <= rval y.
Proof.
  intros Hx H. assert (Hy : 0 < y) by lra.
  pose proof (ilog2_mono x y Hx H) as Hl.
  destruct (Z.eq_dec (expo x) (expo y)) as [E|E].
  - unfold rval, mant. rewrite E.
    apply Qmult_le_compat_r; [|apply Qlt_le_weak, pow2_pos].
    rewrite <- Zle_Qle. apply rhe_mono, div_pow2_le, H.
  - assert (Hlt : (ilog2 x < ilog2 y)%Z) by (unfold expo in E; lia).
    assert (Hey : (ilog2 y - 52 >= -1074)%Z) by (unfold expo in E; lia).
    apply Qle_trans with (pow2 (ilog2 x + 1)); [apply rval_upper, Hx|].
    apply Qle_trans with (pow2 (ilog2 y)); [apply pow2_le; lia|].
    apply rval_lower; assumption.
Qed.

Lemma rval_comp x y : 0 < x -> x == y -> rval x == rval y.
Proof.
  intros Hx H. unfold rval, mant, expo. rewrite (ilog2_eq x y Hx H).
  assert (E : x / pow2 (Z.max (ilog2 y - 52) (-1074))
              == y / pow2 (Z.max (ilog2 y - 52) (-1074))) by (rewrite H; reflexivity).
  rewrite (rhe_comp _ _ E). reflexivity.
Qed.

Lemma ilog2_scaled (n e : Z) :
  (0 < n)%Z -> ilog2 (inject_Z n * pow2 e) = (Z.log2 n + e)%Z.
Proof.
  intros Hn. destruct (log2_bounds n Hn) as [H1 H2].
  pose proof (pow2_pos e) as He.
  apply ilog2_unique.
  - rewrite pow2_add. apply Qmult_le_compat_r; lra.
  - replace (Z.log2 n + e + 1)%Z with (Z.log2 n + 1 + e)%Z by lia.
    rewrite pow2_add. apply Qmult_lt_compat_r; lra.
Qed.

Lemma rval_repr (n e : Z) :
  (0 < n <= 2 ^ 53)%Z -> (-1074 <= e)%Z -> (2 ^ 52 <= n \/ e = -1074)%Z ->
  rval (inject_Z n * pow2 e) == inject_Z n * pow2 e.
Proof.
  intros [Hn0 Hn1] He Hcase.
  pose proof (pow2_pos e) as Hpe.
  unfold rval, mant, expo. rewrite (ilog2_scaled n e Hn0).
  destruct (Z.eq_dec n (2 ^ 53)%Z) as [->|Hne].
  - change (Z.log2 (2 ^ 53)) with 53%Z.
    replace (Z.max (53 + e - 52) (-1074)) with (e + 1)%Z by lia.
    assert (E : inject_Z (2 ^ 53) * pow2 e / pow2 (e + 1) == inject_Z (2 ^ 52)).
    { rewrite pow2_succ. change (inject_Z (2 ^ 53)) with (2 * inject_Z (2 ^ 52)).
      field. lra. }
    rewrite (rhe_comp _ _ E), rhe_Z, pow2_succ.
    change (inject_Z (2 ^ 53)) with (2 * inject_Z (2 ^ 52)). ring.
  - assert (Hl : (Z.log2 n < 53)%Z) by (apply Z.log2_lt_pow2; lia).
    assert (Hl' : (2 ^ 52 <= n -> 52 <= Z.log2 n)%Z).
    { intros H. apply Z.log2_le_pow2; lia. }
    pose proof (Z.log2_nonneg n).
    replace (Z.max (Z.log2 n + e - 52) (-1074)) with e by lia.
    assert (E : inject_Z n * pow2 e / pow2 e == inject_Z n) by (field; lra).
    rewrite (rhe_comp _ _ E), rhe_Z. reflexivity.
Qed.

Lemma mant_le_53 q : 0 < q -> (mant q <= 2 ^ 53)%Z.
Proof.
  intros Hq.
  destruct (Z_lt_le_dec (ilog2 q + 1 - expo q) 0) as [Hlt|Hle].
  - pose proof (mant_tiny q Hq Hlt). lia.
  - pose proof (mant_upper q Hq Hle) as H.
    assert ((2 ^ (ilog2 q + 1 - expo q) <= 2 ^ 53)%Z).
    { apply Z.pow_le_mono_r; [lia|]. unfold expo. lia. }
    lia.
Qed.

Lemma rval_idem q : 0 < q -> 0 < rval q -> rval (rval q) == rval q.
Proof.
  intros Hq Hv.
  assert (Hm : (0 < mant q)%Z).
  { destruct (Z_lt_le_dec 0 (mant q)) as [H|H]; [exact H|].
    exfalso. unfold rval in Hv. pose proof (pow2_pos (expo q)) as He.
    rewrite Zle_Qle in H. change (inject_Z 0) with 0 in H.
    assert (inject_Z (mant q) * pow2 (expo q) <= 0 * pow2 (expo q)).
    { apply Qmult_le_compat_r; lra. }
    lra. }
  change (rval (inject_Z (mant q) * pow2 (expo q))
          == inject_Z (mant q) * pow2 (expo q)).
  apply rval_repr.
  - split; [exact Hm | apply mant_le_53, Hq].
  - unfold expo. lia.
  - destruct (Z_le_gt_dec (-1074) (ilog2 q - 52)) as [H|H].
    + left. apply mant_lower; [exact Hq | lia].
    + right. unfold expo. lia.
Qed.
End rounding.

(** ** Numbers *)

Section numbers.
Local Open Scope Qc_scope.

Lemma float_eqb_eq x y : float_eqb x y = true -> x = y.
Proof.
  destruct x, y; simpl; try done.
  intros H. f_equal. apply Qc_is_canon. by apply Qeq_bool_eq.
Qed.

Lemma float_eqb_refl x : float_eqb x x = true.
Proof. destruct x; simpl; try done. by apply Qeq_bool_iff. Qed.

Lemma float_eqb_neq x y : float_eqb x y = false -> x <> y.
Proof. intros H ->. by rewrite float_eqb_refl in H. Qed.

Lemma final_eqb_eq (o : option float) y :
  from_option (fun x => float_eqb x y) false o = true -> o = Some y.
Proof. destruct o as [x|]; simpl; [|done]. intros H. f_equal. by apply float_eqb_eq. Qed.

Lemma final_eqb_neq (o : option float) y :
  from_option (fun x => float_eqb x y) false o = false -> o <> Some y.
Proof.
  destruct o as [x|]; simpl; [|done].
  intros H E. apply (inj Some) in E. by apply float_eqb_neq in H.
Qed.

Lemma cells_eqb_eq xs ys : cells_eqb xs ys = true -> xs = ys.
Proof.
  revert ys. induction xs as [|x xs IH]; intros [|y ys]; simpl; try done.
  intros [Hx Hxs]%andb_prop. f_equal; [by apply float_eqb_eq | by apply IH].
Qed.

Lemma Qc_sign_pos q : Qc_sign q = Gt <-> 0 < q.
Proof. unfold Qc_sign. symmetry. apply (Qcgt_alt q 0). Qed.

Lemma Qc_sign_zero q : Qc_sign q = Eq <-> q = 0.
Proof. unfold Qc_sign. symmetry. apply Qceq_alt. Qed.

Lemma Qc_sign_neg q : Qc_sign q = Lt <-> q < 0.
Proof. unfold Qc_sign. symmetry. apply Qclt_alt. Qed.

Lemma positive_price_spec x :
  positive_price x = true <-> exists q, x = Fin q /\ 0 < q.
Proof.
  split.
  - destruct x as [q| | |]; simpl; try done.
    destruct (Qc_sign q) eqn:E; try done.
    intros _. exists q. split; [done | by apply Qc_sign_pos].
  - intros (q & -> & Hq). simpl. apply Qc_sign_pos in Hq. by rewrite Hq.
Qed.

Lemma of_int_add a b : of_int (a + b) = of_int a + of_int b.
Proof.
  unfold of_int, Qcplus. apply Q2Qc_eq_iff. simpl.
  rewrite !Qred_correct. by rewrite inject_Z_plus.
Qed.

Lemma of_int_0 : of_int 0 = 0.
Proof. by apply Qc_is_canon. Qed.

Lemma of_int_1 : of_int 1 = 1.
Proof. by apply Qc_is_canon. Qed.

Lemma of_int_succ (n : nat) : of_int (Z.of_nat (S n)) = of_int (Z.of_nat n) + 1.
Proof. rewrite Nat2Z.inj_succ. unfold Z.succ. by rewrite of_int_add. Qed.

Lemma fdiv_finite a b : b <> 0 -> fdiv (Fin a) (Fin b) = round64 (a / b).
Proof.
  intros Hb. simpl. destruct (Qc_sign b) eqn:E; try done.
  by apply Qc_sign_zero in E.
Qed.

Lemma Qcdiv_nonneg a b : 0 <= a -> 0 < b -> 0 <= a / b.
Proof.
  intros Ha Hb. apply Qcmult_nonneg_nonneg; [done|].
  apply Qclt_le_weak. by apply Qcinv_pos.
Qed.

(** *** The order of cells *)

Lemma fle_refl x : x <> NaN -> fle x x.
Proof. destruct x; simpl; try done; intros _; apply Qcle_refl. Qed.

Lemma fle_trans x y z : fle x y -> fle y z -> fle x z.
Proof.
  destruct x, y, z; simpl; try done. apply Qcle_trans.
Qed.

Lemma fle_fneg x y : fle x y -> fle (fneg y) (fneg x).
Proof.
  destruct x, y; simpl; try done. intros H. by apply Qcopp_le_compat.
Qed.

(** *** [round64] is monotone and leaves binary64 numbers as they are *)

Lemma Q2Qc_le (a b : Q) : (a <= b)%Q -> Q2Qc a <= Q2Qc b.
Proof. intros H. unfold Qcle. simpl. by rewrite !Qred_correct. Qed.

Lemma Qle_bool_comp (c a b : Q) : (a == b)%Q -> Qle_bool c a = Qle_bool c b.
Proof.
  intros H. destruct (Qle_bool c a) eqn:Ea, (Qle_bool c b) eqn:Eb; try done.
  - apply Qle_bool_iff in Ea. rewrite H in Ea. apply Qle_bool_iff in Ea. congruence.
  - apply Qle_bool_iff in Eb. rewrite <- H in Eb. apply Qle_bool_iff in Eb. congruence.
Qed.

Lemma round_pos_of_eq (a b : Q) : (rval a == rval b)%Q -> round_pos a = round_pos b.
Proof.
  intros H. unfold round_pos. rewrite (Qle_bool_comp _ _ _ H).
  destruct (Qle_bool _ _); [done|]. f_equal. by apply Q2Qc_eq_iff.
Qed.

Lemma round_pos_comp (x y : Q) : (0 < x)%Q -> (x == y)%Q -> round_pos x = round_pos y.
Proof. intros Hx H. apply round_pos_of_eq. by apply rval_comp. Qed.

Lemma round_pos_mono (x y : Q) :
  (0 < x)%Q -> (x <= y)%Q -> fle (round_pos x) (round_pos y).
Proof.
  intros Hx H. pose proof (rval_mono x y Hx H) as Hm. unfold round_pos.
  destruct (Qle_bool (pow2 1024) (rval x)) eqn:Ex,
           (Qle_bool (pow2 1024) (rval y)) eqn:Ey; simpl; try done.
  - apply Qle_bool_iff in Ex.
    assert (Hy : (pow2 1024 <= rval y)%Q) by (by apply Qle_trans with (rval x)).
    apply Qle_bool_iff in Hy. congruence.
  - by apply Q2Qc_le.
Qed.

Lemma round_pos_nonneg (x : Q) : (0 <= x)%Q -> fle (Fin 0) (round_pos x).
Proof.
  intros Hx. unfold round_pos. destruct (Qle_bool _ _); simpl; [done|].
  apply (Q2Qc_le 0 (rval x)). by apply rval_nonneg.
Qed.

Lemma round_pos_not_nan (x : Q) : round_pos x <> NaN.
Proof. unfold round_pos. by destruct (Qle_bool _ _). Qed.

Lemma round64_0 : round64 0 = Fin 0.
Proof. reflexivity. Qed.

Lemma round64_pos q : 0 < q -> round64 q = round_pos q.
Proof. intros H. unfold round64. apply Qc_sign_pos in H. by rewrite H. Qed.

Lemma round64_neg q : q < 0 -> round64 q = fneg (round_pos (- q)).
Proof. intros H. unfold round64. apply Qc_sign_neg in H. by rewrite H. Qed.

Lemma round64_not_nan q : round64 q <> NaN.
Proof.
  unfold round64. destruct (Qc_sign q); [done|..].
  - pose proof (round_pos_not_nan (- q)). by destruct (round_pos (- q)).
  - apply round_pos_not_nan.
Qed.

Lemma Qc_opp_lt p q : p < q -> - q < - p.
Proof.
  unfold Qclt. simpl. rewrite !Qred_correct. apply Qopp_lt_compat.
Qed.

Lemma Qc_opp_pos q : q < 0 -> 0 < - q.
Proof. apply (Qc_opp_lt q 0). Qed.

Lemma fneg_involutive x : fneg (fneg x) = x.
Proof. destruct x; simpl; try done. by rewrite Qcopp_involutive. Qed.

Lemma Qc_neg_Q (q : Qc) : q < 0 -> (0 < - this q)%Q.
Proof. unfold Qclt. change (this 0) with 0%Q. lra. Qed.

Lemma Qc_pos_Q (q : Qc) : 0 < q -> (0 < this q)%Q.
Proof. unfold Qclt. change (this 0) with 0%Q. lra. Qed.

Lemma Qc_opp_Q (q : Qc) : (this (- q) == - this q)%Q.
Proof. apply Qred_correct. Qed.

Lemma round64_opp q : round64 (- q) = fneg (round64 q).
Proof.
  destruct (Qc_sign q) eqn:E.
  - apply Qc_sign_zero in E. subst. reflexivity.
  - apply Qc_sign_neg in E. rewrite (round64_neg q E), fneg_involutive.
    rewrite (round64_pos (- q)) by (by apply Qc_opp_pos).
    apply round_pos_comp; [by apply Qc_pos_Q, Qc_opp_pos | apply Qc_opp_Q].
  - apply Qc_sign_pos in E. rewrite (round64_pos q E).
    assert (Hn : - q < 0) by apply (Qc_opp_lt 0 q E).
    rewrite (round64_neg _ Hn). f_equal.
    apply round_pos_comp; [by apply Qc_neg_Q|].
    rewrite Qc_opp_Q. apply Qopp_involutive.
Qed.

Lemma round64_nonneg q : 0 <= q -> fle (Fin 0) (round64 q).
Proof.
  intros H. destruct (Qc_sign q) eqn:E.
  - apply Qc_sign_zero in E. subst. simpl. apply Qcle_refl.
  - apply Qc_sign_neg in E. by apply Qcle_not_lt in H.
  - apply Qc_sign_pos in E. rewrite (round64_pos q E). by apply round_pos_nonneg.
Qed.

Lemma round64_nonpos q : q <= 0 -> fle (round64 q) (Fin 0).
Proof.
  intros H. rewrite <- (Qcopp_involutive q), round64_opp.
  change (Fin 0) with (fneg (Fin 0)). apply fle_fneg, round64_nonneg.
  apply Qcopp_le_compat in H. exact H.
Qed.

Lemma round64_mono x y : x <= y -> fle (round64 x) (round64 y).
Proof.
  intros H. destruct (Qc_sign x) eqn:Ex.
  - apply Qc_sign_zero in Ex. subst. by apply round64_nonneg.
  - apply Qc_sign_neg in Ex. destruct (Qc_sign y) eqn:Ey.
    + apply Qc_sign_zero in Ey. subst. by apply round64_nonpos, Qclt_le_weak.
    + apply Qc_sign_neg in Ey.
      rewrite (round64_neg x Ex), (round64_neg y Ey). apply fle_fneg.
      apply round_pos_mono; [by apply Qc_neg_Q|].
      unfold Qcle in H. lra.
    + apply Qc_sign_pos in Ey. apply fle_trans with (Fin 0).
      * by apply round64_nonpos, Qclt_le_weak.
      * by apply round64_nonneg, Qclt_le_weak.
  - apply Qc_sign_pos in Ex. assert (Hy : 0 < y) by (by eapply Qclt_le_trans).
    rewrite (round64_pos x Ex), (round64_pos y Hy). by apply round_pos_mono.
Qed.

Lemma round_pos_idem (x : Q) r :
  (0 < x)%Q -> round_pos x = Fin r -> round64 r = Fin r.
Proof.
  intros Hx. unfold round_pos.
  destruct (Qle_bool (pow2 1024) (rval x)) eqn:Eo; [done|].
  intros [= <-].
  destruct (Qeq_dec (rval x) 0) as [Hz|Hnz].
  - assert (E : Q2Qc (rval x) = 0) by (by apply (Q2Qc_eq_iff (rval x) 0)).
    rewrite E. reflexivity.
  - pose proof (rval_nonneg x (Qlt_le_weak _ _ Hx)) as Hge.
    assert (Hv : (0 < rval x)%Q).
    { apply Qle_lteq in Hge as [Hlt|Heq]; [done|]. by symmetry in Heq. }
    assert (Ht : (Q2Qc (rval x) == rval x)%Q) by apply Qred_correct.
    assert (Hr : 0 < Q2Qc (rval x)).
    { unfold Qclt. by rewrite Ht. }
    rewrite (round64_pos _ Hr).
    assert (Hr' : (0 < Q2Qc (rval x))%Q) by (by rewrite Ht).
    rewrite (round_pos_comp _ (rval x) Hr' Ht).
    unfold round_pos.
    rewrite (Qle_bool_comp _ _ _ (rval_idem x Hx Hv)), Eo.
    f_equal. apply Q2Qc_eq_iff. by apply rval_idem.
Qed.

(** Rounding a second time changes nothing. *)
Lemma round64_idem x r : round64 x = Fin r -> round64 r = Fin r.
Proof.
  destruct (Qc_sign x) eqn:E.
  - apply Qc_sign_zero in E. subst. by intros [= <-].
  - apply Qc_sign_neg in E. rewrite (round64_neg x E).
    destruct (round_pos (- x)) as [v| | |] eqn:Ev; try done.
    intros [= <-]. rewrite round64_opp.
    rewrite (round_pos_idem _ v (Qc_neg_Q x E) Ev). done.
  - apply Qc_sign_pos in E. rewrite (round64_pos x E).
    apply round_pos_idem. by apply Qc_pos_Q.
Qed.

Lemma exact64_spec q : exact64 q = true <-> round64 q = Fin q.
Proof.
  unfold exact64. split.
  - destruct (round64 q) as [r| | |]; try done.
    intros H. f_equal. apply Qc_is_canon. by apply Qeq_bool_eq.
  - intros ->. by apply Qeq_bool_iff.
Qed.
End numbers.

(** ** The single-asset simulator *)

Section simulator.
Local Open Scope Qc_scope.
Variable c : Qc.
Local Arguments buy : simpl never.
Local Arguments round64 : simpl never.

(** What an iteration that completes has done. *)
Lemma buy_inv st d p b :
  buy c st (d, p) = Returned b ->
  in_float_range c = true
  /\ is_zero p = false
  /\ shares_owned b = fadd (shares_owned st) (fdiv (round64 c) p)
  /\ total_invested b = total_invested st + c
  /\ dates b = dates st ++ [d]
  /\ portfolio_values b = portfolio_values st ++ [fmul (shares_owned b) p]
  /\ invested_values b = invested_values st ++ [total_invested b].
Proof.
  unfold buy, py_truediv, in_float_range.
  destruct (round64 c) as [c'| | |]; [|done..].
  destruct (is_zero p); [done|]. cbn. intros [= <-]. done.
Qed.

(** An iteration completes when the contribution can be converted and
    the price is not zero. *)
Lemma buy_returns st d p :
  in_float_range c = true -> is_zero p = false ->
  exists b, buy c st (d, p) = Returned b.
Proof.
  unfold buy, py_truediv, in_float_range.
  destruct (round64 c) as [c'| | |]; [|done..].
  intros _ ->. cbn. by eexists.
Qed.

Lemma buy_zero st d p :
  in_float_range c = true -> is_zero p = true ->
  buy c st (d, p) = Raised ZeroDivisionError.
Proof.
  unfold buy, py_truediv, in_float_range.
  destruct (round64 c) as [c'| | |]; [|done..].
  by intros _ ->.
Qed.

Lemma buy_overflow st item :
  in_float_range c = false -> buy c st item = Raised OverflowError.
Proof.
  destruct item as [d p]. unfold buy, py_truediv, in_float_range.
  by destruct (round64 c) as [c'| | |].
Qed.

Lemma run_loop_cons st item l :
  run_loop c st (item :: l) = buy c st item ≫= fun st' => run_loop c st' l.
Proof. reflexivity. Qed.

Lemma run_loop_cons_inv st item l st' :
  run_loop c st (item :: l) = Returned st' ->
  exists st1, buy c st item = Returned st1 /\ run_loop c st1 l = Returned st'.
Proof.
  rewrite run_loop_cons. destruct (buy c st item) as [st1|e]; [|done].
  intros H. by exists st1.
Qed.

Lemma run_loop_app st l1 l2 :
  run_loop c st (l1 ++ l2) = run_loop c st l1 ≫= fun st1 => run_loop c st1 l2.
Proof.
  revert st. induction l1 as [|item l1 IH]; intros st; [done|].
  cbn [app]. rewrite !run_loop_cons.
  destruct (buy c st item) as [st1|e]; [|done]. apply IH.
Qed.

Lemma run_loop_returns st l :
  in_float_range c = true -> no_zero_price l = true ->
  exists st', run_loop c st l = Returned st'.
Proof.
  intros Hc. revert st. induction l as [|[d p] l IH]; intros st Hl.
  - by exists st.
  - cbn [no_zero_price forallb snd] in Hl. apply andb_prop in Hl as [Hp Hl].
    apply negb_true_iff in Hp.
    destruct (buy_returns st d p Hc Hp) as [b Hb].
    rewrite run_loop_cons, Hb. apply IH, Hl.
Qed.

(** The loop returns only if it is not entered, or the contribution can
    be converted and no price is zero. *)
Lemma run_loop_inv st l st' :
  run_loop c st l = Returned st' ->
  l = [] \/ (in_float_range c = true /\ no_zero_price l = true).
Proof.
  revert st. induction l as [|[d p] l IH]; intros st H; [by left|]. right.
  apply run_loop_cons_inv in H as (st1 & Hb & Hrest).
  apply buy_inv in Hb as (Hc & Hp & _). split; [done|].
  cbn [no_zero_price forallb snd]. rewrite Hp. cbn.
  destruct (IH _ Hrest) as [-> | [_ Hl]]; done.
Qed.

Lemma run_loop_zero st l :
  in_float_range c = true -> no_zero_price l = false ->
  run_loop c st l = Raised ZeroDivisionError.
Proof.
  intros Hc. revert st. induction l as [|[d p] l IH]; intros st Hl; [done|].
  cbn [no_zero_price forallb snd] in Hl. rewrite run_loop_cons.
  destruct (is_zero p) eqn:Hp.
  - by rewrite buy_zero.
  - destruct (buy_returns st d p Hc Hp) as [b ->]. apply IH, Hl.
Qed.

Lemma run_loop_overflow st l :
  in_float_range c = false -> l <> [] ->
  run_loop c st l = Raised OverflowError.
Proof.
  intros Hc Hl. destruct l as [|item l]; [done|].
  by rewrite run_loop_cons, buy_overflow.
Qed.

Lemma run_loop_dates st l st' :
  run_loop c st l = Returned st' -> dates st' = dates st ++ (fst <$> l).
Proof.
  revert st. induction l as [|[d p] l IH]; intros st H.
  - injection H as <-. by rewrite app_nil_r.
  - apply run_loop_cons_inv in H as (st1 & Hb & Hrest).
    rewrite (IH _ Hrest). apply buy_inv in Hb as (_ & _ & _ & _ & -> & _).
    by rewrite <- app_assoc.
Qed.

Lemma iterations_cons st item l st1 :
  buy c st item = Returned st1 ->
  iterations c st (item :: l) = st1 :: iterations c st1 l.
Proof. intros H. cbn [iterations]. by rewrite H. Qed.

Lemma run_loop_invested st l st' :
  run_loop c st l = Returned st' ->
  invested_values st'
  = invested_values st ++ (total_invested <$> iterations c st l).
Proof.
  revert st. induction l as [|[d p] l IH]; intros st H.
  - injection H as <-. by rewrite app_nil_r.
  - apply run_loop_cons_inv in H as (st1 & Hb & Hrest).
    rewrite (IH _ Hrest), (iterations_cons _ _ _ _ Hb).
    apply buy_inv in Hb as (_ & _ & _ & _ & _ & _ & ->).
    by rewrite <- app_assoc.
Qed.

Lemma run_loop_values st l st' :
  run_loop c st l = Returned st' ->
  portfolio_values st'
  = portfolio_values st
    ++ ((fun item => fmul (shares_owned (fst item)) (snd (snd item)))
          <$> zip (iterations c st l) l).
Proof.
  revert st. induction l as [|[d p] l IH]; intros st H.
  - injection H as <-. by rewrite app_nil_r.
  - apply run_loop_cons_inv in H as (st1 & Hb & Hrest).
    rewrite (IH _ Hrest), (iterations_cons _ _ _ _ Hb).
    apply buy_inv in Hb as (_ & _ & _ & _ & _ & -> & _).
    by rewrite <- app_assoc.
Qed.

(** When the loop returns, every iteration has completed. *)
Lemma iterations_length st l st' :
  run_loop c st l = Returned st' -> length (iterations c st l) = length l.
Proof.
  revert st. induction l as [|item l IH]; intros st H; [done|].
  apply run_loop_cons_inv in H as (st1 & Hb & Hrest).
  rewrite (iterations_cons _ _ _ _ Hb). cbn [length]. by rewrite (IH _ Hrest).
Qed.

Lemma iterations_last st l st' :
  run_loop c st l = Returned st' ->
  last (st :: iterations c st l) = Some st'.
Proof.
  revert st. induction l as [|item l IH]; intros st H.
  - by injection H as <-.
  - apply run_loop_cons_inv in H as (st1 & Hb & Hrest).
    rewrite (iterations_cons _ _ _ _ Hb), last_cons_cons. by apply IH.
Qed.

Lemma run_loop_total st l st' :
  run_loop c st l = Returned st' ->
  total_invested st' = total_invested st + c * of_int (Z.of_nat (length l)).
Proof.
  revert st. induction l as [|[d p] l IH]; intros st H.
  - injection H as <-. cbn [length]. change (Z.of_nat 0) with 0%Z.
    rewrite of_int_0. ring.
  - apply run_loop_cons_inv in H as (st1 & Hb & Hrest).
    rewrite (IH _ Hrest). cbn [length]. rewrite of_int_succ.
    apply buy_inv in Hb as (_ & _ & _ & -> & _). ring.
Qed.

(** Two consecutive states are linked by an iteration of the loop, at
    the price of the same rank. *)
Lemma iterations_lookup st l k a b :
  (st :: iterations c st l) !! k = Some a ->
  (st :: iterations c st l) !! S k = Some b ->
  exists d p, l !! k = Some (d, p) /\ buy c a (d, p) = Returned b.
Proof.
  revert st k. induction l as [|[d p] l IH]; intros st k Ha Hb.
  - destruct k; simpl in Hb; done.
  - cbn [iterations] in Ha, Hb.
    destruct (buy c st (d, p)) as [st1|e] eqn:E.
    + destruct k as [|k].
      * simpl in Ha, Hb. simplify_eq. by exists d, p.
      * simpl in Ha, Hb. destruct (IH st1 k Ha Hb) as (d' & p' & Hl & Hbuy).
        by exists d', p'.
    + destruct k; simpl in Hb; done.
Qed.

(** Every step adds exactly the contribution. *)
Lemma iterations_total_step st l i a b :
  (st :: iterations c st l) !! i = Some a ->
  (st :: iterations c st l) !! S i = Some b ->
  total_invested b = total_invested a + c.
Proof.
  intros Ha Hb. destruct (iterations_lookup _ _ _ _ _ Ha Hb) as (d & p & _ & Hbuy).
  by apply buy_inv in Hbuy as (_ & _ & _ & -> & _).
Qed.

Lemma purchase_shares s c' q :
  shares_ok s -> 0 <= c' -> 0 < q ->
  fle s (fadd s (fdiv (Fin c') (Fin q)))
  /\ shares_ok (fadd s (fdiv (Fin c') (Fin q))).
Proof.
  intros Hs Hc Hq.
  assert (Hq0 : q <> 0) by (intros ->; by apply (Qclt_not_eq 0 0)).
  rewrite fdiv_finite by done.
  pose proof (round64_nonneg (c' / q) (Qcdiv_nonneg _ _ Hc Hq)) as Hb.
  destruct (round64 (c' / q)) as [y| | |] eqn:Ey; try done.
  - destruct Hs as [-> | (x & -> & Hx)].
    + split; [done | by left].
    + cbn [fadd]. simpl in Hb.
      assert (Hle : x <= x + y).
      { rewrite <- (Qcplus_0_r x) at 1. by apply Qcplus_le_mono_l. }
      pose proof (round64_mono _ _ Hle) as Hm. rewrite Hx in Hm.
      split; [done|].
      destruct (round64 (x + y)) as [r| | |] eqn:Er; try done.
      * right. exists r. split; [done|]. by apply (round64_idem (x + y)).
      * by left.
  - destruct Hs as [-> | (x & -> & Hx)]; (split; [done | by left]).
Qed.

(** With a non-negative contribution and positive prices no purchase
    takes shares away. *)
Lemma iterations_shares_step st l i a b :
  0 <= c ->
  shares_ok (shares_owned st) ->
  (forall item, item ∈ l -> positive_price (snd item) = true) ->
  (st :: iterations c st l) !! i = Some a ->
  (st :: iterations c st l) !! S i = Some b ->
  fle (shares_owned a) (shares_owned b) /\ shares_ok (shares_owned a).
Proof.
  intros Hc. revert st i. induction l as [|[d p] l IH]; intros st i Hok Hpos Ha Hb.
  - destruct i; simpl in Hb; done.
  - cbn [iterations] in Ha, Hb.
    destruct (buy c st (d, p)) as [st1|e] eqn:E;
      [|destruct i; simpl in Hb; done].
    assert (Hp : positive_price p = true) by (apply (Hpos (d, p)); left).
    apply positive_price_spec in Hp as (q & -> & Hq).
    apply buy_inv in E as (Hr & _ & Hs & _).
    unfold in_float_range in Hr.
    pose proof (round64_nonneg c Hc) as Hc'.
    destruct (round64 c) as [c'| | |] eqn:Ec; try done. simpl in Hc'.
    destruct (purchase_shares (shares_owned st) c' q Hok Hc' Hq) as [Hle Hok1].
    rewrite <- Hs in Hle, Hok1.
    destruct i as [|i].
    + simpl in Ha, Hb. by simplify_eq.
    + simpl in Ha, Hb. eapply (IH st1 i); [done| |exact Ha|exact Hb].
      intros item Hin. apply Hpos. by right.
Qed.

Lemma dropna_app s1 s2 : dropna (s1 ++ s2) = dropna s1 ++ dropna s2.
Proof. apply List.filter_app. Qed.

Lemma dropna_elem item s : item ∈ dropna s <-> item ∈ s /\ notna (snd item) = true.
Proof. unfold dropna. rewrite !list_elem_of_In. apply List.filter_In. Qed.

Lemma simulate_inv series df :
  simulate series c = Returned df ->
  exists st, run_loop c acc_init (dropna series) = Returned st
             /\ df = result_frame st.
Proof.
  unfold simulate. destruct (run_loop c acc_init (dropna series)) as [st|e]; [|done].
  intros [= <-]. by exists st.
Qed.

(** [simulate] returns when the contribution can be converted and no
    defined price is zero. *)
Lemma simulate_returns series :
  in_float_range c = true -> no_zero_price (dropna series) = true ->
  exists df, simulate series c = Returned df.
Proof.
  intros Hc Hz. destruct (run_loop_returns acc_init _ Hc Hz) as [st Hst].
  exists (result_frame st). unfold simulate. by rewrite Hst.
Qed.

Lemma simulate_total_column series df :
  simulate series c = Returned df ->
  get_column (columns df) TOTAL_INVESTED
  = Some (Fin <$> (total_invested <$> iterations c acc_init (dropna series))).
Proof.
  intros (st & Hst & ->)%simulate_inv.
  cbn. by rewrite (run_loop_invested _ _ _ Hst).
Qed.

Lemma simulate_value_column series df :
  simulate series c = Returned df ->
  get_column (columns df) PORTFOLIO_VALUE
  = Some ((fun item => fmul (shares_owned (fst item)) (snd (snd item)))
            <$> zip (iterations c acc_init (dropna series)) (dropna series)).
Proof.
  intros (st & Hst & ->)%simulate_inv.
  cbn. by rewrite (run_loop_values _ _ _ Hst).
Qed.

Lemma simulate_index series df :
  simulate series c = Returned df -> index df = fst <$> dropna series.
Proof.
  intros (st & Hst & ->)%simulate_inv.
  cbn [result_frame index]. by rewrite (run_loop_dates _ _ _ Hst).
Qed.

Lemma simulate_iterations series df :
  simulate series c = Returned df ->
  length (iterations c acc_init (dropna series)) = length (dropna series).
Proof. intros (st & Hst & ->)%simulate_inv. by eapply iterations_length. Qed.
End simulator.

Lemma iterations_last_nonempty c st l st' :
  l <> [] -> run_loop c st l = Returned st' ->
  last (iterations c st l) = Some st'.
Proof.
  intros Hl H. destruct l as [|x l]; [done|].
  apply run_loop_cons_inv in H as (st1 & Hb & Hrest).
  rewrite (iterations_cons _ _ _ _ _ Hb). by apply iterations_last.
Qed.

Lemma dropna_all_positive series :
  forallb (fun item => positive_price (snd item)) (dropna series) = true ->
  positive_points series = dropna series.
Proof.
  unfold positive_points, dropna.
  induction series as [|[d p] l IH]; [done|].
  cbn [List.filter snd]. destruct (notna p) eqn:En.
  - cbn [forallb snd]. intros [Hp Hl]%andb_prop. rewrite Hp. f_equal. by apply IH.
  - assert (p = NaN) as -> by (by destruct p). cbn [positive_price]. apply IH.
Qed.

Lemma forallb_elem {A} (f : A -> bool) (l : list A) :
  forallb f l = true <-> forall x, x ∈ l -> f x = true.
Proof.
  rewrite forallb_forall. split; intros H x Hx; apply H; by apply list_elem_of_In.
Qed.

Lemma positive_no_zero l :
  forallb (fun item => positive_price (snd item)) l = true ->
  no_zero_price l = true.
Proof.
  unfold no_zero_price. rewrite !forallb_elem. intros H item Hin.
  specialize (H item Hin). apply positive_price_spec in H as (q & -> & Hq).
  simpl. apply Qc_sign_pos in Hq. by rewrite Hq.
Qed.

(** ** Claims about the simulator *)

Lemma no_zero_price_false l d :
  (d, Fin 0%Qc) ∈ l -> no_zero_price l = false.
Proof.
  intros Hin. destruct (no_zero_price l) eqn:E; [|done].
  unfold no_zero_price in E. rewrite forallb_elem in E.
  by specialize (E _ Hin).
Qed.

(** The rows of a returned frame, read off the states of the loop. *)
Lemma simulate_row series c df k d p :
  simulate series c = Returned df ->
  dropna series !! k = Some (d, p) ->
  exists a b,
    (acc_init :: iterations c acc_init (dropna series)) !! k = Some a
    /\ (acc_init :: iterations c acc_init (dropna series)) !! S k = Some b
    /\ buy c a (d, p) = Returned b
    /\ index df !! k = Some d
    /\ (get_column (columns df) TOTAL_INVESTED ≫= (.!! k))
       = Some (Fin (total_invested b))
    /\ (get_column (columns df) PORTFOLIO_VALUE ≫= (.!! k))
       = Some (fmul (shares_owned b) p).
Proof.
  intros Hdf Hk.
  pose proof (simulate_iterations c series df Hdf) as Hlen.
  pose proof (lookup_lt_Some _ _ _ Hk) as Hlt.
  destruct (lookup_lt_is_Some_2 (iterations c acc_init (dropna series)) k) as [b Hb];
    [lia|].
  destruct (lookup_lt_is_Some_2 (acc_init :: iterations c acc_init (dropna series)) k)
    as [a Ha]; [cbn [length]; lia|].
  destruct (iterations_lookup c acc_init _ k a b Ha Hb) as (d' & p' & Hk' & Hbuy).
  rewrite Hk in Hk'. injection Hk' as <- <-.
  exists a, b. split; [done|]. split; [done|]. split; [done|].
  rewrite (simulate_index c series df Hdf), (simulate_total_column c series df Hdf),
    (simulate_value_column c series df Hdf).
  cbn [mbind option_bind]. rewrite !list_lookup_fmap.
  assert (Hz : zip (iterations c acc_init (dropna series)) (dropna series) !! k
               = Some (b, (d, p))).
  { apply lookup_zip_with_Some. by exists b, (d, p). }
  change (iterations c acc_init (dropna series) !! k = Some b) in Hb.
  by rewrite Hk, Hb, Hz.
Qed.

(** C1 (as the code has it).  The simulator skips exactly the
    observations whose price is missing (NaN): taking such an
    observation out of the input changes neither the states of the loop
    nor the output.  Every observation with a defined price is bought
    at, whatever the sign of the price: the shares owned grow by the
    quotient of the contribution and the price, the total invested by
    the contribution, and the observation gets its row with that total
    and the value of the shares.  This holds when the contribution can
    be converted to a float and no defined price is zero; a price of
    zero makes the division raise, and no frame is returned. *)
Theorem simulate_drops_missing_only series (c : Qc) :
  in_float_range c = true ->
  no_zero_price (dropna series) = true ->
  exists df invested values,
    simulate series c = Returned df
    /\ index df = fst <$> List.filter (fun item => notna (snd item)) series
    /\ get_column (columns df) TOTAL_INVESTED = Some invested
    /\ get_column (columns df) PORTFOLIO_VALUE = Some values
    /\ (forall k d p,
          dropna series !! k = Some (d, p) ->
          exists a b,
            (acc_init :: iterations c acc_init (dropna series)) !! k = Some a
            /\ (acc_init :: iterations c acc_init (dropna series)) !! S k = Some b
            /\ shares_owned b = fadd (shares_owned a) (fdiv (round64 c) p)
            /\ total_invested b = (total_invested a + c)%Qc
            /\ index df !! k = Some d
            /\ invested !! k = Some (Fin (total_invested b))
            /\ values !! k = Some (fmul (shares_owned b) p))
    /\ (forall s1 d s2,
          series = s1 ++ (d, NaN) :: s2 ->
          simulate (s1 ++ s2) c = Returned df
          /\ iterations c acc_init (dropna (s1 ++ s2))
             = iterations c acc_init (dropna series))
    /\ (forall series' d,
          (d, Fin 0%Qc) ∈ series' ->
          simulate series' c = Raised ZeroDivisionError).
Proof.
  intros Hc Hz. destruct (simulate_returns c series Hc Hz) as [df Hdf].
  exists df. eexists _, _. split; [done|].
  split; [exact (simulate_index c series df Hdf)|].
  split; [exact (simulate_total_column c series df Hdf)|].
  split; [exact (simulate_value_column c series df Hdf)|].
  split; [|split].
  - intros k d p Hk.
    destruct (simulate_row series c df k d p Hdf Hk)
      as (a & b & Ha & Hb & Hbuy & Hi & Ht & Hv).
    rewrite (simulate_total_column c series df Hdf) in Ht.
    rewrite (simulate_value_column c series df Hdf) in Hv.
    apply buy_inv in Hbuy as (_ & _ & Hs & Htot & _).
    by exists a, b.
  - intros s1 d s2 ->.
    assert (E : dropna (s1 ++ (d, NaN) :: s2) = dropna (s1 ++ s2)).
    { by rewrite !dropna_app. }
    unfold simulate in *. by rewrite <- E.
  - intros series' d Hin. unfold simulate.
    rewrite (run_loop_zero c acc_init (dropna series') Hc); [done|].
    apply (no_zero_price_false _ d). by apply dropna_elem.
Qed.

Lemma simulate_drops_missing_only_witness :
  exists df invested values,
    simulate series_gap_negative (of_int 100) = Returned df
    /\ index df
       = fst <$> List.filter (fun item => notna (snd item)) series_gap_negative
    /\ get_column (columns df) TOTAL_INVESTED = Some invested
    /\ get_column (columns df) PORTFOLIO_VALUE = Some values
    /\ (forall k d p,
          dropna series_gap_negative !! k = Some (d, p) ->
          exists a b,
            (acc_init :: iterations (of_int 100) acc_init (dropna series_gap_negative))
              !! k = Some a
            /\ (acc_init :: iterations (of_int 100) acc_init
                              (dropna series_gap_negative)) !! S k = Some b
            /\ shares_owned b
               = fadd (shares_owned a) (fdiv (round64 (of_int 100)) p)
            /\ total_invested b = (total_invested a + of_int 100)%Qc
            /\ index df !! k = Some d
            /\ invested !! k = Some (Fin (total_invested b))
            /\ values !! k = Some (fmul (shares_owned b) p))
    /\ (forall s1 d s2,
          series_gap_negative = s1 ++ (d, NaN) :: s2 ->
          simulate (s1 ++ s2) (of_int 100) = Returned df
          /\ iterations (of_int 100) acc_init (dropna (s1 ++ s2))
             = iterations (of_int 100) acc_init (dropna series_gap_negative))
    /\ (forall series' d,
          (d, Fin 0%Qc) ∈ series' ->
          simulate series' (of_int 100) = Raised ZeroDivisionError).
Proof.
  apply (simulate_drops_missing_only series_gap_negative (of_int 100));
    vm_compute; reflexivity.
Defined.

(** C1, refuted as stated: an observation at price -5 is not skipped.
    The call returns a frame with a row for it, the invested total has
    gone from 0 to 100 and the shares owned from 0 to -20. *)
Lemma simulate_keeps_nonpositive_price :
  positive_points series_negative = []
  /\ returned (simulate series_negative (of_int 100)) = true
  /\ index (frame_of (simulate series_negative (of_int 100))) = [jan1]
  /\ final_cell (frame_of (simulate series_negative (of_int 100))) TOTAL_INVESTED
     = Some (Fin (of_int 100))
  /\ final_cell (frame_of (simulate series_negative (of_int 100))) TOTAL_INVESTED
     <> Some (Fin (total_invested acc_init))
  /\ shares_owned <$> iterations (of_int 100) acc_init (dropna series_negative)
     = [Fin (of_int (-20))]
  /\ Fin (of_int (-20)) <> shares_owned acc_init.
Proof.
  split; [reflexivity|]. split; [vm_compute; reflexivity|].
  split; [vm_compute; reflexivity|].
  split; [apply final_eqb_eq; vm_compute; reflexivity|].
  split; [apply final_eqb_neq; vm_compute; reflexivity|].
  split; [apply cells_eqb_eq; vm_compute; reflexivity|].
  apply float_eqb_neq; vm_compute; reflexivity.
Qed.

(** C3 (as the code has it).  With [n >= 1] defined prices in the input,
    positive or not but none of them zero, and a contribution that can
    be converted to a float, the call returns and the last row's total
    invested is exactly [c * n]; when every defined price is strictly
    positive, [n] is the number of positive prices. *)
Theorem final_total_invested series (c : Qc) (n : nat) :
  n = length (dropna series) ->
  (1 <= n)%nat ->
  in_float_range c = true ->
  no_zero_price (dropna series) = true ->
  exists df,
    simulate series c = Returned df
    /\ final_cell df TOTAL_INVESTED = Some (Fin (c * of_int (Z.of_nat n))%Qc)
    /\ (forallb (fun item => positive_price (snd item)) (dropna series) = true ->
        length (positive_points series) = n).
Proof.
  intros -> Hn Hc Hz. destruct (simulate_returns c series Hc Hz) as [df Hdf].
  exists df. split; [done|]. split.
  - unfold final_cell. rewrite (simulate_total_column c series df Hdf).
    cbn [mbind option_bind]. unfold iloc_last. rewrite !fmap_last.
    apply simulate_inv in Hdf as (st & Hst & _).
    rewrite (iterations_last_nonempty c acc_init (dropna series) st).
    + cbn [fmap option_fmap option_map]. rewrite (run_loop_total c _ _ _ Hst).
      cbn [total_invested acc_init]. by rewrite Qcplus_0_l.
    + intros E. rewrite E in Hn. simpl in Hn. lia.
    + done.
  - intros Hpos. by rewrite dropna_all_positive.
Qed.

Lemma final_total_invested_witness :
  exists df,
    simulate series_with_gap (of_int 100) = Returned df
    /\ final_cell df TOTAL_INVESTED
       = Some (Fin (of_int 100 * of_int (Z.of_nat 2))%Qc)
    /\ (forallb (fun item => positive_price (snd item)) (dropna series_with_gap) = true ->
        length (positive_points series_with_gap) = 2%nat).
Proof.
  apply (final_total_invested series_with_gap (of_int 100) 2);
    [reflexivity | lia | vm_compute; reflexivity | vm_compute; reflexivity].
Defined.

(** C3, refuted as stated: [series_mixed] contains one positive price
    (and one negative price); with [c = 100] the call returns and the
    final total invested is not [c * 1], it is [c * 2]. *)
Lemma final_total_counts_every_defined_price :
  (0 < of_int 100)%Qc
  /\ length (positive_points series_mixed) = 1%nat
  /\ returned (simulate series_mixed (of_int 100)) = true
  /\ final_cell (frame_of (simulate series_mixed (of_int 100))) TOTAL_INVESTED
     <> Some (Fin (of_int 100 * of_int 1)%Qc)
  /\ final_cell (frame_of (simulate series_mixed (of_int 100))) TOTAL_INVESTED
     = Some (Fin (of_int 100 * of_int 2)%Qc).
Proof.
  split; [reflexivity|]. split; [reflexivity|]. split; [vm_compute; reflexivity|].
  split.
  - apply final_eqb_neq. vm_compute. reflexivity.
  - apply final_eqb_eq. vm_compute. reflexivity.
Qed.

(** C5 (as the code has it).  With a positive contribution and strictly
    positive defined prices, the shares owned never decrease from one
    iteration to the next, and the total invested grows by exactly the
    contribution at every emitted row, hence strictly.  The states are
    the loop variables before the first iteration and after each one.
    When the contribution can be converted to a float the call returns,
    every defined price has its iteration, and the totals of the states
    after each iteration are the cells of the ["Total Invested"]
    column. *)
Theorem shares_and_total_monotone series (c : Qc) :
  (0 < c)%Qc ->
  forallb (fun item => positive_price (snd item)) (dropna series) = true ->
  (in_float_range c = true ->
   exists df,
     simulate series c = Returned df
     /\ get_column (columns df) TOTAL_INVESTED
        = Some (Fin <$> (total_invested <$> iterations c acc_init (dropna series)))
     /\ length (iterations c acc_init (dropna series)) = length (dropna series))
  /\ forall i a b,
      (acc_init :: iterations c acc_init (dropna series)) !! i = Some a ->
      (acc_init :: iterations c acc_init (dropna series)) !! S i = Some b ->
      fle (shares_owned a) (shares_owned b)
      /\ total_invested b = (total_invested a + c)%Qc
      /\ (total_invested a < total_invested b)%Qc.
Proof.
  intros Hc Hpos. split.
  - intros Hr.
    destruct (simulate_returns c series Hr (positive_no_zero _ Hpos)) as [df Hdf].
    exists df. split; [done|]. split.
    + by apply simulate_total_column.
    + by eapply simulate_iterations.
  - intros i a b Ha Hb.
    assert (Hstep : total_invested b = (total_invested a + c)%Qc)
      by (by eapply iterations_total_step).
    split; [|split; [done|]].
    + eapply (iterations_shares_step c acc_init (dropna series) i a b).
      * by apply Qclt_le_weak.
      * right. by exists 0%Qc.
      * by apply forallb_elem.
      * exact Ha.
      * exact Hb.
    + rewrite Hstep. rewrite <- (Qcplus_0_r (total_invested a)) at 1.
      by apply Qcplus_lt_mono_l.
Qed.

Lemma shares_and_total_monotone_witness :
  (in_float_range (of_int 100) = true ->
   exists df,
     simulate series_with_gap (of_int 100) = Returned df
     /\ get_column (columns df) TOTAL_INVESTED
        = Some (Fin <$> (total_invested
                           <$> iterations (of_int 100) acc_init (dropna series_with_gap)))
     /\ length (iterations (of_int 100) acc_init (dropna series_with_gap))
        = length (dropna series_with_gap))
  /\ forall i a b,
      (acc_init :: iterations (of_int 100) acc_init (dropna series_with_gap)) !! i
      = Some a ->
      (acc_init :: iterations (of_int 100) acc_init (dropna series_with_gap)) !! S i
      = Some b ->
      fle (shares_owned a) (shares_owned b)
      /\ total_invested b = (total_invested a + of_int 100)%Qc
      /\ (total_invested a < total_invested b)%Qc.
Proof.
  apply (shares_and_total_monotone series_with_gap (of_int 100)); reflexivity.
Defined.

(** C5, refuted as stated: a purchase at the price -5 takes shares away,
    from 10 after the first iteration down to -10 after the second. *)
Lemma shares_decrease_at_negative_price :
  shares_owned <$> iterations (of_int 100) acc_init (dropna series_mixed)
  = [Fin (of_int 10); Fin (of_int (-10))]
  /\ ~ fle (Fin (of_int 10)) (Fin (of_int (-10))).
Proof.
  split; [apply cells_eqb_eq; vm_compute; reflexivity|].
  intros H. vm_compute in H. by apply H.
Qed.




(** ** De-duplication of the ticker mapping *)

Section dedup.
Implicit Types (l d : Dict) (seen : gset string) (st : Dedup).

(** Membership in the set of seen symbols after one more was added. *)
Local Ltac seen_symbol :=
  rewrite ?not_elem_of_union, ?elem_of_singleton in *; tauto.

Lemma dict_set_fresh d k v :
  k ∉ (fst <$> d) -> dict_set d k v = d ++ [(k, v)].
Proof.
  induction d as [|[k' v'] d IH]; intros Hk; [done|].
  cbn [dict_set]. rewrite fmap_cons, not_elem_of_cons in Hk.
  destruct Hk as [Hne Hk]. simpl in Hne.
  destruct (decide (k' = k)) as [->|_]; [done|].
  by rewrite IH.
Qed.

(** The loop computes [keep_first], appending to what it already holds. *)
Lemma dedup_foldl st l :
  NoDup (fst <$> l) ->
  (forall n, n ∈ (fst <$> l) -> n ∉ (fst <$> unique_tickers st)) ->
  unique_tickers (foldl dedup_step st l)
  = unique_tickers st ++ keep_first (seen_symbols st) l.
Proof.
  revert st. induction l as [|[n s] l IH]; intros st Hnd Hfresh.
  - by rewrite app_nil_r.
  - rewrite fmap_cons, NoDup_cons in Hnd. destruct Hnd as [Hn Hnd].
    cbn [foldl dedup_step keep_first].
    destruct (decide (s ∈ seen_symbols st)) as [Hs|Hs].
    + apply IH; [done|]. intros m Hm. apply Hfresh. by right.
    + rewrite IH; [|done|].
      * cbn [unique_tickers seen_symbols].
        rewrite dict_set_fresh by (apply Hfresh; by left).
        by rewrite <- app_assoc.
      * intros m Hm. cbn [unique_tickers].
        rewrite dict_set_fresh by (apply Hfresh; by left).
        rewrite fmap_app, elem_of_app. intros [Hin|Hin].
        -- revert Hin. apply Hfresh. by right.
        -- simpl in Hin. apply list_elem_of_singleton in Hin. by subst.
Qed.

Lemma keep_first_unseen seen l s :
  s ∈ (snd <$> keep_first seen l) -> s ∉ seen.
Proof.
  revert seen. induction l as [|[n0 s0] l IH]; intros seen; cbn [keep_first].
  - intros H. by apply elem_of_nil in H.
  - destruct (decide (s0 ∈ seen)) as [Hs|Hs]; [by apply IH|].
    rewrite fmap_cons, elem_of_cons. intros [->|Hin]; [done|].
    apply IH in Hin. seen_symbol.
Qed.

Lemma keep_first_NoDup seen l : NoDup (snd <$> keep_first seen l).
Proof.
  revert seen. induction l as [|[n0 s0] l IH]; intros seen; cbn [keep_first].
  - constructor.
  - destruct (decide (s0 ∈ seen)) as [Hs|Hs]; [by apply IH|].
    rewrite fmap_cons. apply NoDup_cons. split; [|by apply IH].
    intros Hin. apply keep_first_unseen in Hin. seen_symbol.
Qed.

Lemma keep_first_sublist seen l : sublist (keep_first seen l) l.
Proof.
  revert seen. induction l as [|[n0 s0] l IH]; intros seen; cbn [keep_first].
  - constructor.
  - destruct (decide (s0 ∈ seen)); [by apply sublist_cons | by apply sublist_skip].
Qed.

(** An entry is kept exactly when its symbol is new and no earlier
    entry of the list carries it. *)
Lemma keep_first_elem seen l n s :
  (n, s) ∈ keep_first seen l
  <-> (s ∉ seen)
      /\ exists i, l !! i = Some (n, s)
                   /\ forall j n', (j < i)%nat -> l !! j <> Some (n', s).
Proof.
  revert seen. induction l as [|[n0 s0] l IH]; intros seen; cbn [keep_first].
  - split; [intros H; by apply elem_of_nil in H|].
    intros (_ & i & Hi & _). by destruct i.
  - destruct (decide (s0 ∈ seen)) as [Hs|Hs].
    + rewrite IH. split.
      * intros (Hns & i & Hi & Hfirst). split; [done|].
        exists (S i). split; [done|]. intros [|j] n' Hj.
        -- simpl. intros [= -> ->]. done.
        -- simpl. apply Hfirst. lia.
      * intros (Hns & [|i] & Hi & Hfirst).
        -- simpl in Hi. by simplify_eq.
        -- split; [done|]. exists i. split; [done|].
           intros j n' Hj. apply (Hfirst (S j) n'). lia.
    + rewrite elem_of_cons, IH. split.
      * intros [[= -> ->]|(Hns & i & Hi & Hfirst)].
        -- split; [done|]. exists 0%nat. split; [done|]. intros j n' Hj. lia.
        -- split; [seen_symbol|]. exists (S i). split; [done|].
           intros [|j] n' Hj.
           ++ simpl. intros [= -> ->]. seen_symbol.
           ++ simpl. apply Hfirst. lia.
      * intros (Hns & [|i] & Hi & Hfirst).
        -- left. simpl in Hi. by simplify_eq.
        -- right. split.
           ++ assert (s <> s0).
              { intros ->. apply (Hfirst 0%nat n0); [lia | done]. }
              seen_symbol.
           ++ exists i. split; [done|].
              intros j n' Hj. apply (Hfirst (S j) n'). lia.
Qed.

Lemma deduplicate_keep_first l :
  NoDup (fst <$> l) -> deduplicate l = keep_first ∅ l.
Proof.
  intros Hnd. unfold deduplicate. rewrite dedup_foldl; [done|done|].
  intros n _ Hin. by apply elem_of_nil in Hin.
Qed.
End dedup.

(** C10.  On a mapping with pairwise distinct display names (the keys
    of the dictionary), the de-duplication returns entries with pairwise
    distinct symbols, in the relative order they had, and an entry is
    kept exactly when no earlier entry carries its symbol. *)
Theorem deduplicate_keeps_first_occurrence (selected_tickers : Dict) :
  NoDup (fst <$> selected_tickers) ->
  NoDup (snd <$> deduplicate selected_tickers)
  /\ sublist (deduplicate selected_tickers) selected_tickers
  /\ forall i name symbol,
      selected_tickers !! i = Some (name, symbol) ->
      ((name, symbol) ∈ deduplicate selected_tickers
       <-> forall j name', (j < i)%nat ->
                           selected_tickers !! j <> Some (name', symbol)).
Proof.
  intros Hnd. rewrite deduplicate_keep_first by done.
  split; [apply keep_first_NoDup|]. split; [apply keep_first_sublist|].
  intros i name symbol Hi. rewrite keep_first_elem. split.
  - intros (_ & i' & Hi' & Hfirst).
    assert (i' = i) as ->; [|done].
    eapply (NoDup_lookup _ _ _ name Hnd); rewrite list_lookup_fmap.
    + by rewrite Hi'.
    + by rewrite Hi.
  - intros Hfirst. split; [apply not_elem_of_empty|]. by exists i.
Qed.

Lemma deduplicate_keeps_first_occurrence_witness :
  NoDup (snd <$> deduplicate tickers_repeated)
  /\ sublist (deduplicate tickers_repeated) tickers_repeated
  /\ forall i name symbol,
      tickers_repeated !! i = Some (name, symbol) ->
      ((name, symbol) ∈ deduplicate tickers_repeated
       <-> forall j name', (j < i)%nat ->
                           tickers_repeated !! j <> Some (name', symbol)).
Proof.
  apply deduplicate_keeps_first_occurrence.
  apply (bool_decide_unpack _). vm_compute. reflexivity.
Defined.

(** ** The metrics section *)

Section metrics.
Local Open Scope Qc_scope.

(** With nothing invested the quotient is taken all the same. *)
Lemma return_pct_zero_invested x :
  return_pct x (Fin 0)
  = match x with
    | Fin v => match Qc_sign v with Eq => NaN | Gt => PInf | Lt => NInf end
    | other => other
    end.
Proof.
  unfold return_pct. destruct x as [v| | |]; try reflexivity.
  cbn [as_float64]. rewrite round64_0. cbn [fdiv].
  change (Qc_sign 0) with Eq. cbn match.
  destruct (Qc_sign v); reflexivity.
Qed.

(** When no operation has to round, the result is the quotient formula
    on the rationals. *)
Lemma return_pct_exact v i :
  i <> 0 ->
  exact64 i = true -> exact64 (v / i) = true -> exact64 (v / i - 1) = true ->
  exact64 ((v / i - 1) * of_int 100) = true ->
  return_pct (Fin v) (Fin i) = Fin ((v / i - 1) * of_int 100).
Proof.
  rewrite !exact64_spec. intros Hi Ei Eq E1 E2. unfold return_pct.
  cbn [as_float64]. rewrite Ei, fdiv_finite, Eq by done.
  unfold fsub. cbn [fneg fadd]. unfold Qcminus in E1, E2 |- *.
  rewrite E1. cbn [fmul]. by rewrite E2.
Qed.

Lemma metrics_elem selected combined final_invested ms m :
  metrics selected combined = Some (final_invested, ms) ->
  m ∈ ms ->
  final_cell combined TOTAL_INVESTED = Some final_invested
  /\ formats final_invested = true
  /\ final_cell combined (metric_name m) = Some (metric_value m)
  /\ metric_return m = return_pct (metric_value m) final_invested.
Proof.
  unfold metrics, final_cell. intros Hm Hin.
  destruct (get_column (columns combined) TOTAL_INVESTED ≫= iloc_last)
    as [fi|] eqn:Efi; [|done].
  cbn [mbind option_bind] in Hm.
  destruct (formats fi) eqn:Ef; [|done].
  destruct (mapM (metric_of combined fi) (valid_tickers selected combined))
    as [ms'|] eqn:Ems; [|done].
  cbn [mbind option_bind] in Hm. simplify_eq. split; [done|]. split; [done|].
  apply mapM_Some in Ems.
  apply list_elem_of_lookup in Hin as [k Hk].
  destruct (Forall2_lookup_r _ _ _ _ _ Ems Hk) as (name & _ & Hname).
  unfold metric_of in Hname.
  destruct (get_column (columns combined) name ≫= iloc_last) as [fv|] eqn:Efv; [|done].
  cbn [mbind option_bind] in Hname. simplify_eq. done.
Qed.
End metrics.

(** The scenario of the specification in binary64: 250 for 300 invested
    is shown as -16.666666666666664 percent. *)
Lemma return_pct_scenario :
  return_pct (Fin (of_int 250)) (Fin (of_int 300))
  = Fin (Q2Qc (-2345624805922133 # 140737488355328)).
Proof. apply float_eqb_eq. vm_compute. reflexivity. Qed.

(** C4 (as the code has it).  Every reported return percent is computed
    from the last cells of the instrument's column and of the
    ["Total Invested"] column by the quotient formula, in binary64:
    [((final_value / final_invested) - 1) * 100], each operation
    rounding.  There is no guard: when the final invested amount is zero
    the result is never a finite number, it is NaN when the final value
    is zero or NaN, and the infinity of the sign of the final value
    otherwise.  When no operation has to round, the result is the
    rational [(v / i - 1) * 100]. *)
Theorem return_pct_of_metrics selected combined final_invested ms m :
  metrics selected combined = Some (final_invested, ms) ->
  m ∈ ms ->
  final_cell combined TOTAL_INVESTED = Some final_invested
  /\ final_cell combined (metric_name m) = Some (metric_value m)
  /\ metric_return m
     = fmul (fsub (fdiv (metric_value m) (as_float64 final_invested)) (Fin 1%Qc))
            (Fin (of_int 100))
  /\ (final_invested = Fin 0%Qc ->
      is_finite (metric_return m) = false
      /\ metric_return m
         = match metric_value m with
           | Fin v => match Qc_sign v with Eq => NaN | Gt => PInf | Lt => NInf end
           | PInf => PInf
           | NInf => NInf
           | NaN => NaN
           end)
  /\ (forall v i : Qc,
         metric_value m = Fin v -> final_invested = Fin i -> i <> 0%Qc ->
         exact64 i = true -> exact64 (v / i)%Qc = true ->
         exact64 (v / i - 1)%Qc = true ->
         exact64 ((v / i - 1) * of_int 100)%Qc = true ->
         metric_return m = Fin ((v / i - 1) * of_int 100)%Qc).
Proof.
  intros Hm Hin.
  destruct (metrics_elem _ _ _ _ _ Hm Hin) as (Hfi & _ & Hfv & Hr).
  split; [done|]. split; [done|]. split; [done|]. split.
  - intros ->. rewrite Hr, return_pct_zero_invested.
    destruct (metric_value m) as [v| | |]; try done. by destruct (Qc_sign v).
  - intros v i Hv -> Hi E1 E2 E3 E4. rewrite Hr, Hv. by apply return_pct_exact.
Qed.

Lemma return_pct_of_metrics_witness :
  final_cell combined_scenario TOTAL_INVESTED = Some (Fin (of_int 300))
  /\ final_cell combined_scenario (metric_name metric_scenario)
     = Some (metric_value metric_scenario)
  /\ metric_return metric_scenario
     = fmul (fsub (fdiv (metric_value metric_scenario)
                        (as_float64 (Fin (of_int 300))))
                  (Fin 1%Qc))
            (Fin (of_int 100))
  /\ (Fin (of_int 300) = Fin 0%Qc ->
      is_finite (metric_return metric_scenario) = false
      /\ metric_return metric_scenario
         = match metric_value metric_scenario with
           | Fin v => match Qc_sign v with Eq => NaN | Gt => PInf | Lt => NInf end
           | PInf => PInf
           | NInf => NInf
           | NaN => NaN
           end)
  /\ (forall v i : Qc,
         metric_value metric_scenario = Fin v -> Fin (of_int 300) = Fin i ->
         i <> 0%Qc ->
         exact64 i = true -> exact64 (v / i)%Qc = true ->
         exact64 (v / i - 1)%Qc = true ->
         exact64 ((v / i - 1) * of_int 100)%Qc = true ->
         metric_return metric_scenario = Fin ((v / i - 1) * of_int 100)%Qc).
Proof.
  apply (return_pct_of_metrics [("A", "A")]%string combined_scenario
                               (Fin (of_int 300)) [metric_scenario] metric_scenario).
  - vm_compute. reflexivity.
  - by left.
Defined.

(** C4, refuted as stated: with a contribution of zero the final
    invested amount is zero, and the report shows a return percent, which
    is NaN. *)
Lemma zero_invested_return_is_nan :
  shown_invested (report data_apple tickers_apple (of_int 0)) = Some (Fin 0%Qc)
  /\ shown_returns (report data_apple tickers_apple (of_int 0)) = Some [NaN].
Proof.
  split; [|vm_compute; reflexivity].
  apply final_eqb_eq. vm_compute. reflexivity.
Qed.
(** ** The aggregation *)

Section aggregation.
Implicit Types (df : DataFrame) (st : Agg) (idx : list Timestamp)
         (cols : list (string * list float)).

Lemma get_set_column_eq cols name vs :
  get_column (set_column cols name vs) name = Some vs.
Proof.
  induction cols as [|[n old] cols IH]; cbn [set_column get_column].
  - by rewrite decide_True.
  - destruct (decide (n = name)) as [->|Hne]; cbn [get_column].
    + by rewrite decide_True.
    + by rewrite decide_False.
Qed.

Lemma get_set_column_ne cols name other vs :
  name <> other ->
  get_column (set_column cols name vs) other = get_column cols other.
Proof.
  intros Hne. induction cols as [|[n old] cols IH]; cbn [set_column get_column].
  - by rewrite decide_False.
  - destruct (decide (n = name)) as [->|Hn]; cbn [get_column].
    + by rewrite !decide_False.
    + by rewrite IH.
Qed.

Lemma set_column_Forall (P : list float -> Prop) cols name vs :
  P vs -> Forall (fun col => P (snd col)) cols ->
  Forall (fun col => P (snd col)) (set_column cols name vs).
Proof.
  intros Hvs. induction 1 as [|[n old] cols Hold Hcols IH]; cbn [set_column].
  - by repeat constructor.
  - destruct (decide (n = name)); constructor; done.
Qed.

Lemma set_column_nonempty cols name vs : set_column cols name vs <> [].
Proof. destruct cols as [|[n old] cols]; cbn [set_column]; [done|]. by destruct (decide _). Qed.

Lemma align_length idx (s : Series) : length (align idx s) = length idx.
Proof.
  unfold align, reindex. destruct (decide _) as [<-|_].
  - by rewrite !length_fmap.
  - by rewrite length_fmap.
Qed.

Lemma frame_set_index df name (s : Series) : index (frame_set df name s) = index df.
Proof. done. Qed.

Lemma frame_set_empty df name (s : Series) :
  index df <> [] -> frame_empty (frame_set df name s) = false.
Proof.
  intros Hidx. unfold frame_empty. cbn [frame_set index columns].
  destruct (index df); [done|].
  pose proof (set_column_nonempty (columns df) name (align (t :: l) s)).
  by destruct (set_column _ _ _).
Qed.

Lemma frame_empty_false df : frame_empty df = false -> index df <> [].
Proof. unfold frame_empty. by destruct (index df). Qed.

Lemma frame_set_aligned df name (s : Series) :
  aligned_frame df -> aligned_frame (frame_set df name s).
Proof.
  intros H. unfold aligned_frame. cbn [frame_set index columns].
  apply (set_column_Forall (fun vs => length vs = length (index df))); [|done].
  apply align_length.
Qed.

(** An empty result changes nothing but the warnings. *)
Lemma add_result_empty st name df :
  frame_empty df = true -> combined_df (add_result st name df) = combined_df st.
Proof. intros H. unfold add_result. by rewrite H. Qed.

(** The first result that is not empty fixes the index. *)
Lemma add_result_first st name df :
  frame_empty (combined_df st) = true -> frame_empty df = false ->
  combined_df (add_result st name df)
  = frame_set (frame_set (mkFrame (index df) []) TOTAL_INVESTED
                         (getcol df TOTAL_INVESTED))
              name (getcol df PORTFOLIO_VALUE).
Proof. intros H1 H2. unfold add_result. by rewrite H1, H2. Qed.

(** Later results are set into the frame as it is. *)
Lemma add_result_next st name df :
  frame_empty (combined_df st) = false -> frame_empty df = false ->
  combined_df (add_result st name df)
  = frame_set (combined_df st) name (getcol df PORTFOLIO_VALUE).
Proof. intros H1 H2. unfold add_result. by rewrite H1, H2. Qed.

Lemma aggregate_from_all_empty st results :
  forallb (fun r => frame_empty (snd r)) results = true ->
  combined_df (aggregate_from st results) = combined_df st.
Proof.
  revert st. induction results as [|[n df] results IH]; intros st H; [done|].
  cbn [forallb snd] in H. apply andb_prop in H as [Hdf H].
  cbn [aggregate_from foldl fst snd]. fold (aggregate_from (add_result st n df) results).
  rewrite IH by done. by apply add_result_empty.
Qed.

(** Once the frame is not empty, its index stays and its columns keep
    one cell per label. *)
Lemma aggregate_from_index st results :
  frame_empty (combined_df st) = false ->
  aligned_frame (combined_df st) ->
  index (combined_df (aggregate_from st results)) = index (combined_df st)
  /\ frame_empty (combined_df (aggregate_from st results)) = false
  /\ aligned_frame (combined_df (aggregate_from st results)).
Proof.
  revert st. induction results as [|[n df] results IH]; intros st Hne Hal; [done|].
  cbn [aggregate_from foldl fst snd]. fold (aggregate_from (add_result st n df) results).
  destruct (frame_empty df) eqn:Edf.
  - pose proof (add_result_empty st n df Edf) as E.
    destruct (IH (add_result st n df)) as (H1 & H2 & H3); [by rewrite E..|].
    by rewrite H1, E.
  - pose proof (add_result_next st n df Hne Edf) as E.
    destruct (IH (add_result st n df)) as (H1 & H2 & H3).
    + rewrite E. apply frame_set_empty. by apply frame_empty_false.
    + rewrite E. by apply frame_set_aligned.
    + by rewrite H1, E.
Qed.

(** Results under other names leave a column alone. *)
Lemma aggregate_from_other st results name :
  frame_empty (combined_df st) = false ->
  name ∉ (fst <$> results) ->
  get_column (columns (combined_df (aggregate_from st results))) name
  = get_column (columns (combined_df st)) name.
Proof.
  revert st. induction results as [|[n df] results IH]; intros st Hne Hname; [done|].
  rewrite fmap_cons, not_elem_of_cons in Hname. destruct Hname as [Hn Hname].
  cbn [fst] in Hn.
  cbn [aggregate_from foldl fst snd]. fold (aggregate_from (add_result st n df) results).
  destruct (frame_empty df) eqn:Edf.
  - pose proof (add_result_empty st n df Edf) as E.
    rewrite IH; [by rewrite E | by rewrite E | done].
  - pose proof (add_result_next st n df Hne Edf) as E.
    rewrite IH; [|rewrite E; apply frame_set_empty; by apply frame_empty_false|done].
    rewrite E. cbn [frame_set columns]. by apply get_set_column_ne.
Qed.

(** A result that is not empty ends up, aligned, under its name. *)
Lemma aggregate_from_column st results name df :
  frame_empty (combined_df st) = false ->
  NoDup (fst <$> results) ->
  (name, df) ∈ results ->
  frame_empty df = false ->
  get_column (columns (combined_df (aggregate_from st results))) name
  = Some (align (index (combined_df st)) (getcol df PORTFOLIO_VALUE)).
Proof.
  revert st. induction results as [|[n d] results IH]; intros st Hne Hnd Hin Hdf.
  - by apply elem_of_nil in Hin.
  - rewrite fmap_cons, NoDup_cons in Hnd. destruct Hnd as [Hn Hnd]. cbn [fst] in Hn.
    cbn [aggregate_from foldl fst snd]. fold (aggregate_from (add_result st n d) results).
    apply elem_of_cons in Hin as [[= <- <-]|Hin].
    + pose proof (add_result_next st name df Hne Hdf) as E.
      rewrite aggregate_from_other; [|rewrite E; apply frame_set_empty; by apply frame_empty_false|done].
      rewrite E. cbn [frame_set columns]. apply get_set_column_eq.
    + destruct (frame_empty d) eqn:Ed.
      * pose proof (add_result_empty st n d Ed) as E.
        rewrite IH; [by rewrite E | by rewrite E | done..].
      * pose proof (add_result_next st n d Hne Ed) as E.
        rewrite IH; [by rewrite E|rewrite E; apply frame_set_empty; by apply frame_empty_false|done..].
Qed.

Lemma first_nonempty_split results name0 df0 :
  first_nonempty results = Some (name0, df0) ->
  frame_empty df0 = false
  /\ exists pre post,
      results = pre ++ (name0, df0) :: post
      /\ forallb (fun r => frame_empty (snd r)) pre = true.
Proof.
  unfold first_nonempty.
  induction results as [|[n d] results IH]; cbn [List.find snd]; [done|].
  destruct (frame_empty d) eqn:Ed; cbn [negb].
  - intros H. destruct (IH H) as (H0 & pre & post & -> & Hpre).
    split; [done|]. exists ((n, d) :: pre), post. split; [done|].
    cbn [forallb snd]. by rewrite Ed.
  - intros [= -> ->]. split; [done|]. by exists [], results.
Qed.

Lemma first_nonempty_exists results name df :
  (name, df) ∈ results -> frame_empty df = false ->
  exists name0 df0, first_nonempty results = Some (name0, df0).
Proof.
  unfold first_nonempty. intros Hin Hdf.
  destruct (List.find _ results) as [[n0 d0]|] eqn:E; [by eauto|].
  apply list_elem_of_In in Hin.
  pose proof (List.find_none _ _ E _ Hin) as H. cbn [snd] in H.
  by rewrite Hdf in H.
Qed.

Lemma get_column_ffill df name :
  get_column (columns (ffill df)) name
  = ffill_cells <$> get_column (columns df) name.
Proof.
  unfold ffill. cbn [columns].
  induction (columns df) as [|[n vs] cols IH]; [done|].
  cbn [fmap list_fmap get_column fst snd]. fold (@fmap list _).
  destruct (decide (n = name)); [done|]. apply IH.
Qed.

Lemma ffill_from_length last cells : length (ffill_from last cells) = length cells.
Proof.
  revert last. induction cells as [|v cells IH]; intros last; [done|].
  cbn [ffill_from]. destruct (isna v); cbn [length]; by rewrite IH.
Qed.

(** The loop of the main block is the aggregation of the frames that
    the calls of [calculate_portfolio] return, when they all return. *)
Lemma combine_from_aggregate data monthly_inv st (selected_tickers : Dict) :
  Forall (fun item =>
            returned (calculate_portfolio data (snd item) monthly_inv) = true)
         selected_tickers ->
  combine_from data monthly_inv st selected_tickers
  = Returned
      (aggregate_from st
         ((fun item =>
             (fst item, frame_of (calculate_portfolio data (snd item) monthly_inv)))
            <$> selected_tickers)).
Proof.
  intros H. revert st.
  induction H as [|[name symbol] rest Hx Hrest IH]; intros st; [done|].
  cbn [combine_from fmap list_fmap aggregate_from foldl fst snd] in *.
  destruct (calculate_portfolio data symbol monthly_inv) as [df|e]; [|done].
  cbn. apply IH.
Qed.

Lemma combine_aggregate data (selected_tickers : Dict) monthly_inv :
  Forall (fun item =>
            returned (calculate_portfolio data (snd item) monthly_inv) = true)
         selected_tickers ->
  combine data selected_tickers monthly_inv
  = Returned
      (aggregate
         ((fun item =>
             (fst item, frame_of (calculate_portfolio data (snd item) monthly_inv)))
            <$> selected_tickers)).
Proof. apply combine_from_aggregate. Qed.

(** The loop returns only if every call has returned: the first call
    that raises ends it. *)
Lemma combine_from_returned data monthly_inv st (selected_tickers : Dict) :
  returned (combine_from data monthly_inv st selected_tickers) = true
  <-> Forall (fun item =>
                returned (calculate_portfolio data (snd item) monthly_inv) = true)
             selected_tickers.
Proof.
  revert st. induction selected_tickers as [|[name symbol] rest IH]; intros st.
  - split; [constructor | done].
  - cbn [combine_from]. rewrite Forall_cons. cbn [snd].
    destruct (calculate_portfolio data symbol monthly_inv) as [df|e]; cbn.
    + rewrite IH. tauto.
    + split; [done | by intros [? _]].
Qed.
End aggregation.

(** ** Order of timestamps, alignment and forward fill *)

Section fill.
Implicit Types (idx : list Timestamp) (s : Series) (cells : list float).

Lemma ts_lt_irrefl t : ~ ts_lt t t.
Proof. unfold ts_lt. lia. Qed.

Lemma ts_lt_trans a b c : ts_lt a b -> ts_lt b c -> ts_lt a c.
Proof. unfold ts_lt. lia. Qed.

Lemma sorted_lookup_lt idx i j a b :
  StronglySorted ts_lt idx -> (i < j)%nat ->
  idx !! i = Some a -> idx !! j = Some b -> ts_lt a b.
Proof.
  intros Hs. revert i j. induction Hs as [|x idx Hs IH Hx]; intros i j Hij Ha Hb.
  - by destruct i.
  - destruct j as [|j]; [lia|]. cbn in Hb. destruct i as [|i].
    + cbn in Ha. simplify_eq. rewrite Forall_forall in Hx. apply Hx.
      by eapply list_elem_of_lookup_2.
    + cbn in Ha. apply (IH i j); [lia|done..].
Qed.

Lemma sorted_head_least idx first t :
  StronglySorted ts_lt idx -> head idx = Some first -> t ∈ idx ->
  t = first \/ ts_lt first t.
Proof.
  intros Hs Hh Hin. destruct idx as [|x idx]; [done|]. cbn in Hh. simplify_eq.
  apply StronglySorted_cons in Hs as [Hx _].
  apply elem_of_cons in Hin as [->|Hin]; [by left|right].
  rewrite Forall_forall in Hx. by apply Hx.
Qed.

Lemma at_label_absent s t : t ∉ (fst <$> s) -> at_label s t = NaN.
Proof.
  induction s as [|[d v] s IH]; intros Hin; [done|].
  rewrite fmap_cons, not_elem_of_cons in Hin. destruct Hin as [Hne Hin].
  cbn [at_label]. cbn [fst] in Hne. rewrite decide_False by done. by apply IH.
Qed.

Lemma at_label_elem s t : at_label s t <> NaN -> (t, at_label s t) ∈ s.
Proof.
  induction s as [|[d v] s IH]; intros Hv; [done|].
  cbn [at_label] in *. destruct (decide (d = t)) as [->|Hne]; [by left|].
  right. by apply IH.
Qed.

(** A cell of an aligned series that is not NaN is an observation of
    the series at the label of that row. *)
Lemma align_lookup_elem idx s j v :
  align idx s !! j = Some v -> v <> NaN ->
  exists t, idx !! j = Some t /\ (t, v) ∈ s.
Proof.
  unfold align, reindex. destruct (decide _) as [<-|_]; intros Hj Hv.
  - rewrite list_lookup_fmap in Hj.
    destruct (s !! j) as [[t v']|] eqn:Es; [|done]. cbn in Hj. simplify_eq.
    exists t. split; [by rewrite list_lookup_fmap, Es|].
    by eapply list_elem_of_lookup_2.
  - rewrite list_lookup_fmap in Hj.
    destruct (idx !! j) as [t|] eqn:Et; [|done]. cbn in Hj. simplify_eq.
    exists t. split; [done|]. by apply at_label_elem.
Qed.

(** A row whose label the series does not have gets NaN. *)
Lemma align_lookup_absent idx s j t :
  idx !! j = Some t -> t ∉ (fst <$> s) -> align idx s !! j = Some NaN.
Proof.
  unfold align, reindex. intros Hj Hin. destruct (decide _) as [<-|_].
  - exfalso. apply Hin. by eapply list_elem_of_lookup_2.
  - rewrite list_lookup_fmap, Hj. cbn. f_equal. by apply at_label_absent.
Qed.

(** Forward fill of a prefix of NaN cells gives back what was carried in. *)
Lemma ffill_from_leading last cells k :
  (k < length cells)%nat ->
  (forall j, (j <= k)%nat -> cells !! j = Some NaN) ->
  ffill_from last cells !! k = Some last.
Proof.
  revert last k. induction cells as [|v cells IH]; intros last k Hk Hnan.
  - cbn in Hk. lia.
  - assert (v = NaN) as -> by (specialize (Hnan 0%nat); cbn in Hnan; naive_solver lia).
    cbn [ffill_from isna]. destruct k as [|k]; [done|].
    cbn. apply IH; [cbn in Hk; lia|].
    intros j Hj. apply (Hnan (S j)). lia.
Qed.

(** A filled cell is what was carried in, or an earlier cell that is
    not NaN. *)
Lemma ffill_from_source last cells k v :
  ffill_from last cells !! k = Some v ->
  v = last \/ exists j, (j <= k)%nat /\ cells !! j = Some v /\ v <> NaN.
Proof.
  revert last k. induction cells as [|x cells IH]; intros last k Hk; [by destruct k|].
  cbn [ffill_from] in Hk. destruct (isna x) eqn:Ex.
  - destruct k as [|k]; cbn in Hk; [left; by simplify_eq|].
    destruct (IH _ _ Hk) as [->|(j & Hj & Hc & Hv)]; [by left|].
    right. exists (S j). split; [lia|done].
  - assert (x <> NaN) by (by destruct x).
    destruct k as [|k]; cbn in Hk.
    + simplify_eq. right. exists 0%nat. split; [lia|done].
    + destruct (IH _ _ Hk) as [->|(j & Hj & Hc & Hv)].
      * right. exists 0%nat. split; [lia|done].
      * right. exists (S j). split; [lia|done].
Qed.

Lemma getcol_dates (df : DataFrame) name t v :
  (t, v) ∈ getcol df name -> t ∈ index df.
Proof.
  unfold getcol, column. destruct (get_column (columns df) name) as [vs|]; cbn.
  - apply elem_of_zip_l.
  - intros H. by apply elem_of_nil in H.
Qed.
End fill.

(** What the aggregation produces: the frame is indexed by the first
    result that is not empty, its columns have one cell per label, and
    every result that is not empty is found under its name, aligned with
    that index and filled forward. *)
Lemma finish_aggregate_spec results name0 df0 :
  NoDup (fst <$> results) ->
  first_nonempty results = Some (name0, df0) ->
  exists out,
    finish (aggregate results) = Some out
    /\ index out = index df0
    /\ Forall (fun col => length (snd col) = length (index out)) (columns out)
    /\ forall name df,
        (name, df) ∈ results -> frame_empty df = false ->
        get_column (columns out) name
        = Some (ffill_cells (align (index df0) (getcol df PORTFOLIO_VALUE))).
Proof.
  intros Hnd Hfirst.
  destruct (first_nonempty_split _ _ _ Hfirst) as (Hdf0 & pre & post & -> & Hpre).
  rewrite fmap_app, fmap_cons in Hnd. cbn [fst] in Hnd.
  apply NoDup_app in Hnd as (_ & _ & Hnd). apply NoDup_cons in Hnd as [Hn0 Hpost].
  pose proof (frame_empty_false _ Hdf0) as Hidx0.
  set (st0 := aggregate_from agg_init pre).
  set (st1 := add_result st0 name0 df0).
  assert (E0 : combined_df st0 = empty_frame) by (by apply aggregate_from_all_empty).
  assert (E1 : combined_df st1
               = frame_set (frame_set (mkFrame (index df0) []) TOTAL_INVESTED
                                      (getcol df0 TOTAL_INVESTED))
                           name0 (getcol df0 PORTFOLIO_VALUE)).
  { apply add_result_first; [by rewrite E0 | done]. }
  assert (Hne1 : frame_empty (combined_df st1) = false).
  { rewrite E1. by apply frame_set_empty. }
  assert (Hal1 : aligned_frame (combined_df st1)).
  { rewrite E1. apply frame_set_aligned, frame_set_aligned. constructor. }
  assert (Hagg : aggregate (pre ++ (name0, df0) :: post) = aggregate_from st1 post).
  { unfold aggregate, aggregate_from. by rewrite foldl_app. }
  destruct (aggregate_from_index st1 post Hne1 Hal1) as (Hi & Hne & Hal).
  exists (ffill (combined_df (aggregate_from st1 post))).
  rewrite Hagg. unfold finish. rewrite Hne. split; [done|].
  assert (Hidx : index (combined_df (aggregate_from st1 post)) = index df0).
  { by rewrite Hi, E1. }
  split; [done|]. split.
  - unfold ffill. cbn [columns index]. rewrite Forall_fmap.
    eapply Forall_impl; [exact Hal|].
    intros [n vs] Hlen. cbn [snd fst compose] in *. unfold ffill_cells.
    by rewrite ffill_from_length.
  - intros name df Hin Hdf. rewrite get_column_ffill.
    apply elem_of_app in Hin as [Hin|Hin].
    { rewrite forallb_elem in Hpre. specialize (Hpre _ Hin). cbn in Hpre.
      by rewrite Hdf in Hpre. }
    apply elem_of_cons in Hin as [[= -> ->]|Hin].
    + rewrite aggregate_from_other by done.
      rewrite E1. cbn [frame_set columns index]. by rewrite get_set_column_eq.
    + rewrite (aggregate_from_column _ _ _ df) by done.
      by rewrite E1.
Qed.

(** ** Claims about the aggregation *)

(** C2 (as the code has it).  The shared timestamp axis is the index of
    the first result, in caller order, that is not empty; it is not
    extended by the timestamps of later results.  Every column of the
    aggregated frame has one cell per timestamp of that axis, and every
    included instrument's value series is found under its name,
    re-indexed on the axis and filled forward. *)
Theorem combined_axis_is_first_nonempty_index results name0 df0 :
  NoDup (fst <$> results) ->
  first_nonempty results = Some (name0, df0) ->
  exists out,
    finish (aggregate results) = Some out
    /\ index out = index df0
    /\ Forall (fun col => length (snd col) = length (index out)) (columns out)
    /\ forall name df,
        (name, df) ∈ results -> frame_empty df = false ->
        get_column (columns out) name
        = Some (ffill_cells (align (index df0) (getcol df PORTFOLIO_VALUE))).
Proof. apply finish_aggregate_spec. Qed.

Lemma combined_axis_is_first_nonempty_index_witness :
  exists out,
    finish (aggregate results_late_start) = Some out
    /\ index out
       = index (frame_of (calculate_portfolio data_late_start "A" (of_int 100)))
    /\ Forall (fun col => length (snd col) = length (index out)) (columns out)
    /\ forall name df,
        (name, df) ∈ results_late_start -> frame_empty df = false ->
        get_column (columns out) name
        = Some (ffill_cells
                  (align (index (frame_of (calculate_portfolio data_late_start "A"
                                                                (of_int 100))))
                         (getcol df PORTFOLIO_VALUE))).
Proof.
  apply (combined_axis_is_first_nonempty_index results_late_start "a").
  - apply (bool_decide_unpack _). vm_compute. reflexivity.
  - reflexivity.
Defined.

(** C2, refuted as stated: instrument A has its first price in February,
    instrument B has prices in January and February.  With A first, the
    axis is February alone; January, a timestamp of B's result, is not
    on it. *)
Lemma combined_axis_is_not_the_union :
  index <$> outcome (calculate_portfolio data_late_start "A" (of_int 100))
  = Some [feb1]
  /\ index <$> outcome (calculate_portfolio data_late_start "B" (of_int 100))
     = Some [jan1; feb1]
  /\ index <$> (outcome (combine data_late_start tickers_ab (of_int 100)) ≫= finish)
     = Some [feb1].
Proof. repeat split; vm_compute; reflexivity. Qed.

(** C8.  Take results with pairwise distinct names whose indexes are in
    chronological order, and an instrument whose result is not empty and
    starts at the timestamp [first].  In the aggregated frame its column
    holds NaN at every row whose timestamp is strictly before [first],
    and every cell of the column that is not NaN is a value the
    instrument has at the timestamp of that row or of an earlier row. *)
Theorem no_fill_before_first_observation results name df first :
  NoDup (fst <$> results) ->
  Forall (fun r => StronglySorted ts_lt (index (snd r))) results ->
  (name, df) ∈ results ->
  frame_empty df = false ->
  head (index df) = Some first ->
  exists out cells,
    finish (aggregate results) = Some out
    /\ get_column (columns out) name = Some cells
    /\ (forall k t, index out !! k = Some t -> ts_lt t first ->
                    cells !! k = Some NaN)
    /\ (forall k v, cells !! k = Some v -> v <> NaN ->
                    exists j t, (j <= k)%nat /\ index out !! j = Some t
                                /\ (t, v) ∈ getcol df PORTFOLIO_VALUE).
Proof.
  intros Hnd Hsorted Hin Hdf Hfirst.
  destruct (first_nonempty_exists _ _ _ Hin Hdf) as (name0 & df0 & H0).
  destruct (finish_aggregate_spec _ _ _ Hnd H0) as (out & Hout & Hidx & _ & Hcol).
  exists out, (ffill_cells (align (index df0) (getcol df PORTFOLIO_VALUE))).
  split; [done|]. split; [by apply Hcol|].
  rewrite Forall_forall in Hsorted.
  assert (Hs0 : StronglySorted ts_lt (index df0)).
  { apply (Hsorted (name0, df0)). apply list_elem_of_In.
    by apply (List.find_some _ _ H0). }
  pose proof (Hsorted _ Hin) as Hs. cbn [snd] in Hs.
  rewrite Hidx. split.
  - intros k t Hk Ht. unfold ffill_cells. apply ffill_from_leading.
    + rewrite align_length. by eapply lookup_lt_Some.
    + intros j Hj.
      assert (is_Some (index df0 !! j)) as [tj Htj].
      { apply lookup_lt_is_Some. apply lookup_lt_Some in Hk. lia. }
      apply (align_lookup_absent _ _ _ tj); [done|].
      assert (Hlt : ts_lt tj first).
      { destruct (decide (j = k)) as [->|Hne]; [by simplify_eq|].
        apply (ts_lt_trans _ t); [|done].
        apply (sorted_lookup_lt (index df0) j k); [done|lia|done..]. }
      intros Hmem. apply list_elem_of_fmap in Hmem as ([t' v'] & -> & Hmem).
      cbn [fst] in Hlt. apply getcol_dates in Hmem.
      destruct (sorted_head_least _ _ _ Hs Hfirst Hmem) as [->|Hgt].
      * by apply ts_lt_irrefl in Hlt.
      * by apply (ts_lt_irrefl first), (ts_lt_trans _ t').
  - intros k v Hk Hv. unfold ffill_cells in Hk.
    apply ffill_from_source in Hk as [->|(j & Hj & Hc & _)]; [done|].
    destruct (align_lookup_elem _ _ _ _ Hc Hv) as (t & Ht & Hmem).
    by exists j, t.
Qed.

Lemma no_fill_before_first_observation_witness :
  exists out cells,
    finish (aggregate results_sparse) = Some out
    /\ get_column (columns out) "b" = Some cells
    /\ (forall k t, index out !! k = Some t -> ts_lt t feb1 ->
                    cells !! k = Some NaN)
    /\ (forall k v, cells !! k = Some v -> v <> NaN ->
                    exists j t,
                      (j <= k)%nat /\ index out !! j = Some t
                      /\ (t, v) ∈ getcol (frame_of (calculate_portfolio
                                                      data_sparse "B" (of_int 100)))
                                         PORTFOLIO_VALUE).
Proof.
  apply (no_fill_before_first_observation
           results_sparse "b"
           (frame_of (calculate_portfolio data_sparse "B" (of_int 100))) feb1).
  - apply (bool_decide_unpack _). vm_compute. reflexivity.
  - apply (bool_decide_unpack _). vm_compute. reflexivity.
  - right. left.
  - reflexivity.
  - reflexivity.
Defined.

(** ** Monthly resampling *)

Section resampling.
Implicit Types (idx : list Timestamp) (s : Series) (cells vs : list float)
         (bs : list Z).

Lemma month_index_start i : month_index (month_start i) = i.
Proof.
  unfold month_index, month_start. cbn [year month].
  pose proof (Z.div_mod i 12). lia.
Qed.

Lemma month_start_valid i :
  1 <= month (month_start i) <= 12 /\ day (month_start i) = 1.
Proof.
  unfold month_start. cbn [month day].
  pose proof (Z.mod_pos_bound i 12). lia.
Qed.

Lemma foldr_min_le m ms x : x ∈ m :: ms -> foldr Z.min m ms <= x.
Proof.
  induction ms as [|y ms IH]; cbn [foldr].
  - intros ->%list_elem_of_singleton. lia.
  - rewrite !elem_of_cons. rewrite elem_of_cons in IH.
    intros [->|[->|Hx]];
      [specialize (IH (or_introl eq_refl))| |specialize (IH (or_intror Hx))]; lia.
Qed.

Lemma foldr_max_ge m ms x : x ∈ m :: ms -> x <= foldr Z.max m ms.
Proof.
  induction ms as [|y ms IH]; cbn [foldr].
  - intros ->%list_elem_of_singleton. lia.
  - rewrite !elem_of_cons. rewrite elem_of_cons in IH.
    intros [->|[->|Hx]];
      [specialize (IH (or_introl eq_refl))| |specialize (IH (or_intror Hx))]; lia.
Qed.

Lemma foldr_min_elem m ms : foldr Z.min m ms ∈ m :: ms.
Proof.
  induction ms as [|y ms IH]; cbn [foldr]; [by left|].
  destruct (Z.min_spec y (foldr Z.min m ms)) as [[_ ->]|[_ ->]].
  - right. by left.
  - apply elem_of_cons in IH as [->|IH]; [by left|]. right. by right.
Qed.

Lemma foldr_max_elem m ms : foldr Z.max m ms ∈ m :: ms.
Proof.
  induction ms as [|y ms IH]; cbn [foldr]; [by left|].
  destruct (Z.max_spec y (foldr Z.max m ms)) as [[_ ->]|[_ ->]].
  - apply elem_of_cons in IH as [->|IH]; [by left|]. right. by right.
  - right. by left.
Qed.

Lemma bins_month_start lo n : bins (month_start <$> seqZ lo n) = seqZ lo n.
Proof.
  unfold bins. rewrite <- list_fmap_compose.
  rewrite (list_fmap_ext _ id) by (intros; apply month_index_start).
  rewrite list_fmap_id.
  destruct (decide (0 < n)) as [Hn|Hn]; [|by rewrite seqZ_nil by lia].
  rewrite (seqZ_cons lo n) by done.
  set (ms := seqZ (Z.succ lo) (Z.pred n)).
  assert (Hms : forall x, x ∈ lo :: ms <-> lo <= x < lo + n).
  { intros x. unfold ms. rewrite elem_of_cons, elem_of_seqZ. lia. }
  pose proof (foldr_min_elem lo ms) as H1. apply Hms in H1.
  pose proof (foldr_max_elem lo ms) as H2. apply Hms in H2.
  assert (lo ∈ lo :: ms) as H3%foldr_min_le by (apply Hms; lia).
  assert (lo + n - 1 ∈ lo :: ms) as H4%foldr_max_ge by (apply Hms; lia).
  replace (foldr Z.min lo ms) with lo by lia.
  replace (foldr Z.max lo ms) with (lo + n - 1) by lia.
  replace (lo + n - 1 - lo + 1) with n by lia.
  unfold ms. by apply seqZ_cons.
Qed.

Lemma bins_seqZ idx : exists lo n, bins idx = seqZ lo n.
Proof.
  unfold bins. destruct (month_index <$> idx) as [|m ms].
  - exists 0, 0. done.
  - by eexists _, _.
Qed.

Lemma bins_covers idx t : t ∈ idx -> month_index t ∈ bins idx.
Proof.
  intros Ht. unfold bins.
  destruct idx as [|t0 idx]; [by apply elem_of_nil in Ht|].
  rewrite fmap_cons. cbn match.
  assert (Hm : month_index t ∈ month_index t0 :: (month_index <$> idx)).
  { change (month_index t0 :: (month_index <$> idx))
      with (month_index <$> t0 :: idx). by apply list_elem_of_fmap_2. }
  pose proof (foldr_min_le _ _ _ Hm). pose proof (foldr_max_ge _ _ _ Hm).
  apply elem_of_seqZ. lia.
Qed.

Lemma bins_interval idx a b i :
  a ∈ bins idx -> b ∈ bins idx -> a <= i <= b -> i ∈ bins idx.
Proof.
  destruct (bins_seqZ idx) as (lo & n & ->). rewrite !elem_of_seqZ. lia.
Qed.

Lemma first_valid_cons v cells :
  first_valid (v :: cells) = if notna v then v else first_valid cells.
Proof. unfold first_valid. cbn [List.filter]. by destruct (notna v). Qed.

Lemma month_cells_cons i t v s :
  month_cells i ((t, v) :: s)
  = if month_index t =? i then v :: month_cells i s else month_cells i s.
Proof. unfold month_cells. cbn [List.filter fst]. by destruct (month_index t =? i). Qed.

Lemma month_start_lt i j : i < j -> ts_lt (month_start i) (month_start j).
Proof.
  intros Hij. unfold ts_lt, month_start. cbn [year month day].
  pose proof (Z.div_mod i 12). pose proof (Z.div_mod j 12).
  pose proof (Z.mod_pos_bound i 12). pose proof (Z.mod_pos_bound j 12). lia.
Qed.

Lemma seqZ_sorted lo n : StronglySorted Z.lt (seqZ lo n).
Proof.
  destruct (decide (0 <= n)) as [Hn|Hn]; [|rewrite seqZ_nil by lia; constructor].
  rewrite <- (Z2Nat.id n) by done. generalize (Z.to_nat n). clear. intros m.
  revert lo. induction m as [|m IH]; intros lo.
  - rewrite seqZ_nil by lia. constructor.
  - rewrite seqZ_cons by lia. apply StronglySorted_cons. split.
    + apply Forall_seqZ. lia.
    + replace (Z.pred (Z.of_nat (S m))) with (Z.of_nat m) by lia. apply IH.
Qed.

Lemma month_starts_sorted lo n : StronglySorted ts_lt (month_start <$> seqZ lo n).
Proof.
  apply (StronglySorted_fmap month_start Z.lt ts_lt); [|apply seqZ_sorted].
  intros i j. apply month_start_lt.
Qed.

Lemma sorted_zip_dates idx vs :
  StronglySorted ts_lt idx -> StronglySorted ts_lt (fst <$> zip idx vs).
Proof.
  intros Hs. revert vs. induction Hs as [|t idx Hs IH Ht]; intros [|v vs];
    try constructor.
  - apply IH.
  - rewrite Forall_forall in *. intros t' Hin.
    apply list_elem_of_fmap in Hin as ([t'' v''] & -> & Hin).
    apply Ht. by eapply elem_of_zip_l.
Qed.

(** Rows in chronological order are left as they are. *)
Lemma sort_index_sorted s :
  StronglySorted ts_lt (fst <$> s) -> sort_index s = s.
Proof.
  induction s as [|r s IH]; [done|].
  rewrite fmap_cons. intros [Hr Hs]%StronglySorted_cons.
  cbn [sort_index foldr]. fold (sort_index s). rewrite (IH Hs).
  destruct s as [|r' s']; [done|]. cbn [insert_row].
  rewrite fmap_cons in Hr. apply Forall_cons in Hr as [Hlt _].
  destruct (decide (ts_lt (fst r') (fst r))) as [Hgt|_]; [|done].
  exfalso. by apply (ts_lt_irrefl (fst r)), (ts_lt_trans _ (fst r')).
Qed.

Lemma in_bin_sorted i s :
  StronglySorted ts_lt (fst <$> s) -> in_bin i s = month_cells i s.
Proof. intros Hs. unfold in_bin. by rewrite sort_index_sorted. Qed.

Lemma filter_eqb_NoDup bs i :
  NoDup bs -> i ∈ bs -> List.filter (fun j => j =? i) bs = [i].
Proof.
  induction 1 as [|j bs Hj Hnd IH]; intros Hin; [by apply elem_of_nil in Hin|].
  cbn [List.filter]. destruct (Z.eqb_spec j i) as [->|Hne].
  - f_equal. clear IH Hin. induction bs as [|x bs IH]; [done|].
    rewrite not_elem_of_cons in Hj. destruct Hj as [Hx Hj].
    apply NoDup_cons in Hnd as [_ Hnd]. cbn [List.filter].
    destruct (Z.eqb_spec x i); [congruence|]. by apply IH.
  - apply elem_of_cons in Hin as [->|Hin]; [done|]. by apply IH.
Qed.

(** In a frame labelled by the starts of consecutive months, the bin of
    a month holds the one cell of that month. *)
Lemma in_bin_month_start (f : Z -> float) lo n i :
  i ∈ seqZ lo n ->
  in_bin i (zip (month_start <$> seqZ lo n) (f <$> seqZ lo n)) = [f i].
Proof.
  intros Hin.
  rewrite in_bin_sorted by apply sorted_zip_dates, month_starts_sorted.
  pose proof (NoDup_seqZ lo n) as Hnd. revert Hnd Hin.
  generalize (seqZ lo n). intros bs Hnd Hin. unfold month_cells.
  assert (E : zip (month_start <$> bs) (f <$> bs)
              = (fun j => (month_start j, f j)) <$> bs).
  { clear. induction bs as [|j bs IH]; [done|]. cbn. by rewrite <- IH. }
  rewrite E. clear E.
  assert (E : List.filter (fun item : Timestamp * float => month_index (fst item) =? i)
                          ((fun j => (month_start j, f j)) <$> bs)
              = (fun j => (month_start j, f j)) <$> List.filter (fun j => j =? i) bs).
  { clear. induction bs as [|j bs IH]; [done|].
    cbn [fmap list_fmap List.filter fst]. fold (@fmap list _).
    rewrite month_index_start. destruct (j =? i); [|exact IH].
    cbn [fmap list_fmap]. f_equal. exact IH. }
  rewrite E, filter_eqb_NoDup by done. done.
Qed.

Lemma first_valid_singleton v : first_valid [v] = v.
Proof. rewrite first_valid_cons. by destruct v. Qed.

Lemma resample_column_again idx lo n col :
  resample_column (month_start <$> seqZ lo n) (seqZ lo n)
                  (resample_column idx (seqZ lo n) col)
  = resample_column idx (seqZ lo n) col.
Proof.
  unfold resample_column. cbn [fst snd]. f_equal.
  apply list_fmap_ext. intros k i Hk.
  rewrite (in_bin_month_start (fun i => first_valid (in_bin i (zip idx (snd col)))))
    by (by eapply list_elem_of_lookup_2).
  apply first_valid_singleton.
Qed.

Lemma get_column_resample idx bs cols name :
  get_column (resample_column idx bs <$> cols) name
  = (fun vs => (fun i => first_valid (in_bin i (zip idx vs))) <$> bs)
      <$> get_column cols name.
Proof.
  induction cols as [|[n vs] cols IH]; [done|].
  cbn [fmap list_fmap get_column resample_column fst snd]. fold (@fmap list _).
  destruct (decide (n = name)); [done|]. apply IH.
Qed.

(** The first cell of a month, in row order, that is not NaN; NaN when
    the month has none. *)
Lemma first_valid_month_cells i s c :
  first_valid (month_cells i s) = c ->
  (c <> NaN ->
   exists s1 t s2, s = s1 ++ (t, c) :: s2 /\ month_index t = i
                   /\ forall item, item ∈ s1 -> month_index (fst item) = i ->
                                   snd item = NaN)
  /\ (c = NaN ->
      forall item, item ∈ s -> month_index (fst item) = i -> snd item = NaN).
Proof.
  induction s as [|[t0 v0] s IH].
  - intros <-. split; [done|]. intros _ item H. by apply elem_of_nil in H.
  - rewrite month_cells_cons. destruct (Z.eqb_spec (month_index t0) i) as [Hm|Hm].
    + rewrite first_valid_cons. destruct (notna v0) eqn:Ev.
      * intros <-. split.
        -- intros _. exists [], t0, s. split; [done|]. split; [done|].
           intros item H. by apply elem_of_nil in H.
        -- intros ->. done.
      * assert (v0 = NaN) as -> by (by destruct v0).
        intros Hc. destruct (IH Hc) as [IH1 IH2]. split.
        -- intros Hn. destruct (IH1 Hn) as (s1 & t & s2 & -> & Ht & Hs1).
           exists ((t0, NaN) :: s1), t, s2. split; [done|]. split; [done|].
           intros item [->|Hin]%elem_of_cons; [done|]. by apply Hs1.
        -- intros Hn item [->|Hin]%elem_of_cons; [done|]. by apply IH2.
    + intros Hc. destruct (IH Hc) as [IH1 IH2]. split.
      * intros Hn. destruct (IH1 Hn) as (s1 & t & s2 & -> & Ht & Hs1).
        exists ((t0, v0) :: s1), t, s2. split; [done|]. split; [done|].
        intros item [->|Hin]%elem_of_cons; [done|]. by apply Hs1.
      * intros Hn item [->|Hin]%elem_of_cons; [done|]. by apply IH2.
Qed.

End resampling.

(** ** Claims about the resampling *)

(** C7.  Resampling is idempotent: resampling a resampled frame, which
    has one row per calendar month, gives that frame back unchanged. *)
Theorem resample_first_idempotent data :
  resample_first (resample_first data) = resample_first data.
Proof.
  unfold resample_first. cbn [index columns].
  destruct (bins_seqZ (index data)) as (lo & n & E). rewrite E.
  rewrite bins_month_start. f_equal.
  rewrite <- list_fmap_compose. apply list_fmap_ext. intros k col _.
  cbn [compose]. apply resample_column_again.
Qed.

(** C9 (as the code has it).  On a frame in chronological order, every
    row of the resampled frame is labelled with the first day of a
    calendar month, and its cell in a column is the price of the earliest
    observation of that month with a defined price, NaN when the month
    has none.  Every month from the first to the last observation has a
    row, also a month without any valid observation. *)
Theorem resample_first_labels_and_cells data name vs :
  StronglySorted ts_lt (index data) ->
  get_column (columns data) name = Some vs ->
  exists cells,
    get_column (columns (resample_first data)) name = Some cells
    /\ length cells = length (index (resample_first data))
    /\ (forall t1 t2 i,
           t1 ∈ index data -> t2 ∈ index data ->
           month_index t1 <= i <= month_index t2 ->
           month_start i ∈ index (resample_first data))
    /\ forall k label c,
        index (resample_first data) !! k = Some label ->
        cells !! k = Some c ->
        label = month_start (month_index label)
        /\ (c <> NaN ->
            exists t,
              (t, c) ∈ zip (index data) vs
              /\ month_index t = month_index label
              /\ forall t' v',
                  (t', v') ∈ zip (index data) vs ->
                  month_index t' = month_index label ->
                  ts_lt t' t -> v' = NaN)
        /\ (c = NaN ->
            forall t' v',
              (t', v') ∈ zip (index data) vs ->
              month_index t' = month_index label -> v' = NaN).
Proof.
  intros Hsorted Hcol. unfold resample_first. cbn [index columns].
  rewrite get_column_resample, Hcol. cbn [fmap option_fmap option_map].
  exists ((fun i => first_valid (in_bin i (zip (index data) vs))) <$> bins (index data)).
  split; [reflexivity|]. split; [by rewrite !length_fmap|]. split.
  - intros t1 t2 i H1 H2 Hi. apply list_elem_of_fmap_2.
    apply (bins_interval _ (month_index t1) (month_index t2));
      [by apply bins_covers..|done].
  - intros k label c Hk Hc.
    rewrite list_lookup_fmap in Hk. rewrite list_lookup_fmap in Hc.
    destruct (bins (index data) !! k) as [i|] eqn:Ei; [|done].
    cbn in Hk, Hc. simplify_eq.
    rewrite month_index_start. split; [done|].
    pose proof (sorted_zip_dates _ vs Hsorted) as Hs.
    remember (zip (index data) vs) as s eqn:Es0. clear Es0.
    rewrite (in_bin_sorted i s Hs).
    remember (first_valid (month_cells i s)) as c eqn:Ec. symmetry in Ec.
    destruct (first_valid_month_cells i s c Ec) as [H1 H2]. clear Ec.
    split.
    + intros Hn. destruct (H1 Hn) as (s1 & t & s2 & Es & Ht & Hs1).
      exists t. split; [rewrite Es; apply elem_of_app; right; by left|].
      split; [done|]. intros t' v' Hin Hm Hlt.
      rewrite Es in Hin. apply elem_of_app in Hin as [Hin|Hin].
      { by apply (Hs1 (t', v')). }
      exfalso. rewrite Es, fmap_app, fmap_cons in Hs. cbn [fst] in Hs.
      apply StronglySorted_app in Hs as (_ & _ & Hs).
      apply StronglySorted_cons in Hs as [Hs _]. rewrite Forall_forall in Hs.
      apply elem_of_cons in Hin as [[= -> ->]|Hin].
      * by apply ts_lt_irrefl in Hlt.
      * apply (ts_lt_irrefl t), (ts_lt_trans _ t'); [|done].
        apply Hs. by apply (list_elem_of_fmap_2 fst _ (t', v')).
    + intros Hn t' v' Hin Hm. by apply (H2 Hn (t', v')).
Qed.

Lemma resample_first_labels_and_cells_witness :
  exists cells,
    get_column (columns (resample_first data_daily)) "A" = Some cells
    /\ length cells = length (index (resample_first data_daily))
    /\ (forall t1 t2 i,
           t1 ∈ index data_daily -> t2 ∈ index data_daily ->
           month_index t1 <= i <= month_index t2 ->
           month_start i ∈ index (resample_first data_daily))
    /\ forall k label c,
        index (resample_first data_daily) !! k = Some label ->
        cells !! k = Some c ->
        label = month_start (month_index label)
        /\ (c <> NaN ->
            exists t,
              (t, c) ∈ zip (index data_daily) daily_prices
              /\ month_index t = month_index label
              /\ forall t' v',
                  (t', v') ∈ zip (index data_daily) daily_prices ->
                  month_index t' = month_index label ->
                  ts_lt t' t -> v' = NaN)
        /\ (c = NaN ->
            forall t' v',
              (t', v') ∈ zip (index data_daily) daily_prices ->
              month_index t' = month_index label -> v' = NaN).
Proof.
  apply (resample_first_labels_and_cells data_daily "A" daily_prices).
  - apply (bool_decide_unpack _). vm_compute. reflexivity.
  - reflexivity.
Defined.

(** C9, refuted as stated: the observations are on January 15 (price
    missing), January 20 and March 2.  The resampled rows are labelled
    January 1, February 1 and March 1: none of them is the timestamp of
    an observation, and February, which has no observation, is present
    with a NaN cell. *)
Lemma resample_labels_are_month_starts :
  index (resample_first data_daily) = [jan1; feb1; mar1]
  /\ get_column (columns (resample_first data_daily)) "A"
     = Some [Fin (of_int 3); NaN; Fin (of_int 4)]
  /\ jan20 ∈ index data_daily
  /\ Forall (fun label => label ∉ index data_daily) (index (resample_first data_daily)).
Proof.
  split; [reflexivity|]. split; [reflexivity|]. split; [right; left|].
  apply (bool_decide_unpack _). vm_compute. reflexivity.
Qed.

(** Rows that are not in chronological order: the cell of January is
    the price of January 15, the earlier of the two observations. *)
Lemma resample_first_unsorted_rows :
  index (resample_first data_unsorted) = [jan1]
  /\ get_column (columns (resample_first data_unsorted)) "A"
     = Some [Fin (of_int 3)].
Proof. split; reflexivity. Qed.

(** * Further properties *)

(** ** More on [calculate_portfolio] *)

Section simulator_more.
Local Open Scope Qc_scope.
Variable c : Qc.
Local Arguments round64 : simpl never.

Lemma nonzero_finite_spec x :
  nonzero_finite x = true <-> exists q, x = Fin q /\ q <> 0.
Proof.
  split.
  - destruct x as [q| | |]; cbn; try done.
    destruct (Qc_sign q) eqn:E; try done; intros _; exists q; split; try done;
      intros ->; by vm_compute in E.
  - intros (q & -> & Hq). cbn. destruct (Qc_sign q) eqn:E; try done.
    by apply Qc_sign_zero in E.
Qed.

Lemma nonzero_finite_no_zero (l : Series) :
  forallb (fun item => nonzero_finite (snd item)) l = true ->
  no_zero_price l = true.
Proof.
  unfold no_zero_price. rewrite !forallb_elem. intros H item Hin.
  specialize (H item Hin). apply nonzero_finite_spec in H as (q & -> & Hq).
  simpl. destruct (Qc_sign q) eqn:E; try done. by apply Qc_sign_zero in E.
Qed.

(** Row [k] of the invested totals is [c * (k + 1)]. *)
Lemma iterations_total_lookup st (l : Series) k a :
  iterations c st l !! k = Some a ->
  total_invested a = total_invested st + c * of_int (Z.of_nat (S k)).
Proof.
  revert st k. induction l as [|[d p] l IH]; intros st k Hk; [done|].
  cbn [iterations] in Hk.
  destruct (buy c st (d, p)) as [st1|e] eqn:E; [|done].
  apply buy_inv in E as (_ & _ & _ & Ht & _).
  destruct k as [|k].
  - simpl in Hk. simplify_eq. rewrite Ht. change (Z.of_nat 1) with 1%Z.
    rewrite of_int_1. ring.
  - simpl in Hk. rewrite (IH _ _ Hk), Ht, (of_int_succ (S k)). ring.
Qed.

(** The shares owned stay a binary64 number that is not negative, or
    the positive infinity, as long as the contribution is not negative
    and the prices are positive. *)
Lemma iterations_shares_nonneg st (l : Series) k a :
  0 <= c ->
  fle (Fin 0) (shares_owned st) -> shares_ok (shares_owned st) ->
  (forall item, item ∈ l -> positive_price (snd item) = true) ->
  iterations c st l !! k = Some a ->
  fle (Fin 0) (shares_owned a) /\ shares_ok (shares_owned a).
Proof.
  intros Hc. revert st k. induction l as [|[d p] l IH]; intros st k H0 Hok Hpos Hk;
    [done|].
  cbn [iterations] in Hk.
  destruct (buy c st (d, p)) as [st1|e] eqn:E; [|done].
  assert (Hp : positive_price p = true) by (apply (Hpos (d, p)); left).
  apply positive_price_spec in Hp as (q & -> & Hq).
  apply buy_inv in E as (Hr & _ & Hs & _).
  unfold in_float_range in Hr.
  pose proof (round64_nonneg c Hc) as Hc'.
  destruct (round64 c) as [c'| | |] eqn:Ec; try done. simpl in Hc'.
  destruct (purchase_shares (shares_owned st) c' q Hok Hc' Hq) as [Hle Hok1].
  rewrite <- Hs in Hle, Hok1.
  assert (H1 : fle (Fin 0) (shares_owned st1)) by (by eapply fle_trans).
  destruct k as [|k].
  - simpl in Hk. by simplify_eq.
  - simpl in Hk. eapply (IH st1 k); [done..| |exact Hk].
    intros item Hin. apply Hpos. by right.
Qed.

(** With a contribution of zero nothing is bought. *)
Lemma zero_contribution_loop st (l : Series) :
  c = 0 ->
  shares_owned st = Fin 0 -> total_invested st = 0 ->
  forallb (fun item => nonzero_finite (snd item)) l = true ->
  (fun item : Acc * (Timestamp * float) =>
     fmul (shares_owned (fst item)) (snd (snd item))) <$> zip (iterations c st l) l
  = replicate (length l) (Fin 0)
  /\ Fin <$> (total_invested <$> iterations c st l) = replicate (length l) (Fin 0).
Proof.
  intros ->. revert st. induction l as [|[d x] l IH]; intros st Hs Ht Hall; [done|].
  cbn [forallb snd] in Hall. apply andb_prop in Hall as [Hx Hall].
  apply nonzero_finite_spec in Hx as (p & -> & Hp).
  assert (Hz : is_zero (Fin p) = false).
  { simpl. destruct (Qc_sign p) eqn:E; try done. by apply Qc_sign_zero in E. }
  destruct (buy_returns 0 st d (Fin p) eq_refl Hz) as [b Hb].
  rewrite (iterations_cons 0 st (d, Fin p) l b Hb).
  destruct (buy_inv 0 st d (Fin p) b Hb) as (_ & _ & Hsb & Htb & _).
  assert (Hsb' : shares_owned b = Fin 0).
  { rewrite Hsb, Hs, round64_0, fdiv_finite by done. unfold Qcdiv.
    rewrite Qcmult_0_l, round64_0. cbn [fadd]. by rewrite Qcplus_0_l, round64_0. }
  assert (Htb' : total_invested b = 0) by (rewrite Htb, Ht; ring).
  destruct (IH b Hsb' Htb' Hall) as [IH1 IH2].
  cbn [zip zip_with fmap list_fmap length replicate fst snd]. split.
  - f_equal; [|exact IH1]. rewrite Hsb'. cbn [fmul].
    by rewrite Qcmult_0_l, round64_0.
  - f_equal; [|exact IH2]. by rewrite Htb'.
Qed.
End simulator_more.

Section simulator_shape.
Local Open Scope Qc_scope.
Variable c : Qc.

Lemma filter_sublist {A} (f : A -> bool) (l : list A) : sublist (List.filter f l) l.
Proof.
  induction l as [|x l IH]; cbn [List.filter]; [constructor|].
  destruct (f x); by constructor.
Qed.

Lemma zip_fst_sublist {A B} (l : list A) (k : list B) : sublist (fst <$> zip l k) l.
Proof.
  revert k. induction l as [|x l IH]; intros [|y k]; cbn; try constructor.
  - apply sublist_nil_l.
  - apply IH.
Qed.

Lemma sorted_sublist (l k : list Timestamp) :
  sublist l k -> StronglySorted ts_lt k -> StronglySorted ts_lt l.
Proof.
  induction 1 as [|x l k Hsub IH|x l k Hsub IH]; intros Hk; [done|..].
  - apply StronglySorted_cons in Hk as [Hx Hk]. apply StronglySorted_cons.
    split; [|by apply IH].
    rewrite Forall_forall in *. intros y Hy. apply Hx.
    by eapply elem_of_sublist.
  - apply StronglySorted_cons in Hk as [_ Hk]. by apply IH.
Qed.

Lemma simulate_aligned series df :
  simulate series c = Returned df -> aligned_frame df.
Proof.
  intros Hdf. unfold aligned_frame.
  pose proof (simulate_iterations c series df Hdf) as Hlen.
  pose proof (simulate_total_column c series df Hdf) as Ht.
  pose proof (simulate_value_column c series df Hdf) as Hv.
  rewrite (simulate_index c series df Hdf).
  apply simulate_inv in Hdf as (st & Hst & ->).
  cbn [result_frame columns] in *. cbn in Ht, Hv.
  apply (inj Some) in Ht. apply (inj Some) in Hv.
  repeat constructor; cbn [snd].
  - rewrite Ht. by rewrite !length_fmap.
  - rewrite Hv. rewrite !length_fmap, length_zip_with. lia.
Qed.

Lemma column_dates_sublist data name series :
  column data name = Some series -> sublist (fst <$> dropna series) (index data).
Proof.
  unfold column. destruct (get_column (columns data) name) as [vs|]; [|done].
  intros [= <-]. etrans; [|apply (zip_fst_sublist _ vs)].
  apply fmap_sublist, filter_sublist.
Qed.

Lemma result_index_sorted data ticker_symbol df :
  StronglySorted ts_lt (index data) ->
  calculate_portfolio data ticker_symbol c = Returned df ->
  StronglySorted ts_lt (index df).
Proof.
  intros Hs. unfold calculate_portfolio.
  destruct (column data ticker_symbol) as [series|] eqn:E.
  - intros Hdf. rewrite (simulate_index c series df Hdf).
    eapply sorted_sublist; [|exact Hs]. by eapply column_dates_sublist.
  - intros [= <-]. constructor.
Qed.

(** The three outcomes of [simulate]. *)
Lemma simulate_raised series e :
  simulate series c = Raised e
  <-> dropna series <> []
      /\ ((in_float_range c = false /\ e = OverflowError)
          \/ (in_float_range c = true /\ no_zero_price (dropna series) = false
              /\ e = ZeroDivisionError)).
Proof.
  unfold simulate. split.
  - intros H. assert (Hne : dropna series <> []).
    { intros E. by rewrite E in H. }
    split; [done|].
    destruct (in_float_range c) eqn:Hc.
    + right. split; [done|].
      destruct (no_zero_price (dropna series)) eqn:Hz.
      * destruct (run_loop_returns c acc_init _ Hc Hz) as [st Hst].
        by rewrite Hst in H.
      * rewrite (run_loop_zero c acc_init _ Hc Hz) in H. by injection H as <-.
    + left. rewrite (run_loop_overflow c acc_init _ Hc Hne) in H.
      by injection H as <-.
  - intros [Hne [[Hc ->]|(Hc & Hz & ->)]].
    + by rewrite (run_loop_overflow c acc_init _ Hc Hne).
    + by rewrite (run_loop_zero c acc_init _ Hc Hz).
Qed.
End simulator_shape.

(** X1.  [calculate_portfolio] returns an empty frame exactly when the
    symbol has no column in [data] or the column has no defined price. *)
Theorem calculate_portfolio_empty_iff data ticker_symbol (c : Qc) :
  (exists df, calculate_portfolio data ticker_symbol c = Returned df
              /\ frame_empty df = true)
  <-> column data ticker_symbol = None
      \/ exists series, column data ticker_symbol = Some series /\ dropna series = [].
Proof.
  unfold calculate_portfolio.
  destruct (column data ticker_symbol) as [series|].
  - split.
    + intros (df & Hdf & He). right. exists series. split; [done|].
      pose proof (simulate_index c series df Hdf) as Hi.
      unfold frame_empty in He.
      apply simulate_inv in Hdf as (st & _ & ->). cbn [result_frame columns index] in *.
      destruct (dates st) eqn:Ed; [|done].
      symmetry in Hi. by apply fmap_nil_inv in Hi.
    + intros [H|(s & [= <-] & H)]; [done|].
      exists (result_frame acc_init). unfold simulate. by rewrite H.
  - split; [by left|]. intros _. by exists empty_frame.
Qed.

(** X2.  A frame that [calculate_portfolio] returns has one cell per
    row in both columns, and its index is taken from the index of
    [data], rows kept in their order. *)
Theorem calculate_portfolio_shape data ticker_symbol (c : Qc) df :
  calculate_portfolio data ticker_symbol c = Returned df ->
  aligned_frame df /\ sublist (index df) (index data).
Proof.
  unfold calculate_portfolio.
  destruct (column data ticker_symbol) as [series|] eqn:E.
  - intros Hdf. split; [by eapply simulate_aligned|].
    rewrite (simulate_index c series df Hdf). by eapply column_dates_sublist.
  - intros [= <-]. split; [constructor | apply sublist_nil_l].
Qed.

Lemma calculate_portfolio_shape_witness :
  aligned_frame (frame_of (calculate_portfolio data_sparse "B" (of_int 100)))
  /\ sublist (index (frame_of (calculate_portfolio data_sparse "B" (of_int 100))))
             (index data_sparse).
Proof.
  apply (calculate_portfolio_shape data_sparse "B" (of_int 100)).
  vm_compute. reflexivity.
Defined.

(** X3.  With a contribution that can be converted to a float and no
    defined price of zero, the call returns and row [k] of the
    ["Total Invested"] column, counted from 0, holds [(k + 1)] times the
    contribution. *)
Theorem total_invested_closed_form series (c : Qc) (k : nat) :
  in_float_range c = true ->
  no_zero_price (dropna series) = true ->
  (k < length (dropna series))%nat ->
  exists df cells,
    simulate series c = Returned df
    /\ get_column (columns df) TOTAL_INVESTED = Some cells
    /\ cells !! k = Some (Fin (c * of_int (Z.of_nat (S k)))%Qc).
Proof.
  intros Hc Hz Hk. destruct (simulate_returns c series Hc Hz) as [df Hdf].
  exists df. eexists. split; [done|].
  split; [exact (simulate_total_column c series df Hdf)|].
  destruct (lookup_lt_is_Some_2 (iterations c acc_init (dropna series)) k) as [a Ha].
  { by rewrite (simulate_iterations c series df Hdf). }
  rewrite !list_lookup_fmap, Ha. cbn. do 2 f_equal.
  rewrite (iterations_total_lookup c _ _ _ _ Ha). cbn [total_invested acc_init].
  by rewrite Qcplus_0_l.
Qed.

Lemma total_invested_closed_form_witness :
  exists df cells,
    simulate series_with_gap (of_int 100) = Returned df
    /\ get_column (columns df) TOTAL_INVESTED = Some cells
    /\ cells !! 1%nat = Some (Fin (of_int 100 * of_int (Z.of_nat 2))%Qc).
Proof.
  apply (total_invested_closed_form series_with_gap (of_int 100) 1);
    [vm_compute; reflexivity | vm_compute; reflexivity | vm_compute; lia].
Defined.

(** X5.  With a contribution that is not negative and strictly positive
    prices, no cell of the ["Portfolio Value"] column is negative or
    NaN: it is a number that is not negative, or the positive infinity
    when a product or a quotient has overflowed. *)
Theorem portfolio_value_nonnegative series (c : Qc) df cells k x :
  (0 <= c)%Qc ->
  forallb (fun item => positive_price (snd item)) (dropna series) = true ->
  simulate series c = Returned df ->
  get_column (columns df) PORTFOLIO_VALUE = Some cells ->
  cells !! k = Some x ->
  fle (Fin 0%Qc) x.
Proof.
  intros Hc Hpos Hdf Hcol Hk.
  rewrite (simulate_value_column c series df Hdf) in Hcol.
  apply (inj Some) in Hcol. subst cells.
  rewrite list_lookup_fmap in Hk.
  destruct (zip (iterations c acc_init (dropna series)) (dropna series) !! k)
    as [[a [d p]]|] eqn:Ez; [|done].
  cbn in Hk. apply (inj Some) in Hk. subst x.
  apply lookup_zip_with_Some in Ez as (a' & item & [= <- <-] & Ha & Hp).
  rewrite forallb_elem in Hpos.
  assert (Hpp : positive_price p = true).
  { apply (Hpos (d, p)). by eapply list_elem_of_lookup_2. }
  apply positive_price_spec in Hpp as (q & -> & Hq).
  destruct (iterations_shares_nonneg c acc_init (dropna series) k a Hc) as [H0 Hok].
  - simpl. apply Qcle_refl.
  - right. by exists 0%Qc.
  - exact Hpos.
  - exact Ha.
  - destruct (shares_owned a) as [s| | |]; try done.
    + cbn [fmul]. apply round64_nonneg. simpl in H0.
      apply Qcmult_nonneg_nonneg; [done | by apply Qclt_le_weak].
    + cbn [fmul]. unfold inf_scaled. apply Qc_sign_pos in Hq. by rewrite Hq.
Qed.

Lemma portfolio_value_nonnegative_witness :
  fle (Fin 0%Qc) (Fin (of_int 100)).
Proof.
  apply (portfolio_value_nonnegative series_flat (of_int 100)
           (frame_of (simulate series_flat (of_int 100)))
           [Fin (of_int 100); Fin (of_int 200); Fin (of_int 300)] 0
           (Fin (of_int 100))).
  - by vm_compute.
  - reflexivity.
  - vm_compute. reflexivity.
  - assert (E : from_option
                  (fun cells =>
                     cells_eqb cells
                               [Fin (of_int 100); Fin (of_int 200); Fin (of_int 300)])
                  false
                  (get_column (columns (frame_of (simulate series_flat (of_int 100))))
                              PORTFOLIO_VALUE) = true) by (vm_compute; reflexivity).
    destruct (get_column _ _) as [cells|]; [|done]. f_equal. by apply cells_eqb_eq.
  - reflexivity.
Defined.

(** X6.  With a contribution of zero and finite prices other than zero
    the call returns and both columns hold zero in every row. *)
Theorem zero_contribution_is_flat series :
  forallb (fun item => nonzero_finite (snd item)) (dropna series) = true ->
  exists df,
    simulate series 0%Qc = Returned df
    /\ get_column (columns df) PORTFOLIO_VALUE
       = Some (replicate (length (dropna series)) (Fin 0%Qc))
    /\ get_column (columns df) TOTAL_INVESTED
       = Some (replicate (length (dropna series)) (Fin 0%Qc)).
Proof.
  intros Hall.
  destruct (simulate_returns 0%Qc series eq_refl (nonzero_finite_no_zero _ Hall))
    as [df Hdf].
  exists df. split; [done|].
  rewrite (simulate_value_column _ series df Hdf),
    (simulate_total_column _ series df Hdf).
  destruct (zero_contribution_loop 0%Qc acc_init (dropna series)) as [Hv Ht]; try done.
  by rewrite Hv, Ht.
Qed.

Lemma zero_contribution_is_flat_witness :
  exists df,
    simulate series_mixed 0%Qc = Returned df
    /\ get_column (columns df) PORTFOLIO_VALUE
       = Some (replicate (length (dropna series_mixed)) (Fin 0%Qc))
    /\ get_column (columns df) TOTAL_INVESTED
       = Some (replicate (length (dropna series_mixed)) (Fin 0%Qc)).
Proof. apply (zero_contribution_is_flat series_mixed). reflexivity. Defined.

(** X7.  [calculate_portfolio] raises exactly when the symbol has a
    column with a defined price and either the contribution is too large
    to be converted to a float, which raises [OverflowError] at the
    first purchase, or it can be converted and a defined price is zero,
    which raises [ZeroDivisionError] at that price. *)
Theorem calculate_portfolio_raises_iff data ticker_symbol (c : Qc) e :
  calculate_portfolio data ticker_symbol c = Raised e
  <-> exists series,
        column data ticker_symbol = Some series
        /\ dropna series <> []
        /\ ((in_float_range c = false /\ e = OverflowError)
            \/ (in_float_range c = true /\ no_zero_price (dropna series) = false
                /\ e = ZeroDivisionError)).
Proof.
  unfold calculate_portfolio.
  destruct (column data ticker_symbol) as [series|].
  - rewrite simulate_raised. split.
    + intros H. by exists series.
    + by intros (s & [= <-] & H).
  - split; [done|]. by intros (s & ? & _).
Qed.

(** A price of zero in the second month: no frame is returned. *)
Lemma calculate_portfolio_zero_price :
  calculate_portfolio data_zero "Z" (of_int 100) = Raised ZeroDivisionError.
Proof. vm_compute. reflexivity. Qed.

(** X8.  On a frame in chronological order a result of
    [calculate_portfolio] is in chronological order too. *)
Theorem calculate_portfolio_index_sorted data ticker_symbol (c : Qc) df :
  StronglySorted ts_lt (index data) ->
  calculate_portfolio data ticker_symbol c = Returned df ->
  StronglySorted ts_lt (index df).
Proof. apply result_index_sorted. Qed.

Lemma calculate_portfolio_index_sorted_witness :
  StronglySorted ts_lt
    (index (frame_of (calculate_portfolio data_sparse "B" (of_int 100)))).
Proof.
  apply (calculate_portfolio_index_sorted data_sparse "B" (of_int 100)).
  - apply (bool_decide_unpack _). vm_compute. reflexivity.
  - vm_compute. reflexivity.
Defined.

(** ** More on [load_data] *)

Section resampling_more.

Lemma resample_index_sorted data :
  StronglySorted ts_lt (index (resample_first data)).
Proof.
  unfold resample_first. cbn [index].
  destruct (bins_seqZ (index data)) as (lo & n & ->).
  apply month_starts_sorted.
Qed.

Lemma bins_nil idx : bins idx = [] <-> idx = [].
Proof.
  split; [|by intros ->].
  destruct idx as [|t idx]; [done|]. intros H. exfalso.
  assert (Hin : month_index t ∈ bins (t :: idx)) by (apply bins_covers; by left).
  rewrite H in Hin. by apply elem_of_nil in Hin.
Qed.

Lemma load_data_cases (ticker_dict : Dict) downloaded :
  load_data ticker_dict downloaded = empty_frame
  \/ exists data, load_data ticker_dict downloaded = resample_first data.
Proof.
  unfold load_data. destruct ticker_dict as [|[n s] rest]; [by left|].
  right. by eexists.
Qed.

Lemma load_data_sorted (ticker_dict : Dict) downloaded :
  StronglySorted ts_lt (index (load_data ticker_dict downloaded)).
Proof.
  destruct (load_data_cases ticker_dict downloaded) as [->|(data & ->)].
  - constructor.
  - apply resample_index_sorted.
Qed.
End resampling_more.


(** X11.  The resampled frame is empty exactly when the frame it was
    made from is empty, so that the test [data.empty] of the main block
    sees what was downloaded. *)
Theorem resample_first_empty data :
  frame_empty (resample_first data) = frame_empty data.
Proof.
  unfold frame_empty, resample_first. cbn [index columns].
  destruct (index data) as [|t idx] eqn:Ei; [done|].
  destruct (bins (t :: idx)) as [|b bs] eqn:Eb.
  - by apply bins_nil in Eb.
  - cbn. by destruct (columns data).
Qed.

(** X12.  When a bare series was downloaded, the frame built from it has
    a column for the first symbol of the mapping only: the first symbol
    is simulated on the resampled series, for every other symbol
    [calculate_portfolio] returns the empty frame. *)
Theorem load_data_single_series name symbol0 (rest : Dict) (s : Series) (c : Qc) :
  is_Some (column (load_data ((name, symbol0) :: rest) (AsSeries s)) symbol0)
  /\ forall symbol,
      symbol <> symbol0 ->
      calculate_portfolio (load_data ((name, symbol0) :: rest) (AsSeries s)) symbol c
      = Returned empty_frame.
Proof.
  unfold load_data, to_frame, resample_first, calculate_portfolio, column.
  cbn [index columns fmap list_fmap resample_column fst snd get_column].
  split.
  - by rewrite decide_True.
  - intros symbol Hne. by rewrite decide_False.
Qed.

Lemma load_data_single_series_witness :
  is_Some (column (load_data tickers_ab (AsSeries series_with_gap)) "A")
  /\ forall symbol,
      symbol <> "A"%string ->
      calculate_portfolio (load_data tickers_ab (AsSeries series_with_gap)) symbol
                          (of_int 100)
      = Returned empty_frame.
Proof. apply (load_data_single_series "a" "A" [("b", "B")]%string). Defined.

(** X13.  Every simulation result computed from the frame of
    [load_data] is in chronological order, whatever was downloaded. *)
Theorem pipeline_results_sorted (ticker_dict : Dict) downloaded symbol (c : Qc) df :
  calculate_portfolio (load_data ticker_dict downloaded) symbol c = Returned df ->
  StronglySorted ts_lt (index df).
Proof. apply result_index_sorted, load_data_sorted. Qed.

Lemma pipeline_results_sorted_witness :
  StronglySorted ts_lt
    (index (frame_of (calculate_portfolio
                        (load_data tickers_ab (AsSeries series_with_gap)) "A"
                        (of_int 100)))).
Proof.
  apply (pipeline_results_sorted tickers_ab (AsSeries series_with_gap) "A" (of_int 100)).
  vm_compute. reflexivity.
Defined.

(** ** More on the selection and its de-duplication *)

Section selection.
Implicit Types (l d : Dict) (seen : gset string).

Lemma dict_set_keys d k v :
  fst <$> dict_set d k v
  = if decide (k ∈ (fst <$> d)) then fst <$> d else (fst <$> d) ++ [k].
Proof.
  induction d as [|[k' v'] d IH]; [done|].
  cbn [dict_set]. destruct (decide (k' = k)) as [->|Hne].
  - rewrite !fmap_cons. cbn [fst]. rewrite decide_True; [done | by left].
  - rewrite !fmap_cons. cbn [fst]. rewrite IH.
    destruct (decide (k ∈ (fst <$> d))) as [Hin|Hin].
    + rewrite decide_True; [done | by right].
    + rewrite decide_False; [done|]. rewrite not_elem_of_cons. by split.
Qed.

Lemma dict_set_NoDup d k v : NoDup (fst <$> d) -> NoDup (fst <$> dict_set d k v).
Proof.
  intros Hd. rewrite dict_set_keys. destruct (decide _) as [Hin|Hin]; [done|].
  apply NoDup_app. split; [done|]. split; [|apply NoDup_singleton].
  intros x Hx ->%list_elem_of_singleton. done.
Qed.

Lemma dict_set_elem d k v e :
  e ∈ dict_set d k v -> e = (k, v) \/ e ∈ d.
Proof.
  induction d as [|[k' v'] d IH]; cbn [dict_set].
  - intros ->%list_elem_of_singleton. by left.
  - destruct (decide (k' = k)) as [->|Hne].
    + intros [->|Hin]%elem_of_cons; [by left|]. right. by right.
    + intros [->|Hin]%elem_of_cons; [right; by left|].
      destruct (IH Hin) as [->|Hd]; [by left|]. right. by right.
Qed.

Lemma dict_get_elem d k v : dict_get d k = Some v -> (k, v) ∈ d.
Proof.
  induction d as [|[k' v'] d IH]; [done|]. cbn [dict_get].
  destruct (decide (k' = k)) as [->|Hne].
  - intros [= ->]. by left.
  - intros H. right. by apply IH.
Qed.

Lemma add_custom_NoDup d custom :
  NoDup (fst <$> d) -> NoDup (fst <$> add_custom d custom).
Proof.
  unfold add_custom. revert d. induction custom as [|[n s] custom IH]; intros d Hd; [done|].
  cbn [foldl fst snd]. by apply IH, dict_set_NoDup.
Qed.

(** The comprehension yields distinct names, all taken from the table. *)
Lemma select_predefined_spec names d :
  select_predefined names = Some d ->
  NoDup (fst <$> d) /\ forall e, e ∈ d -> e ∈ PREDEFINED_TICKERS.
Proof.
  unfold select_predefined.
  assert (H : forall (acc : option Dict) d,
             (forall d0, acc = Some d0 ->
                         NoDup (fst <$> d0) /\ forall e, e ∈ d0 -> e ∈ PREDEFINED_TICKERS) ->
             foldl (fun acc name =>
                      d ← acc; symbol ← dict_get PREDEFINED_TICKERS name;
                      Some (dict_set d name symbol)) acc names = Some d ->
             NoDup (fst <$> d) /\ forall e, e ∈ d -> e ∈ PREDEFINED_TICKERS).
  { clear d. induction names as [|n names IH]; intros acc d Hacc Hd.
    - by apply Hacc.
    - cbn [foldl] in Hd. eapply IH; [|exact Hd].
      intros d1 Hd1. destruct acc as [d0|]; [|done].
      cbn [mbind option_bind] in Hd1.
      destruct (dict_get PREDEFINED_TICKERS n) as [s|] eqn:Es; [|done].
      cbn [mbind option_bind] in Hd1. apply (inj Some) in Hd1. subst d1.
      destruct (Hacc d0 eq_refl) as [Hnd Hsub]. split; [by apply dict_set_NoDup|].
      intros e [->|He]%dict_set_elem; [by apply dict_get_elem | by apply Hsub]. }
  apply H. intros d0 [= <-]. split; [constructor|].
  intros e He. by apply elem_of_nil in He.
Qed.

(** A list whose symbols are distinct and unseen is kept as it is. *)
Lemma keep_first_distinct seen l :
  NoDup (snd <$> l) -> (forall s, s ∈ (snd <$> l) -> s ∉ seen) ->
  keep_first seen l = l.
Proof.
  revert seen. induction l as [|[n s] l IH]; intros seen Hnd Hun; [done|].
  rewrite fmap_cons in Hnd. apply NoDup_cons in Hnd as [Hs Hnd]. cbn [snd] in Hs.
  cbn [keep_first]. rewrite decide_False by (apply Hun; by left).
  f_equal. apply IH; [done|]. intros s' Hs'.
  rewrite not_elem_of_union, elem_of_singleton. split.
  - intros ->. done.
  - apply Hun. by right.
Qed.

Lemma keep_first_symbols seen l s :
  s ∈ (snd <$> keep_first seen l) <-> (s ∉ seen) /\ s ∈ (snd <$> l).
Proof.
  revert seen. induction l as [|[n0 s0] l IH]; intros seen; cbn [keep_first].
  - split; [intros H; by apply elem_of_nil in H|]. intros [_ H]. by apply elem_of_nil in H.
  - destruct (decide (s0 ∈ seen)) as [Hs|Hs].
    + rewrite IH, fmap_cons, elem_of_cons. cbn [snd]. split; [tauto|].
      intros [Hn [->|Hin]]; tauto.
    + rewrite !fmap_cons, !elem_of_cons, IH, not_elem_of_union, elem_of_singleton.
      cbn [snd]. destruct (decide (s = s0)) as [->|Hne]; tauto.
Qed.

Lemma sublist_NoDup_fst l k : sublist l k -> NoDup (fst <$> k) -> NoDup (fst <$> l).
Proof. intros Hsub Hk. eapply sublist_NoDup; [exact Hk|]. by apply fmap_sublist. Qed.

Lemma deduplicate_names_NoDup l : NoDup (fst <$> l) -> NoDup (fst <$> deduplicate l).
Proof.
  intros Hnd. eapply sublist_NoDup_fst; [|exact Hnd].
  rewrite deduplicate_keep_first by done. apply keep_first_sublist.
Qed.

(** In the table of predefined tickers a symbol has one name. *)
Lemma predefined_symbols_NoDup : NoDup (snd <$> PREDEFINED_TICKERS).
Proof. apply (bool_decide_unpack _). vm_compute. reflexivity. Qed.

Lemma distinct_names_of_table d :
  NoDup (fst <$> d) -> (forall e, e ∈ d -> e ∈ PREDEFINED_TICKERS) ->
  NoDup (snd <$> d).
Proof.
  induction d as [|[n s] d IH]; intros Hnd Hsub; [constructor|].
  rewrite fmap_cons in *. apply NoDup_cons in Hnd as [Hn Hnd]. cbn [fst] in Hn.
  apply NoDup_cons. split; [|apply IH; [done|intros e He; apply Hsub; by right]].
  cbn [snd]. intros Hs. apply list_elem_of_fmap in Hs as ([n' s'] & Es & Hin).
  cbn [snd] in Es. subst s'.
  assert (H1 : (n, s) ∈ PREDEFINED_TICKERS) by (apply Hsub; by left).
  assert (H2 : (n', s) ∈ PREDEFINED_TICKERS) by (apply Hsub; by right).
  apply list_elem_of_lookup in H1 as [i Hi]. apply list_elem_of_lookup in H2 as [j Hj].
  assert (i = j).
  { apply (NoDup_lookup _ i j s predefined_symbols_NoDup);
      rewrite list_lookup_fmap; [by rewrite Hi | by rewrite Hj]. }
  subst j. rewrite Hi in Hj. injection Hj as <-.
  apply Hn. by apply (list_elem_of_fmap_2 fst _ (n, s)).
Qed.
End selection.

(** X14.  Whatever is selected and whatever custom tickers were added,
    the mapping the main block works with has pairwise distinct display
    names and pairwise distinct symbols. *)
Theorem selected_tickers_distinct selected_names custom_tickers tickers :
  selected_tickers_of selected_names custom_tickers = Some tickers ->
  NoDup (fst <$> tickers) /\ NoDup (snd <$> tickers).
Proof.
  unfold selected_tickers_of.
  destruct (select_predefined selected_names) as [d|] eqn:Ed; [|done].
  cbn. intros [= <-].
  destruct (select_predefined_spec _ _ Ed) as [Hnd _].
  pose proof (add_custom_NoDup d custom_tickers Hnd) as Hall.
  split; [by apply deduplicate_names_NoDup|].
  rewrite deduplicate_keep_first by done. apply keep_first_NoDup.
Qed.

Lemma selected_tickers_distinct_witness :
  NoDup (fst <$> [("Apple (AAPL)", "AAPL"); ("SPY (SPY)", "SPY")]%string)
  /\ NoDup (snd <$> [("Apple (AAPL)", "AAPL"); ("SPY (SPY)", "SPY")]%string).
Proof.
  apply (selected_tickers_distinct
           ["Apple (AAPL)"; "SPY (SPY)"]%string
           [("Apple Inc. (AAPL)", "AAPL")]%string).
  reflexivity.
Defined.

(** X15.  De-duplicating twice is de-duplicating once. *)
Theorem deduplicate_idempotent (selected_tickers : Dict) :
  NoDup (fst <$> selected_tickers) ->
  deduplicate (deduplicate selected_tickers) = deduplicate selected_tickers.
Proof.
  intros Hnd.
  rewrite (deduplicate_keep_first (deduplicate selected_tickers))
    by (by apply deduplicate_names_NoDup).
  apply keep_first_distinct.
  - rewrite deduplicate_keep_first by done. apply keep_first_NoDup.
  - intros s _. apply not_elem_of_empty.
Qed.

Lemma deduplicate_idempotent_witness :
  deduplicate (deduplicate tickers_repeated) = deduplicate tickers_repeated.
Proof.
  apply deduplicate_idempotent. apply (bool_decide_unpack _). vm_compute. reflexivity.
Defined.

(** X16.  No symbol is lost: the symbols of the de-duplicated mapping
    are the symbols of the mapping. *)
Theorem deduplicate_keeps_every_symbol (selected_tickers : Dict) symbol :
  NoDup (fst <$> selected_tickers) ->
  symbol ∈ (snd <$> deduplicate selected_tickers)
  <-> symbol ∈ (snd <$> selected_tickers).
Proof.
  intros Hnd. rewrite deduplicate_keep_first by done.
  rewrite keep_first_symbols. split; [by intros [_ H]|].
  intros H. split; [apply not_elem_of_empty | done].
Qed.

Lemma deduplicate_keeps_every_symbol_witness :
  "^GSPC"%string ∈ (snd <$> deduplicate tickers_repeated)
  <-> "^GSPC"%string ∈ (snd <$> tickers_repeated).
Proof.
  apply deduplicate_keeps_every_symbol.
  apply (bool_decide_unpack _). vm_compute. reflexivity.
Defined.

(** X17.  A selection of predefined tickers alone passes the
    de-duplication unchanged: no two predefined names share a symbol. *)
Theorem predefined_selection_unchanged selected_names d :
  select_predefined selected_names = Some d ->
  deduplicate d = d.
Proof.
  intros Hd. destruct (select_predefined_spec _ _ Hd) as [Hnd Hsub].
  rewrite deduplicate_keep_first by done.
  apply keep_first_distinct; [by apply distinct_names_of_table|].
  intros s _. apply not_elem_of_empty.
Qed.

Lemma predefined_selection_unchanged_witness :
  deduplicate [("S&P 500 (^GSPC)", "^GSPC"); ("Nasdaq (^IXIC)", "^IXIC");
               ("SCHD (SCHD)", "SCHD")]%string
  = [("S&P 500 (^GSPC)", "^GSPC"); ("Nasdaq (^IXIC)", "^IXIC");
     ("SCHD (SCHD)", "SCHD")]%string.
Proof.
  apply (predefined_selection_unchanged
           ["S&P 500 (^GSPC)"; "Nasdaq (^IXIC)"; "SCHD (SCHD)"]%string).
  reflexivity.
Defined.

(** ** More on the aggregation *)

Section aggregation_more.
Implicit Types (df : DataFrame) (st : Agg) (cols : list (string * list float))
         (results : list (string * DataFrame)).

Lemma set_column_names cols name vs :
  fst <$> set_column cols name vs
  = if decide (name ∈ (fst <$> cols)) then fst <$> cols else (fst <$> cols) ++ [name].
Proof.
  induction cols as [|[n old] cols IH]; [done|].
  cbn [set_column]. destruct (decide (n = name)) as [->|Hne].
  - rewrite !fmap_cons. cbn [fst]. rewrite decide_True; [done | by left].
  - rewrite !fmap_cons. cbn [fst]. rewrite IH.
    destruct (decide (name ∈ (fst <$> cols))) as [Hin|Hin].
    + rewrite decide_True; [done | by right].
    + rewrite decide_False; [done|]. rewrite not_elem_of_cons. by split.
Qed.

Lemma get_column_is_Some cols name :
  is_Some (get_column cols name) <-> name ∈ (fst <$> cols).
Proof.
  induction cols as [|[n vs] cols IH]; cbn [get_column].
  - split; [by intros [? ?] | intros H; by apply elem_of_nil in H].
  - rewrite fmap_cons, elem_of_cons. cbn [fst].
    destruct (decide (n = name)) as [->|Hne].
    + split; [by left | by eexists].
    + rewrite IH. split; [by right|]. by intros [?|?].
Qed.

Lemma get_column_elem cols name vs :
  get_column cols name = Some vs -> (name, vs) ∈ cols.
Proof.
  induction cols as [|[n old] cols IH]; [done|]. cbn [get_column].
  destruct (decide (n = name)) as [->|Hne].
  - intros [= ->]. by left.
  - intros H. right. by apply IH.
Qed.

(** The state after the first result that is not empty. *)
Lemma aggregate_split results name0 df0 :
  first_nonempty results = Some (name0, df0) ->
  exists st0 post,
    combined_df st0 = empty_frame
    /\ aggregate results = aggregate_from (add_result st0 name0 df0) post
    /\ (exists pre, results = pre ++ (name0, df0) :: post
                    /\ forallb (fun r => frame_empty (snd r)) pre = true)
    /\ frame_empty df0 = false.
Proof.
  intros Hfirst.
  destruct (first_nonempty_split _ _ _ Hfirst) as (Hdf0 & pre & post & -> & Hpre).
  exists (aggregate_from agg_init pre), post.
  split; [by apply aggregate_from_all_empty|].
  split; [unfold aggregate, aggregate_from; by rewrite foldl_app|].
  split; [by exists pre | done].
Qed.

Lemma first_state_frame st0 name0 df0 :
  combined_df st0 = empty_frame -> frame_empty df0 = false ->
  let fr := combined_df (add_result st0 name0 df0) in
  frame_empty fr = false
  /\ index fr = index df0
  /\ aligned_frame fr
  /\ columns fr
     = set_column [(TOTAL_INVESTED, align (index df0) (getcol df0 TOTAL_INVESTED))]
                  name0 (align (index df0) (getcol df0 PORTFOLIO_VALUE)).
Proof.
  intros E0 Hdf0 fr. unfold fr.
  assert (E : frame_empty (combined_df st0) = true) by (by rewrite E0).
  rewrite (add_result_first st0 name0 df0 E Hdf0).
  split; [apply frame_set_empty; cbn [frame_set index]; by apply frame_empty_false|].
  split; [done|]. split; [|done].
  apply frame_set_aligned, frame_set_aligned. constructor.
Qed.

(** A column, once there, stays. *)
Lemma aggregate_from_keeps_column st results name :
  frame_empty (combined_df st) = false ->
  is_Some (get_column (columns (combined_df st)) name) ->
  is_Some (get_column (columns (combined_df (aggregate_from st results))) name).
Proof.
  revert st. induction results as [|[n df] results IH]; intros st Hne Hcol; [done|].
  cbn [aggregate_from foldl fst snd]. fold (aggregate_from (add_result st n df) results).
  destruct (frame_empty df) eqn:Edf.
  - pose proof (add_result_empty st n df Edf) as E. apply IH; by rewrite E.
  - pose proof (add_result_next st n df Hne Edf) as E. apply IH; rewrite E.
    + apply frame_set_empty. by apply frame_empty_false.
    + cbn [frame_set columns]. apply get_column_is_Some. rewrite set_column_names.
      apply get_column_is_Some in Hcol. destruct (decide _); [done|].
      apply elem_of_app. by left.
Qed.

Lemma aggregate_from_names st results :
  frame_empty (combined_df st) = false ->
  NoDup (fst <$> results) ->
  (forall n, n ∈ (fst <$> results) -> n ∉ (fst <$> columns (combined_df st))) ->
  fst <$> columns (combined_df (aggregate_from st results))
  = (fst <$> columns (combined_df st))
      ++ (fst <$> List.filter (fun r => negb (frame_empty (snd r))) results).
Proof.
  revert st. induction results as [|[n df] results IH]; intros st Hne Hnd Hfresh.
  - by rewrite app_nil_r.
  - rewrite fmap_cons in Hnd. apply NoDup_cons in Hnd as [Hn Hnd]. cbn [fst] in Hn.
    cbn [aggregate_from foldl fst snd List.filter].
    fold (aggregate_from (add_result st n df) results).
    destruct (frame_empty df) eqn:Edf; cbn [negb].
    + pose proof (add_result_empty st n df Edf) as E.
      rewrite IH; rewrite ?E; [done..|].
      intros m Hm. apply Hfresh. by right.
    + pose proof (add_result_next st n df Hne Edf) as E.
      assert (Hnames : fst <$> columns (combined_df (add_result st n df))
                       = (fst <$> columns (combined_df st)) ++ [n]).
      { rewrite E. cbn [frame_set columns]. rewrite set_column_names.
        rewrite decide_False; [done|]. apply Hfresh. by left. }
      rewrite IH; [| |done|].
      * rewrite Hnames, fmap_cons. cbn [fst]. by rewrite <- app_assoc.
      * rewrite E. apply frame_set_empty. by apply frame_empty_false.
      * intros m Hm. rewrite Hnames, elem_of_app, list_elem_of_singleton.
        intros [Hin| ->]; [|done]. revert Hin. apply Hfresh. by right.
Qed.

Lemma aggregate_from_warned st results :
  warned (aggregate_from st results)
  = warned st ++ (fst <$> List.filter (fun r => frame_empty (snd r)) results).
Proof.
  revert st. induction results as [|[n df] results IH]; intros st.
  - by rewrite app_nil_r.
  - cbn [aggregate_from foldl fst snd List.filter].
    fold (aggregate_from (add_result st n df) results). rewrite IH.
    unfold add_result. destruct (frame_empty df); cbn [warned].
    + rewrite fmap_cons. cbn [fst]. by rewrite <- app_assoc.
    + done.
Qed.

Lemma ffill_from_notna last (cells : list float) :
  forallb notna cells = true -> ffill_from last cells = cells.
Proof.
  revert last. induction cells as [|v cells IH]; intros last; [done|].
  cbn [forallb ffill_from]. intros [Hv Hc]%andb_prop.
  unfold notna in Hv. destruct (isna v); [done|]. f_equal. by apply IH.
Qed.

Lemma ffill_from_again last (cells : list float) :
  ffill_from last (ffill_from last cells) = ffill_from last cells.
Proof.
  revert last. induction cells as [|v cells IH]; intros last; [done|].
  cbn [ffill_from]. destruct (isna v) eqn:Ev; cbn [ffill_from].
  - destruct (isna last) eqn:El; f_equal; apply IH.
  - rewrite Ev. f_equal. apply IH.
Qed.

(** Filling from a cell that is not NaN leaves no NaN. *)
Lemma ffill_from_defined last (cells : list float) k w :
  isna last = false -> ffill_from last cells !! k = Some w -> isna w = false.
Proof.
  revert last k. induction cells as [|v cells IH]; intros last k Hl Hk; [by destruct k|].
  cbn [ffill_from] in Hk. destruct (isna v) eqn:Ev.
  - destruct k as [|k]; cbn in Hk; [by simplify_eq|]. by eapply IH.
  - destruct k as [|k]; cbn in Hk; [by simplify_eq|]. by eapply IH.
Qed.

Lemma ffill_from_keeps last (cells : list float) k v :
  cells !! k = Some v -> isna v = false -> ffill_from last cells !! k = Some v.
Proof.
  revert last k. induction cells as [|x cells IH]; intros last k Hk Hv; [by destruct k|].
  cbn [ffill_from]. destruct k as [|k].
  - cbn in Hk. simplify_eq. by rewrite Hv.
  - cbn in Hk. destruct (isna x); cbn; by apply IH.
Qed.

Lemma ffill_from_after last (cells : list float) j k v :
  cells !! j = Some v -> isna v = false -> (j <= k < length cells)%nat ->
  exists w, ffill_from last cells !! k = Some w /\ isna w = false.
Proof.
  revert last j k. induction cells as [|x cells IH]; intros last j k Hj Hv Hk;
    [by destruct j|].
  cbn [length] in Hk. destruct j as [|j].
  - cbn in Hj. simplify_eq. cbn [ffill_from]. rewrite Hv.
    destruct k as [|k]; [by exists v|]. cbn.
    destruct (lookup_lt_is_Some_2 (ffill_from v cells) k) as [w Hw].
    { rewrite ffill_from_length. lia. }
    exists w. split; [done|]. by eapply ffill_from_defined.
  - cbn in Hj. destruct k as [|k]; [lia|].
    cbn [ffill_from]. destruct (isna x); cbn; eapply IH; eauto; lia.
Qed.

Lemma simulate_getcol_total series (c : Qc) df :
  simulate series c = Returned df ->
  align (index df) (getcol df TOTAL_INVESTED)
  = Fin <$> (total_invested <$> iterations c acc_init (dropna series)).
Proof.
  intros Hdf. unfold getcol, column.
  rewrite (simulate_total_column c series df Hdf). cbn [default from_option].
  unfold align.
  assert (Hlen : length (index df)
                 = length (Fin <$> (total_invested
                                      <$> iterations c acc_init (dropna series)))).
  { rewrite (simulate_index c series df Hdf), !length_fmap.
    by rewrite (simulate_iterations c series df Hdf). }
  rewrite decide_True by (apply fst_zip; lia).
  apply snd_zip. lia.
Qed.

Lemma invested_cells_notna (qs : list Qc) : forallb notna (Fin <$> qs) = true.
Proof. by induction qs. Qed.
End aggregation_more.

Section aggregation_results.
Implicit Types (results : list (string * DataFrame)).

Lemma first_nonempty_none results :
  first_nonempty results = None ->
  forallb (fun r => frame_empty (snd r)) results = true.
Proof.
  unfold first_nonempty. induction results as [|[n df] results IH]; [done|].
  cbn [List.find forallb snd]. destruct (frame_empty df); cbn [negb andb]; [exact IH|done].
Qed.

Lemma filter_nonempty_all_empty results :
  forallb (fun r => frame_empty (snd r)) results = true ->
  List.filter (fun r => negb (frame_empty (snd r))) results = [].
Proof.
  induction results as [|[n df] results IH]; [done|].
  cbn [forallb List.filter snd]. intros [-> H]%andb_prop. cbn [negb]. by apply IH.
Qed.

(** The aggregated frame when some result is not empty. *)
Lemma aggregate_frame results name0 df0 :
  first_nonempty results = Some (name0, df0) ->
  exists out,
    finish (aggregate results) = Some out
    /\ out = ffill (combined_df (aggregate results))
    /\ index out = index df0
    /\ index out <> []
    /\ aligned_frame out
    /\ is_Some (get_column (columns out) TOTAL_INVESTED).
Proof.
  intros Hfirst.
  destruct (aggregate_split _ _ _ Hfirst) as (st0 & post & E0 & Hagg & _ & Hdf0).
  destruct (first_state_frame st0 name0 df0 E0 Hdf0) as (Hne1 & Hi1 & Hal1 & Hc1).
  destruct (aggregate_from_index _ post Hne1 Hal1) as (Hi & Hne & Hal).
  exists (ffill (combined_df (aggregate results))).
  unfold finish. rewrite Hagg, Hne. split; [done|]. split; [done|].
  cbn [ffill index]. rewrite Hi, Hi1. split; [done|].
  split; [by apply frame_empty_false|]. split.
  - unfold aligned_frame, ffill. cbn [columns index]. rewrite Forall_fmap.
    eapply Forall_impl; [exact Hal|]. intros [n vs] Hlen. cbn [snd fst compose] in *.
    unfold ffill_cells. by rewrite ffill_from_length.
  - rewrite get_column_ffill. apply fmap_is_Some.
    apply aggregate_from_keeps_column; [done|]. rewrite Hc1.
    apply get_column_is_Some. rewrite set_column_names. cbn [fmap list_fmap fst].
    destruct (decide _); [by left|]. apply elem_of_app. left. by left.
Qed.
(** The names of the columns of the aggregated frame. *)
Lemma aggregate_column_names (results : list (string * DataFrame)) name0 df0 :
  NoDup (fst <$> results) ->
  TOTAL_INVESTED ∉ (fst <$> results) ->
  first_nonempty results = Some (name0, df0) ->
  exists out,
    finish (aggregate results) = Some out
    /\ fst <$> columns out
       = TOTAL_INVESTED
           :: (fst <$> List.filter (fun r => negb (frame_empty (snd r))) results).
Proof.
  intros Hnd Htotal Hfirst.
  destruct (aggregate_frame _ _ _ Hfirst) as (out & Hout & -> & _).
  exists (ffill (combined_df (aggregate results))). split; [done|].
  destruct (aggregate_split _ _ _ Hfirst) as (st0 & post & E0 & Hagg & (pre & -> & Hpre) & Hdf0).
  destruct (first_state_frame st0 name0 df0 E0 Hdf0) as (Hne1 & Hi1 & Hal1 & Hc1).
  rewrite fmap_app, fmap_cons in Hnd, Htotal. cbn [fst] in Hnd, Htotal.
  apply NoDup_app in Hnd as (_ & _ & Hnd). apply NoDup_cons in Hnd as [Hn0 Hpost].
  rewrite not_elem_of_app, not_elem_of_cons in Htotal.
  destruct Htotal as (_ & Hne0 & Htotal).
  assert (Hnames1 : fst <$> columns (combined_df (add_result st0 name0 df0))
                    = [TOTAL_INVESTED; name0]).
  { rewrite Hc1, set_column_names. cbn [fmap list_fmap fst].
    rewrite decide_False; [done|]. by intros ->%list_elem_of_singleton. }
  unfold ffill. cbn [columns]. rewrite <- list_fmap_compose.
  rewrite (list_fmap_ext _ fst) by done.
  rewrite Hagg, aggregate_from_names, Hnames1; [|done|done|].
  - rewrite List.filter_app, (filter_nonempty_all_empty pre Hpre).
    cbn [app List.filter snd]. by rewrite Hdf0.
  - intros n Hn. rewrite Hnames1, !not_elem_of_cons. split; [|split].
    + intros ->. done.
    + intros ->. done.
    + apply not_elem_of_nil.
Qed.

End aggregation_results.

(** X18.  The aggregation ends in the error branch exactly when every
    result is empty. *)
Theorem finish_none_iff (results : list (string * DataFrame)) :
  finish (aggregate results) = None
  <-> forallb (fun r => frame_empty (snd r)) results = true.
Proof.
  split.
  - intros Hnone. destruct (first_nonempty results) as [[n0 df0]|] eqn:E.
    + destruct (aggregate_frame _ _ _ E) as (out & Hout & _). by rewrite Hout in Hnone.
    + by apply first_nonempty_none.
  - intros Hall. unfold finish, aggregate.
    by rewrite (aggregate_from_all_empty agg_init results Hall).
Qed.

(** X19.  The instruments warned about are the ones whose result is
    empty, each once, in caller order. *)
Theorem warned_are_the_empty_results (results : list (string * DataFrame)) :
  warned (aggregate results)
  = fst <$> List.filter (fun r => frame_empty (snd r)) results.
Proof. unfold aggregate. by rewrite aggregate_from_warned. Qed.

(** X20.  With distinct instrument names, none of them "Total Invested",
    the columns of the aggregated frame are ["Total Invested"] followed
    by the instruments whose result is not empty, in caller order. *)
Theorem combined_column_names (results : list (string * DataFrame)) name0 df0 :
  NoDup (fst <$> results) ->
  TOTAL_INVESTED ∉ (fst <$> results) ->
  first_nonempty results = Some (name0, df0) ->
  exists out,
    finish (aggregate results) = Some out
    /\ fst <$> columns out
       = TOTAL_INVESTED
           :: (fst <$> List.filter (fun r => negb (frame_empty (snd r))) results).
Proof. apply aggregate_column_names. Qed.

Lemma combined_column_names_witness :
  exists out,
    finish (aggregate results_late_start) = Some out
    /\ fst <$> columns out
       = TOTAL_INVESTED
           :: (fst <$> List.filter (fun r => negb (frame_empty (snd r)))
                                   results_late_start).
Proof.
  apply (combined_column_names results_late_start "a"
           (frame_of (calculate_portfolio data_late_start "A" (of_int 100)))).
  - apply (bool_decide_unpack _). vm_compute. reflexivity.
  - apply (bool_decide_unpack _). vm_compute. reflexivity.
  - reflexivity.
Defined.

(** X21.  When no instrument is named "Total Invested", the reference
    column of the aggregated frame is the ["Total Invested"] column of
    the first result that is not empty, and its last cell is the
    contribution times the number of defined prices of that one
    instrument, whatever the other instruments cover. *)
Theorem baseline_is_first_result (results : list (string * DataFrame))
    name0 series (c : Qc) df0 :
  TOTAL_INVESTED ∉ (fst <$> results) ->
  simulate series c = Returned df0 ->
  first_nonempty results = Some (name0, df0) ->
  exists out,
    finish (aggregate results) = Some out
    /\ get_column (columns out) TOTAL_INVESTED
       = get_column (columns df0) TOTAL_INVESTED
    /\ final_cell out TOTAL_INVESTED
       = Some (Fin (c * of_int (Z.of_nat (length (dropna series))))%Qc).
Proof.
  intros Htotal Hsim Hfirst.
  destruct (aggregate_frame _ _ _ Hfirst) as (out & Hout & -> & _).
  exists (ffill (combined_df (aggregate results))). split; [done|].
  destruct (aggregate_split _ _ _ Hfirst) as (st0 & post & E0 & Hagg & (pre & -> & Hpre) & Hdf0).
  destruct (first_state_frame st0 name0 _ E0 Hdf0) as (Hne1 & Hi1 & Hal1 & Hc1).
  rewrite fmap_app, fmap_cons, not_elem_of_app, not_elem_of_cons in Htotal.
  cbn [fst] in Htotal. destruct Htotal as (_ & Hne0 & Htotal).
  assert (Hcol : get_column (columns (ffill (combined_df
                    (aggregate (pre ++ (name0, df0) :: post)))))
                   TOTAL_INVESTED
                 = Some (Fin <$> (total_invested
                                    <$> iterations c acc_init (dropna series)))).
  { rewrite get_column_ffill, Hagg, aggregate_from_other by done.
    rewrite Hc1, get_set_column_ne by done. cbn [get_column].
    rewrite decide_True by done. cbn [fmap option_fmap option_map]. f_equal.
    rewrite (simulate_getcol_total series c df0 Hsim). unfold ffill_cells.
    apply ffill_from_notna, invested_cells_notna. }
  split; [by rewrite Hcol, (simulate_total_column c series df0 Hsim)|].
  unfold final_cell. rewrite Hcol. cbn [mbind option_bind]. unfold iloc_last.
  assert (Hl : dropna series <> []).
  { intros E. revert Hdf0. unfold frame_empty.
    rewrite (simulate_index c series df0 Hsim), E. done. }
  apply simulate_inv in Hsim as (st & Hst & _).
  rewrite !fmap_last, (iterations_last_nonempty c acc_init (dropna series) st) by done.
  cbn [fmap option_fmap option_map]. rewrite (run_loop_total c _ _ _ Hst).
  cbn [total_invested acc_init]. by rewrite Qcplus_0_l.
Qed.

Lemma baseline_is_first_result_witness :
  exists out,
    finish (aggregate
              [("gap"%string, frame_of (simulate series_with_gap (of_int 100)));
               ("flat"%string, frame_of (simulate series_flat (of_int 100)))])
    = Some out
    /\ get_column (columns out) TOTAL_INVESTED
       = get_column (columns (frame_of (simulate series_with_gap (of_int 100))))
                    TOTAL_INVESTED
    /\ final_cell out TOTAL_INVESTED
       = Some (Fin (of_int 100
                    * of_int (Z.of_nat (length (dropna series_with_gap))))%Qc).
Proof.
  apply (baseline_is_first_result _ "gap"%string series_with_gap (of_int 100)).
  - apply (bool_decide_unpack _). vm_compute. reflexivity.
  - vm_compute. reflexivity.
  - vm_compute. reflexivity.
Defined.

(** X22.  Forward filling a filled frame changes nothing. *)
Theorem ffill_idempotent df : ffill (ffill df) = ffill df.
Proof.
  unfold ffill. cbn [index columns]. f_equal.
  rewrite <- list_fmap_compose. apply list_fmap_ext. intros k [n vs] _.
  cbn [compose fst snd]. f_equal. apply ffill_from_again.
Qed.

(** X23.  Forward filling keeps the length of a column and every cell
    that is not NaN, and from the first such cell on it leaves no NaN. *)
Theorem ffill_column df name cells :
  get_column (columns df) name = Some cells ->
  exists filled,
    get_column (columns (ffill df)) name = Some filled
    /\ length filled = length cells
    /\ (forall k v, cells !! k = Some v -> v <> NaN -> filled !! k = Some v)
    /\ (forall j k v,
           cells !! j = Some v -> v <> NaN -> (j <= k < length cells)%nat ->
           exists w, filled !! k = Some w /\ w <> NaN).
Proof.
  intros Hcol. exists (ffill_cells cells).
  split; [by rewrite get_column_ffill, Hcol|].
  split; [apply ffill_from_length|]. split.
  - intros k v Hk Hv. apply ffill_from_keeps; [done|]. by destruct v.
  - intros j k v Hj Hv Hk.
    destruct (ffill_from_after NaN cells j k v Hj) as (w & Hw & Hna); [by destruct v|done|].
    exists w. split; [done|]. by intros ->.
Qed.

Lemma ffill_column_witness :
  exists filled,
    get_column (columns (ffill data_sparse)) "B" = Some filled
    /\ length filled = length [NaN; Fin (of_int 5); NaN]
    /\ (forall k v, [NaN; Fin (of_int 5); NaN] !! k = Some v -> v <> NaN ->
                    filled !! k = Some v)
    /\ (forall j k v,
           [NaN; Fin (of_int 5); NaN] !! j = Some v -> v <> NaN ->
           (j <= k < length [NaN; Fin (of_int 5); NaN])%nat ->
           exists w, filled !! k = Some w /\ w <> NaN).
Proof. apply (ffill_column data_sparse "B"). reflexivity. Defined.

(** X24.  When the results that are not empty share one index, the order
    of the instruments does not matter for the axis nor for the column
    of any included instrument. *)
Theorem aggregation_order_insensitive
    (results1 results2 : list (string * DataFrame)) idx name df :
  results1 ≡ₚ results2 ->
  NoDup (fst <$> results1) ->
  Forall (fun r => frame_empty (snd r) = false -> index (snd r) = idx) results1 ->
  (name, df) ∈ results1 ->
  frame_empty df = false ->
  exists out1 out2,
    finish (aggregate results1) = Some out1
    /\ finish (aggregate results2) = Some out2
    /\ index out1 = index out2
    /\ get_column (columns out1) name = get_column (columns out2) name.
Proof.
  intros Hperm Hnd Hidx Hin Hdf.
  assert (Hnd2 : NoDup (fst <$> results2)) by (by rewrite <- Hperm).
  assert (Hin2 : (name, df) ∈ results2) by (by rewrite <- Hperm).
  destruct (first_nonempty_exists _ _ _ Hin Hdf) as (n1 & d1 & H1).
  destruct (first_nonempty_exists _ _ _ Hin2 Hdf) as (n2 & d2 & H2).
  destruct (finish_aggregate_spec _ _ _ Hnd H1) as (out1 & Ho1 & Hi1 & _ & Hc1).
  destruct (finish_aggregate_spec _ _ _ Hnd2 H2) as (out2 & Ho2 & Hi2 & _ & Hc2).
  rewrite Forall_forall in Hidx.
  assert (E1 : index d1 = idx).
  { destruct (first_nonempty_split _ _ _ H1) as (Hd1 & _).
    apply (Hidx (n1, d1)); [|done].
    apply list_elem_of_In. by apply (List.find_some _ _ H1). }
  assert (E2 : index d2 = idx).
  { destruct (first_nonempty_split _ _ _ H2) as (Hd2 & _).
    apply (Hidx (n2, d2)); [|done]. rewrite Hperm.
    apply list_elem_of_In. by apply (List.find_some _ _ H2). }
  exists out1, out2. split; [done|]. split; [done|].
  split; [by rewrite Hi1, Hi2, E1, E2|].
  by rewrite (Hc1 _ _ Hin Hdf), (Hc2 _ _ Hin2 Hdf), E1, E2.
Qed.

Lemma aggregation_order_insensitive_witness :
  exists out1 out2,
    finish (aggregate
              [("gap"%string, frame_of (simulate series_with_gap (of_int 100)));
               ("half"%string, frame_of (simulate series_with_gap (of_int 50)))])
    = Some out1
    /\ finish (aggregate
                 [("half"%string, frame_of (simulate series_with_gap (of_int 50)));
                  ("gap"%string, frame_of (simulate series_with_gap (of_int 100)))])
       = Some out2
    /\ index out1 = index out2
    /\ get_column (columns out1) "gap" = get_column (columns out2) "gap".
Proof.
  apply (aggregation_order_insensitive _ _ [jan1; mar1] "gap"
           (frame_of (simulate series_with_gap (of_int 100)))).
  - apply perm_swap.
  - apply (bool_decide_unpack _). vm_compute. reflexivity.
  - constructor; [intros _; vm_compute; reflexivity|].
    constructor; [intros _; vm_compute; reflexivity|]. constructor.
  - by left.
  - vm_compute. reflexivity.
Defined.

(** ** More on the metrics section *)

Section metrics_more.
Local Open Scope Qc_scope.

Lemma last_is_Some (cells : list float) : cells <> [] -> is_Some (last cells).
Proof.
  induction cells as [|x cells IH]; [done|]. intros _.
  destruct cells as [|y cells]; [by eexists|]. rewrite last_cons_cons. by apply IH.
Qed.

Lemma aligned_column_last out name cells :
  aligned_frame out -> index out <> [] ->
  get_column (columns out) name = Some cells -> is_Some (iloc_last cells).
Proof.
  intros Hal Hidx Hcol. apply last_is_Some. intros ->.
  apply get_column_elem in Hcol. unfold aligned_frame in Hal.
  rewrite Forall_forall in Hal. specialize (Hal _ Hcol). cbn in Hal.
  destruct (index out); [done|]. cbn in Hal. lia.
Qed.

(** On a frame with rows, one cell per row in every column and a
    ["Total Invested"] column, the metrics section finds all it reads:
    it raises only when the final invested amount cannot be formatted. *)
Lemma metrics_cases (selected_tickers : Dict) out :
  aligned_frame out -> index out <> [] ->
  is_Some (get_column (columns out) TOTAL_INVESTED) ->
  exists final_invested,
    final_cell out TOTAL_INVESTED = Some final_invested
    /\ if formats final_invested then is_Some (metrics selected_tickers out)
       else metrics selected_tickers out = None.
Proof.
  intros Hal Hidx [cells Hcells]. unfold metrics, final_cell. rewrite Hcells.
  cbn [mbind option_bind].
  destruct (aligned_column_last _ _ _ Hal Hidx Hcells) as [fi Hfi]. rewrite Hfi.
  cbn [mbind option_bind].
  exists fi. split; [done|]. destruct (formats fi); [|done].
  assert (Hms : is_Some (mapM (metric_of out fi) (valid_tickers selected_tickers out))).
  { apply mapM_is_Some. apply Forall_forall. intros name Hname.
    unfold valid_tickers in Hname. apply list_elem_of_In, List.filter_In in Hname.
    destruct Hname as [_ Hcol]. apply bool_decide_eq_true in Hcol as [vs Hvs].
    unfold compose, metric_of. rewrite Hvs. cbn [mbind option_bind].
    destruct (aligned_column_last _ _ _ Hal Hidx Hvs) as [fv Hfv]. rewrite Hfv.
    by eexists. }
  destruct Hms as [ms Hms]. cbn [mbind option_bind]. rewrite Hms. by eexists.
Qed.

Lemma metrics_names (selected_tickers : Dict) out fi ms :
  metrics selected_tickers out = Some (fi, ms) ->
  metric_name <$> ms = valid_tickers selected_tickers out.
Proof.
  unfold metrics.
  destruct (get_column (columns out) TOTAL_INVESTED ≫= iloc_last) as [fi'|]; [|done].
  cbn [mbind option_bind]. destruct (formats fi'); [|done].
  destruct (mapM (metric_of out fi') (valid_tickers selected_tickers out))
    as [ms'|] eqn:Ems; [|done].
  cbn [mbind option_bind]. intros [= <- <-].
  apply mapM_Some in Ems. induction Ems as [|name m names ms Hm _ IH]; [done|].
  rewrite fmap_cons. f_equal; [|done].
  unfold metric_of in Hm.
  destruct (get_column (columns out) name ≫= iloc_last) as [fv|]; [|done].
  cbn [mbind option_bind] in Hm. by simplify_eq.
Qed.

Lemma filter_fst_commute {A B} (P : A -> bool) (Q : A * B -> bool) (l : list (A * B)) :
  (forall item, item ∈ l -> P (fst item) = Q item) ->
  List.filter P (fst <$> l) = fst <$> List.filter Q l.
Proof.
  induction l as [|item l IH]; intros H; [done|].
  rewrite fmap_cons. cbn [List.filter]. rewrite (H item) by (by left).
  destruct (Q item); rewrite IH; try done; intros i Hi; apply H; by right.
Qed.

Lemma NoDup_fst_unique {A B} (l : list (A * B)) a b b' :
  NoDup (fst <$> l) -> (a, b) ∈ l -> (a, b') ∈ l -> b = b'.
Proof.
  intros Hnd [i Hi]%list_elem_of_lookup [j Hj]%list_elem_of_lookup.
  assert (i = j).
  { apply (NoDup_lookup _ i j a Hnd); rewrite list_lookup_fmap;
      [by rewrite Hi | by rewrite Hj]. }
  subst j. rewrite Hi in Hj. by simplify_eq.
Qed.

(** The loop of the main block either raises, at the first call that
    raises, or returns the aggregation of the returned frames. *)
Lemma combine_cases data (selected_tickers : Dict) (c : Qc) :
  (Exists (fun item => returned (calculate_portfolio data (snd item) c) = false)
          selected_tickers
   /\ exists e, combine data selected_tickers c = Raised e)
  \/ (Forall (fun item => returned (calculate_portfolio data (snd item) c) = true)
             selected_tickers
      /\ combine data selected_tickers c
         = Returned
             (aggregate
                ((fun item =>
                    (fst item, frame_of (calculate_portfolio data (snd item) c)))
                   <$> selected_tickers))).
Proof.
  destruct (combine data selected_tickers c) as [st|e] eqn:E.
  - right.
    assert (H : Forall (fun item =>
                          returned (calculate_portfolio data (snd item) c) = true)
                       selected_tickers).
    { apply (combine_from_returned data c agg_init). unfold combine in E. by rewrite E. }
    split; [done|]. rewrite <- E. by apply combine_aggregate.
  - left. split; [|by exists e].
    assert (H : ~ Forall (fun item =>
                            returned (calculate_portfolio data (snd item) c) = true)
                         selected_tickers).
    { intros H. apply (combine_from_returned data c agg_init) in H.
      unfold combine in E. by rewrite E in H. }
    apply not_Forall_Exists in H; [|intros x; apply _].
    eapply Exists_impl; [exact H|]. intros item Hi. cbn in Hi.
    by destruct (returned _).
Qed.
End metrics_more.

(** X25.  On loaded data, whose labels are pairwise distinct, the main
    block reaches the [except] clause before the metrics are shown
    exactly when the selection is not empty, the data is not empty, and
    either some call of [calculate_portfolio] raises, or all of them
    return and the final invested amount is an integer too large to be
    formatted as a float. *)
Theorem report_failed_iff data (selected_tickers : Dict) (c : Qc) :
  NoDup (index data) ->
  report data selected_tickers c = Failed
  <-> selected_tickers <> [] /\ frame_empty data = false
      /\ (Exists (fun item =>
                    returned (calculate_portfolio data (snd item) c) = false)
                 selected_tickers
          \/ exists st combined final_invested,
               combine data selected_tickers c = Returned st
               /\ finish st = Some combined
               /\ final_cell combined TOTAL_INVESTED = Some final_invested
               /\ formats final_invested = false).
Proof.
  intros _. unfold report. destruct selected_tickers as [|t ts] eqn:Et.
  { split; [done | by intros [? _]]. }
  rewrite <- Et. destruct (frame_empty data).
  { split; [done | by intros (_ & ? & _)]. }
  destruct (combine_cases data selected_tickers c)
    as [[Hex [e He]]|[Hall Hc]].
  - rewrite He. split; [|done]. intros _. rewrite Et at 1. repeat split; [done|].
    by left.
  - rewrite Hc.
    set (results := (fun item => (fst item, frame_of (calculate_portfolio
                                                       data (snd item) c)))
                      <$> selected_tickers) in *.
    assert (Hno : ~ Exists (fun item =>
                             returned (calculate_portfolio data (snd item) c) = false)
                          selected_tickers).
    { intros Hex. apply Exists_exists in Hex as (item & Hin & Hf).
      rewrite Forall_forall in Hall. specialize (Hall item Hin). congruence. }
    destruct (first_nonempty results) as [[n0 df0]|] eqn:E.
    + destruct (aggregate_frame _ _ _ E) as (out & Hout & _ & _ & Hidx & Hal & Htot).
      rewrite Hout.
      destruct (metrics_cases selected_tickers out Hal Hidx Htot) as (fi & Hfi & Hm).
      destruct (formats fi) eqn:Ef.
      * destruct Hm as [[fi' ms] ->]. split; [done|].
        intros (_ & _ & [Hex|(st & cb & fi'' & [= <-] & Hfin & Hfc & Hf)]); [done|].
        rewrite Hout in Hfin. injection Hfin as <-. congruence.
      * rewrite Hm. split; [|done]. intros _. rewrite Et at 1.
        repeat split; [done|]. right. by exists (aggregate results), out, fi.
    + apply first_nonempty_none in E.
      assert (Hfin : finish (aggregate results) = None).
      { unfold finish, aggregate.
        by rewrite (aggregate_from_all_empty agg_init results E). }
      rewrite Hfin. split; [done|].
      intros (_ & _ & [Hex|(st & cb & fi & [= <-] & Hfin' & _)]); [done|].
      congruence.
Qed.

Lemma report_failed_iff_witness :
  report data_zero tickers_az (of_int 100) = Failed
  <-> tickers_az <> [] /\ frame_empty data_zero = false
      /\ (Exists (fun item =>
                    returned (calculate_portfolio data_zero (snd item) (of_int 100))
                    = false)
                 tickers_az
          \/ exists st combined final_invested,
               combine data_zero tickers_az (of_int 100) = Returned st
               /\ finish st = Some combined
               /\ final_cell combined TOTAL_INVESTED = Some final_invested
               /\ formats final_invested = false).
Proof.
  apply (report_failed_iff data_zero tickers_az (of_int 100)).
  apply (bool_decide_unpack _). vm_compute. reflexivity.
Defined.

(** A price of zero for one of two instruments: the page shows the
    message of the [except] clause. *)
Lemma report_zero_price :
  report data_zero tickers_az (of_int 100) = Failed.
Proof. vm_compute. reflexivity. Qed.

(** X26.  With distinct display names, none of them "Total Invested",
    a page is shown only if every call of [calculate_portfolio] has
    returned, and it shows one metric per instrument that has data, in
    caller order. *)
Theorem metrics_follow_caller_order data (selected_tickers : Dict) (c : Qc)
    combined final_invested ms :
  NoDup (fst <$> selected_tickers) ->
  TOTAL_INVESTED ∉ (fst <$> selected_tickers) ->
  report data selected_tickers c = Shown combined final_invested ms ->
  metric_name <$> ms
  = fst <$> List.filter
              (fun item =>
                 negb (frame_empty (frame_of (calculate_portfolio data (snd item) c))))
              selected_tickers
  /\ Forall (fun item => returned (calculate_portfolio data (snd item) c) = true)
            selected_tickers.
Proof.
  intros Hnd Htotal Hrep. unfold report in Hrep.
  destruct selected_tickers as [|t ts] eqn:Et; [done|]. rewrite <- Et in *.
  destruct (combine_cases data selected_tickers c) as [[_ [e He]]|[Hall Hc]].
  { rewrite Et in *. rewrite He in Hrep. by destruct (frame_empty data). }
  split; [|done].
  assert (Hrep' : match finish (aggregate
                                  ((fun item =>
                                      (fst item,
                                       frame_of (calculate_portfolio data (snd item) c)))
                                     <$> selected_tickers)) with
                  | Some cb => match metrics selected_tickers cb with
                               | Some (fi, ms) => Shown cb fi ms
                               | None => Failed
                               end
                  | None => NoValues
                  end = Shown combined final_invested ms).
  { rewrite Hc in Hrep. rewrite Et in *. by destruct (frame_empty data). }
  clear Hrep Hc.
  set (f := fun item : string * string =>
              (fst item, frame_of (calculate_portfolio data (snd item) c))) in *.
  set (results := f <$> selected_tickers) in *.
  destruct (finish (aggregate results)) as [out|] eqn:Eout; [|done].
  destruct (metrics selected_tickers out) as [[fi ms']|] eqn:Em; [|done].
  injection Hrep' as <- <- <-.
  rewrite (metrics_names _ _ _ _ Em). unfold valid_tickers.
  assert (Hnames : fst <$> results = fst <$> selected_tickers).
  { unfold results. rewrite <- list_fmap_compose. by apply list_fmap_ext. }
  destruct (first_nonempty results) as [[n0 df0]|] eqn:E.
  2:{ apply first_nonempty_none in E. unfold finish, aggregate in Eout.
      by rewrite (aggregate_from_all_empty agg_init results E) in Eout. }
  destruct (aggregate_column_names results n0 df0) as (out' & Hout & Hcols);
    [by rewrite Hnames..|done|].
  rewrite Eout in Hout. apply (inj Some) in Hout. subst out'.
  apply filter_fst_commute. intros [n s] Hin. cbn [fst snd].
  assert (Hn : n <> TOTAL_INVESTED).
  { intros ->. apply Htotal. by apply (list_elem_of_fmap_2 fst _ (_, s)). }
  destruct (frame_empty (frame_of (calculate_portfolio data s c))) eqn:Edf; cbn [negb].
  - apply bool_decide_eq_false. rewrite get_column_is_Some, Hcols.
    rewrite not_elem_of_cons. split; [done|]. intros Hmem.
    apply list_elem_of_fmap in Hmem as ([n' df'] & Hn' & Hmem). cbn [fst] in Hn'. subst n'.
    apply list_elem_of_In, List.filter_In in Hmem as [Hmem Hne].
    apply list_elem_of_In in Hmem. unfold results in Hmem.
    apply list_elem_of_fmap in Hmem as ([n'' s'] & Heq & Hmem).
    unfold f in Heq. cbn [fst snd] in Heq. injection Heq as <- ->.
    assert (s' = s) as -> by (by eapply NoDup_fst_unique).
    cbn [snd] in Hne. by rewrite Edf in Hne.
  - apply bool_decide_eq_true. rewrite get_column_is_Some, Hcols. right.
    apply (list_elem_of_fmap_2 fst _ (n, frame_of (calculate_portfolio data s c))).
    apply list_elem_of_In, List.filter_In. split.
    + apply list_elem_of_In. unfold results.
      by apply (list_elem_of_fmap_2 f _ (n, s)).
    + cbn [snd]. by rewrite Edf.
Qed.

Lemma metrics_follow_caller_order_witness :
  metric_name <$> shown_metrics (report data_late_start
                                        [("none", "C"); ("b", "B")]%string
                                        (of_int 100))
  = fst <$> List.filter
              (fun item =>
                 negb (frame_empty
                         (frame_of (calculate_portfolio data_late_start (snd item)
                                                        (of_int 100)))))
              [("none", "C"); ("b", "B")]%string
  /\ Forall (fun item =>
               returned (calculate_portfolio data_late_start (snd item) (of_int 100))
               = true)
            [("none", "C"); ("b", "B")]%string.
Proof.
  apply (metrics_follow_caller_order data_late_start [("none", "C"); ("b", "B")]%string
           (of_int 100)
           (shown_frame (report data_late_start [("none", "C"); ("b", "B")]%string
                                (of_int 100)))
           (default NaN
              (shown_invested (report data_late_start
                                      [("none", "C"); ("b", "B")]%string (of_int 100))))).
  - apply (bool_decide_unpack _). vm_compute. reflexivity.
  - apply (bool_decide_unpack _). vm_compute. reflexivity.
  - vm_compute. reflexivity.
Defined.
